(** * Fluor-Tools: the identifier map (tools/mapper.py) and the field
      validators (tools/auditor.py), embedded and verified.

    The Python code is embedded shallowly: methods become functions on
    explicit object states, a raised exception becomes an [outcome] that
    carries the exception together with the object state at the moment
    of the raise. *)

From Stdlib Require Import String Ascii List Arith Bool Lia QArith DecimalString.
From stdpp Require Import gmap strings list.
From Stdlib Require Sorted.

Import ListNotations.
Local Open Scope string_scope.
Local Open Scope list_scope.
Local Open Scope nat_scope.

(** ** Python string primitives used by the validators

    A [str] is modelled by [string], a sequence of 8-bit characters:
    the validators only single out ASCII characters, and any other
    character falls in their "illegal" cases. *)
Module Py.

(** [letter in "..."] for a one-character [letter]. *)
Fixpoint char_in (c : ascii) (s : string) : bool :=
  match s with
  | EmptyString => false
  | String d t => Ascii.eqb c d || char_in c t
  end.

(** [s[n:]] *)
Fixpoint slice_from (n : nat) (s : string) : string :=
  match n, s with
  | O, _ => s
  | S _, EmptyString => EmptyString
  | S k, String _ t => slice_from k t
  end.

(** [s[:n]] *)
Fixpoint slice_to (n : nat) (s : string) : string :=
  match n, s with
  | O, _ => EmptyString
  | S _, EmptyString => EmptyString
  | S k, String c t => String c (slice_to k t)
  end.

(** [s.split(sep)] for a one-character separator: never the empty list. *)
Fixpoint split (sep : ascii) (s : string) : list string :=
  match s with
  | EmptyString => [EmptyString]
  | String c t =>
      if Ascii.eqb c sep then EmptyString :: split sep t
      else match split sep t with
           | [] => [String c EmptyString]
           | h :: r => String c h :: r
           end
  end.

(** [l[-1]] of a list of strings known to be non-empty. *)
Definition last_item (l : list string) : string := List.last l EmptyString.

(** [x in l] for a list of strings. *)
Definition str_in_list (x : string) (l : list string) : bool :=
  existsb (String.eqb x) l.

(** [f"{n}"] for a non-negative int. *)
Definition fmt_int (n : nat) : string := NilZero.string_of_uint (Nat.to_uint n).

(** Truth value of an optional string: [None] and [""] are falsy. *)
Definition truthy (d : option string) : bool :=
  match d with
  | None => false
  | Some s => negb (String.eqb s EmptyString)
  end.

(** [s.lower()]. Python lowers every cased character of Unicode. The
    identifier map lowers names and keys and then only compares the
    results, with [==] and with [<]; so [lower] is a parameter of the
    model, and what is proved of the map holds for every function on
    strings, Python's among them. For the map a [str] is the sequence
    of its UTF-8 bytes: two strs are equal exactly when their bytes
    are, and the byte-wise order of [String.ltb] is the code-point
    order of Python's [<]. *)
Class Lower := lower : string -> string.

(** [s.lower()] for ASCII text, where only [A-Z] are cased: the
    lowering used with the concrete maps and batches. *)
Definition lower_char (c : ascii) : ascii :=
  let n := nat_of_ascii c in
  if (65 <=? n) && (n <=? 90) then ascii_of_nat (n + 32) else c.

Fixpoint ascii_lower (s : string) : string :=
  match s with
  | EmptyString => EmptyString
  | String c t => String (lower_char c) (ascii_lower t)
  end.

Definition ascii_Lower : Lower := ascii_lower.

(** The exceptions the modelled code raises. *)
Inductive exn :=
| NameError (name : string)
| ValueError (msg : string)
| KeyError (key : string)
| AttributeError (msg : string)
| IndexError (msg : string).

(** The result of a method call on an object of state [S]: it returns,
    or it raises; either way [S] is the object as the call left it. *)
Inductive outcome (S : Type) :=
| Returned (s : S)
| Raised (e : exn) (s : S).
Arguments Returned {S} _.
Arguments Raised {S} _ _.

Definition state_of {S} (o : outcome S) : S :=
  match o with Returned s | Raised _ s => s end.

(** Run [k] after a call that returned; a raise ends the method. *)
Definition and_then {S} (o : outcome S) (k : S -> outcome S) : outcome S :=
  match o with
  | Returned s => k s
  | Raised e s => Raised e s
  end.

(** Call a method of the attribute read by [get] and written by [set]. *)
Definition on_attr {S T} (get : S -> T) (set : T -> S -> S)
    (method : T -> outcome T) (self : S) : outcome S :=
  match method (get self) with
  | Returned t => Returned (set t self)
  | Raised e t => Raised e (set t self)
  end.

Notation "f >>> g" := (fun self => and_then (f self) g)
  (at level 65, right associativity).

End Py.

(** ** tools/auditor.py *)
Module Auditor.
Import Py.

(** The result attributes [.valid] and [.errors] of a validator. *)
Record Verdict := mkVerdict { valid : bool; errors : list string }.

(** [AbstractAudit.__init__] without data. *)
Definition unchecked : Verdict := mkVerdict false ["unchecked"].

(** *** AuditHeader *)

Definition lower_letters : string := "abcdefghijklmnopqrstuvwxyz".
Definition upper_digits : string := "ABCDEFGHIJKLMNOPQRSTUVWXYZ0123456789".

(** The counters of [AuditHeader.audit]. *)
Record header_counts := mkHeaderCounts {
  colon_count : nat;
  error_char_lower : nat;
  error_char_illegal : nat;
  error_char_last : nat;
  error_colon_multiple : nat
}.

(** One round of [for i, letter in enumerate(data)]; [len] is [len(data)]. *)
Definition header_step (len : nat) (c : header_counts) (i : nat) (letter : ascii)
  : header_counts :=
  if Ascii.eqb letter ":" then
    mkHeaderCounts (S (colon_count c)) (error_char_lower c) (error_char_illegal c)
      (error_char_last c)
      (if 1 <=? colon_count c then S (error_colon_multiple c)
       else error_colon_multiple c)
  else if char_in letter lower_letters then
    mkHeaderCounts (colon_count c) (S (error_char_lower c)) (error_char_illegal c)
      (error_char_last c) (error_colon_multiple c)
  else if negb (char_in letter upper_digits) then
    mkHeaderCounts (colon_count c) (error_char_lower c) (S (error_char_illegal c))
      (error_char_last c) (error_colon_multiple c)
  else if (i =? len - 1) && Ascii.eqb letter ":" then
    mkHeaderCounts (colon_count c) (error_char_lower c) (error_char_illegal c)
      (S (error_char_last c)) (error_colon_multiple c)
  else c.

Fixpoint header_loop (len : nat) (c : header_counts) (i : nat) (data : string)
  : header_counts :=
  match data with
  | EmptyString => c
  | String letter rest => header_loop len (header_step len c i letter) (S i) rest
  end.

Definition header_errors (error_missing : nat) (c : header_counts) : list string :=
  (if 0 <? error_missing then ["illegal missing header"] else []) ++
  (if 0 <? error_char_lower c
   then [fmt_int (error_char_lower c) +:+ " illegal lower key characters"] else []) ++
  (if 0 <? error_char_illegal c
   then [fmt_int (error_char_illegal c) +:+ " illegal characters"] else []) ++
  (if 0 <? error_char_last c
   then [fmt_int (error_char_last c) +:+ " illegal final characters (:)"] else []) ++
  (if 0 <? error_colon_multiple c
   then [fmt_int (error_colon_multiple c) +:+ " illegal multiple colons"] else []).

Definition verdict_of_errors (errs : list string) : Verdict :=
  match errs with
  | [] => mkVerdict true errs
  | _ :: _ => mkVerdict false errs
  end.

(** [AuditHeader.audit(data)]: the new [(valid, errors)] of the validator. *)
Definition AuditHeader_audit (data : option string) : Verdict :=
  let zero := mkHeaderCounts 0 0 0 0 0 in
  match data with
  | None => verdict_of_errors (header_errors 1 zero)
  | Some s =>
      if String.eqb s EmptyString then verdict_of_errors (header_errors 1 zero)
      else verdict_of_errors (header_errors 0 (header_loop (String.length s) zero 0 s))
  end.

(** *** AuditUrl *)

Definition url_fail (msg : string) : Verdict := mkVerdict false [msg].

(** [AuditUrl.audit(data)]. *)
Definition AuditUrl_audit (data : option string) : Verdict :=
  match data with
  | None => url_fail "missing url"
  | Some address =>
      if String.eqb address EmptyString then url_fail "missing url"
      else
        let stripped :=
          if (7 <=? String.length address) && String.eqb (slice_to 7 address) "http://"
          then Some (slice_from 8 address)
          else if (8 <=? String.length address)
                  && String.eqb (slice_to 8 address) "https://"
          then Some (slice_from 9 address)
          else None in
        match stripped with
        | None => url_fail "missing http(s)://"
        | Some rest =>
            let address := split "/" rest in
            if length address <=? 1 then url_fail "address too general"
            else
              let address_host := split "." (List.hd EmptyString address) in
              if length address_host <=? 1 then url_fail "incorret hostname"
              else if String.eqb (last_item address_host) "arpa"
              then url_fail "arpa domain is not allowed"
              else if (3 <? String.length (last_item address_host))
                      || (String.length (last_item address_host) <=? 1)
              then url_fail "impossible address domain"
              else if existsb (fun part => String.length part =? 0) address
              then url_fail "missing section in domain"
              else if str_in_list "?" address
              then url_fail "query's not allowed in address"
              else if str_in_list "#" address
              then url_fail "fragment's not allowed in address"
              else mkVerdict true []
        end
  end.

(** *** AuditSpectrumIntensity

    A spectrum value is a Python float or int: a finite number, which
    is a rational, or one of the floats [inf], [-inf] and [nan], which
    [float(x)] in the readers makes of the texts "inf", "-inf" and
    "nan". The validator only compares values. *)
Inductive number := Finite (q : Q) | PosInf | NegInf | NaN.

Definition Qltb (x y : Q) : bool := negb (Qle_bool y x).

(** [x < y], and [y > x]: false whenever NaN is involved. *)
Definition number_ltb (x y : number) : bool :=
  match x, y with
  | NaN, _ | _, NaN => false
  | Finite a, Finite b => Qltb a b
  | NegInf, NegInf => false
  | NegInf, _ => true
  | _, NegInf => false
  | PosInf, _ => false
  | Finite _, PosInf => true
  end.

(** [x != y]: true whenever NaN is involved. *)
Definition number_neb (x y : number) : bool :=
  match x, y with
  | Finite a, Finite b => negb (Qeq_bool a b)
  | PosInf, PosInf | NegInf, NegInf => false
  | _, _ => true
  end.

(** The variables of the scan over the intensity points. *)
Record intensity_scan := mkScan {
  valid_value_min : bool;
  valid_value_max : bool;
  max_intensity_value : number;
  min_intensity_value : number
}.

(** One round of [for point in data]. *)
Definition intensity_step (st : intensity_scan) (point : number) : intensity_scan :=
  let vmin := if number_ltb point (Finite 0) then false else valid_value_min st in
  let vmax := if number_ltb (Finite 100) point then false else valid_value_max st in
  if number_ltb (max_intensity_value st) point then
    mkScan vmin vmax point (min_intensity_value st)
  else if number_ltb point (min_intensity_value st) then
    mkScan vmin vmax (max_intensity_value st) point
  else mkScan vmin vmax (max_intensity_value st) (min_intensity_value st).

Definition intensity_loop (data : list number) (st : intensity_scan) : intensity_scan :=
  fold_left intensity_step data st.

Section SpectrumIntensity.
(** [f"{value}"] for a spectrum value (Python's number formatting). *)
Variable fmt_number : number -> string.

(** [AuditSpectrumIntensity.audit(data)]; [None] and [[]] are falsy. *)
Definition AuditSpectrumIntensity_audit (data : option (list number)) : Verdict :=
  match data with
  | None | Some [] => mkVerdict false ["missing intensity"]
  | Some ((d0 :: _) as data) =>
      let short := length data <=? 2 in
      let st := intensity_loop data (mkScan true true d0 d0) in
      let max_bad := number_neb (max_intensity_value st) (Finite 100) in
      let min_bad := number_neb (min_intensity_value st) (Finite 0) in
      mkVerdict
        (negb short && valid_value_min st && valid_value_max st
         && negb max_bad && negb min_bad)
        ((if short then ["intensity contains <= 2 data points"] else []) ++
         (if valid_value_min st then [] else ["contains entree <0"]) ++
         (if valid_value_max st then [] else ["contains entree >100"]) ++
         (if max_bad
          then ["maximum intensity value is " +:+ fmt_number (max_intensity_value st)
                +:+ ", should be 100"] else []) ++
         (if min_bad
          then ["minimum intensity value is " +:+ fmt_number (min_intensity_value st)
                +:+ ", should be 0"] else []))
  end.
End SpectrumIntensity.

(** *** AuditReference *)

(** [AbstractReference]: every scalar field is [None] or a string. *)
Record Reference := mkReference {
  r_url : option string;
  r_title : option string;
  r_authors : list string;
  r_year : option string;
  r_journal : option string;
  r_volume : option string;
  r_issue : option string;
  r_pages : option string;
  r_doi : option string;
  r_url_pubmed : option string;
  r_url_doi : option string
}.

(** [AbstractReference.__bool__] *)
Definition Reference_bool (r : Reference) : bool :=
  if truthy (r_url r) then true
  else if truthy (r_title r) then true
  else if negb (length (r_authors r) =? 0) then true
  else if truthy (r_year r) then true
  else if truthy (r_journal r) then true
  else if truthy (r_volume r) then true
  else if truthy (r_issue r) then true
  else if truthy (r_pages r) then true
  else if truthy (r_doi r) then true
  else if truthy (r_url_pubmed r) then true
  else if truthy (r_url_doi r) then true
  else false.

(** The [.errors] attribute of an [AuditReference] is a list, except
    after a missing reference, when the code stores a plain string. *)
Inductive ref_errors := ErrList (l : list string) | ErrText (s : string).

(** [AuditAuthors]: its own verdict and the [(valid, errors)] of each
    author in [.audits]. *)
Record AuthorsAudit := mkAuthorsAudit {
  authors_verdict : Verdict;
  authors_audits : list Verdict
}.

(** The attributes of an [AuditReference] object. *)
Record AuditReference := mkAuditReference {
  ar_valid : bool;
  ar_errors : ref_errors;
  ar_is_url : bool;
  ar_url : Verdict;
  ar_title : Verdict;
  ar_authors : AuthorsAudit;
  ar_year : Verdict;
  ar_journal : Verdict;
  ar_volume : Verdict;
  ar_issue : Verdict;
  ar_pages : Verdict;
  ar_doi : Verdict;
  ar_url_pubmed : Verdict;
  ar_url_doi : Verdict
}.

(** [AuditReference.__init__()] before any audit. *)
Definition AuditReference_init : AuditReference :=
  mkAuditReference false (ErrList ["unchecked"]) false
    unchecked unchecked (mkAuthorsAudit unchecked [])
    unchecked unchecked unchecked unchecked unchecked unchecked unchecked unchecked.

(** [[f"{key}:{error}" for error in audit.errors]] when [audit] is invalid. *)
Definition prefixed (key : string) (v : Verdict) : list string :=
  if valid v then [] else List.map (fun error => key +:+ ":" +:+ error) (errors v).

Fixpoint prefixed_authors (i : nat) (l : list Verdict) : list string :=
  match l with
  | [] => []
  | author :: rest =>
      prefixed ("author[" +:+ fmt_int i +:+ "]") author ++ prefixed_authors (S i) rest
  end.

Section Reference.
(** The bibliographic field validators, each a method that rewrites
    the validator object it is called on. *)
Variable AuditTitle_audit AuditYear_audit AuditJournal_audit AuditVolume_audit
         AuditIssue_audit AuditPages_audit AuditDOI_audit AuditUrlPubmed_audit
         AuditUrlDOI_audit : Verdict -> option string -> Verdict.
Variable AuditAuthors_audit : AuthorsAudit -> list string -> AuthorsAudit.
Variable AuditUrlDOI_audit_doi : Verdict -> option string -> option string -> Verdict.

(** [AuditReference.audit(data)]: the attributes of [self] afterwards. *)
Definition AuditReference_audit (self : AuditReference) (data : option Reference)
  : AuditReference :=
  match data with
  | None =>
      mkAuditReference false (ErrText "missing reference") (ar_is_url self)
        (ar_url self) (ar_title self) (ar_authors self) (ar_year self)
        (ar_journal self) (ar_volume self) (ar_issue self) (ar_pages self)
        (ar_doi self) (ar_url_pubmed self) (ar_url_doi self)
  | Some data =>
      if negb (Reference_bool data) then
        mkAuditReference false (ErrText "missing reference") (ar_is_url self)
          (ar_url self) (ar_title self) (ar_authors self) (ar_year self)
          (ar_journal self) (ar_volume self) (ar_issue self) (ar_pages self)
          (ar_doi self) (ar_url_pubmed self) (ar_url_doi self)
      else if truthy (r_url data) then
        (* self.is_url = True; self.url.audit(data.url); return *)
        mkAuditReference (ar_valid self) (ar_errors self) true
          (AuditUrl_audit (r_url data)) (ar_title self) (ar_authors self)
          (ar_year self) (ar_journal self) (ar_volume self) (ar_issue self)
          (ar_pages self) (ar_doi self) (ar_url_pubmed self) (ar_url_doi self)
      else
        let is_url := false in
        let title := AuditTitle_audit (ar_title self) (r_title data) in
        let authors := AuditAuthors_audit (ar_authors self) (r_authors data) in
        let year := AuditYear_audit (ar_year self) (r_year data) in
        let journal := AuditJournal_audit (ar_journal self) (r_journal data) in
        let volume := AuditVolume_audit (ar_volume self) (r_volume data) in
        let issue := AuditIssue_audit (ar_issue self) (r_issue data) in
        let pages := AuditPages_audit (ar_pages self) (r_pages data) in
        let doi := AuditDOI_audit (ar_doi self) (r_doi data) in
        let url_pubmed := AuditUrlPubmed_audit (ar_url_pubmed self) (r_url_pubmed data) in
        let url_doi :=
          AuditUrlDOI_audit_doi
            (AuditUrlDOI_audit (ar_url_doi self) (r_url_doi data))
            (r_url_doi data) (r_doi data) in
        let errors :=
          if is_url then prefixed "url" (ar_url self)
          else
            prefixed "title" title ++
            prefixed_authors 0 (authors_audits authors) ++
            prefixed "year" year ++
            prefixed "journal" journal ++
            prefixed "volume" volume ++
            prefixed "issue" issue ++
            prefixed "pages" pages ++
            prefixed "doi" doi ++
            prefixed "url_doi" url_doi ++
            prefixed "url_pubmed" url_pubmed in
        let valid :=
          if is_url then valid (ar_url self)
          else
            valid title && forallb Auditor.valid (authors_audits authors)
            && valid year && valid journal && valid volume && valid issue
            && valid pages && valid doi && valid url_doi && valid url_pubmed in
        mkAuditReference valid (ErrList (if valid then [] else errors)) is_url
          (ar_url self) title authors year journal volume issue pages doi
          url_pubmed url_doi
  end.

(** [AuditReference(data)]: construct, then audit when [data] is truthy. *)
Definition AuditReference_new (data : option Reference) : AuditReference :=
  match data with
  | None => AuditReference_init
  | Some r =>
      if Reference_bool r then AuditReference_audit AuditReference_init data
      else AuditReference_init
  end.
End Reference.

(** *** reset() *)

(** The names bound at module level of auditor.py: the imports and the
    class statements, and the names every module has. *)
Definition module_globals : list string :=
  [ "__name__"; "__doc__"; "__package__"; "__loader__"; "__spec__"; "__file__";
    "__cached__"; "__builtins__";
    "annotations"; "List"; "Union"; "Tuple"; "Data"; "Reference";
    "Auditor"; "AbstractAudit"; "AbstractAuditList"; "AuditHeader"; "AuditNames";
    "AuditName"; "AuditEnable"; "AuditSource"; "AuditCategories"; "AuditUrl";
    "AuditAuthor"; "AuditAuthors"; "AuditTitle"; "AuditYear"; "AuditJournal";
    "AuditVolume"; "AuditIssue"; "AuditPages"; "AuditDOI"; "AuditUrlPubmed";
    "AuditUrlDOI"; "AuditReferences"; "AuditReference";
    "AuditExtinctionCoefficient"; "AuditQuantumYield"; "AuditCrossSection";
    "AuditBrightness"; "AuditBrightnessBin"; "AuditSpectrumWavelength";
    "AuditSpectrumIntensity"; "AuditSpectrum" ].

(** The names of Python's [builtins] module. *)
Definition builtins : list string :=
  [ "abs"; "all"; "any"; "ascii"; "bin"; "bool"; "breakpoint"; "bytearray";
    "bytes"; "callable"; "chr"; "classmethod"; "compile"; "complex"; "delattr";
    "dict"; "dir"; "divmod"; "enumerate"; "eval"; "exec"; "filter"; "float";
    "format"; "frozenset"; "getattr"; "globals"; "hasattr"; "hash"; "help";
    "hex"; "id"; "input"; "int"; "isinstance"; "issubclass"; "iter"; "len";
    "list"; "locals"; "map"; "max"; "memoryview"; "min"; "next"; "object";
    "oct"; "open"; "ord"; "pow"; "print"; "property"; "range"; "repr";
    "reversed"; "round"; "set"; "setattr"; "slice"; "sorted"; "staticmethod";
    "str"; "sum"; "super"; "tuple"; "type"; "vars"; "zip"; "__import__";
    "__build_class__"; "__debug__"; "True"; "False"; "None"; "Ellipsis";
    "NotImplemented"; "copyright"; "credits"; "license"; "exit"; "quit";
    "BaseException"; "Exception"; "ArithmeticError"; "AssertionError";
    "AttributeError"; "BlockingIOError"; "BrokenPipeError"; "BufferError";
    "BytesWarning"; "ChildProcessError"; "ConnectionAbortedError";
    "ConnectionError"; "ConnectionRefusedError"; "ConnectionResetError";
    "DeprecationWarning"; "EOFError"; "EnvironmentError"; "FileExistsError";
    "FileNotFoundError"; "FloatingPointError"; "FutureWarning"; "GeneratorExit";
    "IOError"; "ImportError"; "ImportWarning"; "IndentationError"; "IndexError";
    "InterruptedError"; "IsADirectoryError"; "KeyError"; "KeyboardInterrupt";
    "LookupError"; "MemoryError"; "ModuleNotFoundError"; "NameError";
    "NotADirectoryError"; "NotImplementedError"; "OSError"; "OverflowError";
    "PendingDeprecationWarning"; "PermissionError"; "ProcessLookupError";
    "RecursionError"; "ReferenceError"; "ResourceWarning"; "RuntimeError";
    "RuntimeWarning"; "StopAsyncIteration"; "StopIteration"; "SyntaxError";
    "SyntaxWarning"; "SystemError"; "SystemExit"; "TabError"; "TimeoutError";
    "TypeError"; "UnboundLocalError"; "UnicodeDecodeError"; "UnicodeEncodeError";
    "UnicodeError"; "UnicodeTranslateError"; "UnicodeWarning"; "UserWarning";
    "ValueError"; "Warning"; "ZeroDivisionError" ].

(** Where a name read in a method body of auditor.py is found. *)
Inductive binding := Local | Global | Builtin.

(** Python's scoping rule for a function body: a name the body assigns
    is a local of the call; any other name is looked up among the module
    globals, then the builtins, and is a [NameError] when in neither.
    [assigned] lists the names the body assigns. *)
Definition resolve (assigned : list string) (name : string) : exn + binding :=
  if str_in_list name assigned then inr Local
  else if str_in_list name module_globals then inr Global
  else if str_in_list name builtins then inr Builtin
  else inl (NameError name).

(** The validator classes of auditor.py. *)
Inductive audit_class :=
| C_AbstractAudit | C_AbstractAuditList
| C_AuditHeader | C_AuditNames | C_AuditName | C_AuditEnable | C_AuditSource
| C_AuditCategories | C_AuditUrl | C_AuditAuthor | C_AuditAuthors | C_AuditTitle
| C_AuditYear | C_AuditJournal | C_AuditVolume | C_AuditIssue | C_AuditPages
| C_AuditDOI | C_AuditUrlPubmed | C_AuditUrlDOI | C_AuditReferences
| C_AuditReference | C_AuditExtinctionCoefficient | C_AuditQuantumYield
| C_AuditCrossSection | C_AuditBrightness | C_AuditBrightnessBin
| C_AuditSpectrumWavelength | C_AuditSpectrumIntensity | C_AuditSpectrum.

(** The base class named in each [class] statement. *)
Definition base_class (c : audit_class) : option audit_class :=
  match c with
  | C_AbstractAudit | C_AbstractAuditList => None
  | C_AuditNames | C_AuditAuthors | C_AuditReferences => Some C_AbstractAuditList
  | _ => Some C_AbstractAudit
  end.

(** The classes whose body has a [def reset]. *)
Definition defines_reset (c : audit_class) : bool :=
  match c with
  | C_AbstractAudit | C_AbstractAuditList | C_AuditReference | C_AuditSpectrum => true
  | _ => false
  end.

(** The class whose [reset] runs for an instance of [c]: its own, or
    else the one of its base class. *)
Definition reset_owner (c : audit_class) : option audit_class :=
  if defines_reset c then Some c
  else match base_class c with
       | Some b => if defines_reset b then Some b else None
       | None => None
       end.

(** The validators of one scalar field. *)
Definition scalar_validators : list audit_class :=
  [ C_AuditHeader; C_AuditName; C_AuditEnable; C_AuditSource; C_AuditCategories;
    C_AuditUrl; C_AuditAuthor; C_AuditTitle; C_AuditYear; C_AuditJournal;
    C_AuditVolume; C_AuditIssue; C_AuditPages; C_AuditDOI; C_AuditUrlPubmed;
    C_AuditUrlDOI; C_AuditExtinctionCoefficient; C_AuditQuantumYield;
    C_AuditCrossSection; C_AuditBrightness; C_AuditBrightnessBin;
    C_AuditSpectrumWavelength; C_AuditSpectrumIntensity ].

(** [AbstractAudit.reset]. Its body is
      [valid = False; errors.clear(); errors.append("unchecked")]:
    the assignment binds a local [valid] and leaves [self.valid] as it
    is; [errors] is only read, so it is not a local. The attributes of
    [self] are never touched: were [errors] bound, [clear] and [append]
    would act on that other object. *)
Definition AbstractAudit_reset (self : Verdict) : outcome Verdict :=
  let assigned := ["valid"] in
  match resolve assigned "errors" with
  | inl e => Raised e self
  | inr _ =>
      match resolve assigned "errors" with
      | inl e => Raised e self
      | inr _ => Returned self
      end
  end.

(** An [AbstractAuditList] with the element audits in [.audits]. *)
Record AuditList (A : Type) := mkAuditList {
  l_valid : bool;
  l_errors : list string;
  l_audits : list A
}.
Arguments mkAuditList {A} _ _ _.

(** [AbstractAuditList.reset] *)
Definition AbstractAuditList_reset {A} (self : AuditList A) : outcome (AuditList A) :=
  Returned (mkAuditList false ["unchecked"] []).

(** The attributes of an [AuditSpectrum]. *)
Record AuditSpectrum := mkAuditSpectrum {
  s_valid : bool;
  s_errors : list string;
  s_wavelength_missing : bool;
  s_wavelength : Verdict;
  s_intensity_missing : bool;
  s_intensity : Verdict
}.

Definition set_s_wavelength (v : Verdict) (s : AuditSpectrum) : AuditSpectrum :=
  mkAuditSpectrum (s_valid s) (s_errors s) (s_wavelength_missing s) v
    (s_intensity_missing s) (s_intensity s).
Definition set_s_intensity (v : Verdict) (s : AuditSpectrum) : AuditSpectrum :=
  mkAuditSpectrum (s_valid s) (s_errors s) (s_wavelength_missing s) (s_wavelength s)
    (s_intensity_missing s) v.

(** [AuditSpectrum.reset] *)
Definition AuditSpectrum_reset : AuditSpectrum -> outcome AuditSpectrum :=
  (fun s => Returned (mkAuditSpectrum false ["unchecked"] true (s_wavelength s)
                        (s_intensity_missing s) (s_intensity s))) >>>
  on_attr s_wavelength set_s_wavelength AbstractAudit_reset >>>
  (fun s => Returned (mkAuditSpectrum (s_valid s) (s_errors s)
                        (s_wavelength_missing s) (s_wavelength s) true (s_intensity s))) >>>
  on_attr s_intensity set_s_intensity AbstractAudit_reset.

(** The validators an [Auditor] holds, by attribute. The scalar field
    validators inherit [reset] from [AbstractAudit]; [AuditNames] and
    [AuditReferences] inherit it from [AbstractAuditList]; [AuditSpectrum]
    defines its own. *)
Record Auditor := mkAuditor {
  a_header : Verdict;
  a_enable : Verdict;
  a_source : Verdict;
  a_categories : Verdict;
  a_names : AuditList Verdict;
  a_extinction_coefficient : Verdict;
  a_quantum_yield : Verdict;
  a_cross_section : Verdict;
  a_brightness : Verdict;
  a_brightness_bin : Verdict;
  a_url : Verdict;
  a_references : AuditList AuditReference;
  a_absorption : AuditSpectrum;
  a_excitation : AuditSpectrum;
  a_emission : AuditSpectrum;
  a_two_photon : AuditSpectrum
}.

Definition set_header x a := mkAuditor x (a_enable a) (a_source a) (a_categories a) (a_names a) (a_extinction_coefficient a) (a_quantum_yield a) (a_cross_section a) (a_brightness a) (a_brightness_bin a) (a_url a) (a_references a) (a_absorption a) (a_excitation a) (a_emission a) (a_two_photon a).
Definition set_enable x a := mkAuditor (a_header a) x (a_source a) (a_categories a) (a_names a) (a_extinction_coefficient a) (a_quantum_yield a) (a_cross_section a) (a_brightness a) (a_brightness_bin a) (a_url a) (a_references a) (a_absorption a) (a_excitation a) (a_emission a) (a_two_photon a).
Definition set_source x a := mkAuditor (a_header a) (a_enable a) x (a_categories a) (a_names a) (a_extinction_coefficient a) (a_quantum_yield a) (a_cross_section a) (a_brightness a) (a_brightness_bin a) (a_url a) (a_references a) (a_absorption a) (a_excitation a) (a_emission a) (a_two_photon a).
Definition set_categories x a := mkAuditor (a_header a) (a_enable a) (a_source a) x (a_names a) (a_extinction_coefficient a) (a_quantum_yield a) (a_cross_section a) (a_brightness a) (a_brightness_bin a) (a_url a) (a_references a) (a_absorption a) (a_excitation a) (a_emission a) (a_two_photon a).
Definition set_names x a := mkAuditor (a_header a) (a_enable a) (a_source a) (a_categories a) x (a_extinction_coefficient a) (a_quantum_yield a) (a_cross_section a) (a_brightness a) (a_brightness_bin a) (a_url a) (a_references a) (a_absorption a) (a_excitation a) (a_emission a) (a_two_photon a).
Definition set_extinction_coefficient x a := mkAuditor (a_header a) (a_enable a) (a_source a) (a_categories a) (a_names a) x (a_quantum_yield a) (a_cross_section a) (a_brightness a) (a_brightness_bin a) (a_url a) (a_references a) (a_absorption a) (a_excitation a) (a_emission a) (a_two_photon a).
Definition set_quantum_yield x a := mkAuditor (a_header a) (a_enable a) (a_source a) (a_categories a) (a_names a) (a_extinction_coefficient a) x (a_cross_section a) (a_brightness a) (a_brightness_bin a) (a_url a) (a_references a) (a_absorption a) (a_excitation a) (a_emission a) (a_two_photon a).
Definition set_cross_section x a := mkAuditor (a_header a) (a_enable a) (a_source a) (a_categories a) (a_names a) (a_extinction_coefficient a) (a_quantum_yield a) x (a_brightness a) (a_brightness_bin a) (a_url a) (a_references a) (a_absorption a) (a_excitation a) (a_emission a) (a_two_photon a).
Definition set_brightness x a := mkAuditor (a_header a) (a_enable a) (a_source a) (a_categories a) (a_names a) (a_extinction_coefficient a) (a_quantum_yield a) (a_cross_section a) x (a_brightness_bin a) (a_url a) (a_references a) (a_absorption a) (a_excitation a) (a_emission a) (a_two_photon a).
Definition set_brightness_bin x a := mkAuditor (a_header a) (a_enable a) (a_source a) (a_categories a) (a_names a) (a_extinction_coefficient a) (a_quantum_yield a) (a_cross_section a) (a_brightness a) x (a_url a) (a_references a) (a_absorption a) (a_excitation a) (a_emission a) (a_two_photon a).
Definition set_url x a := mkAuditor (a_header a) (a_enable a) (a_source a) (a_categories a) (a_names a) (a_extinction_coefficient a) (a_quantum_yield a) (a_cross_section a) (a_brightness a) (a_brightness_bin a) x (a_references a) (a_absorption a) (a_excitation a) (a_emission a) (a_two_photon a).
Definition set_references x a := mkAuditor (a_header a) (a_enable a) (a_source a) (a_categories a) (a_names a) (a_extinction_coefficient a) (a_quantum_yield a) (a_cross_section a) (a_brightness a) (a_brightness_bin a) (a_url a) x (a_absorption a) (a_excitation a) (a_emission a) (a_two_photon a).
Definition set_absorption x a := mkAuditor (a_header a) (a_enable a) (a_source a) (a_categories a) (a_names a) (a_extinction_coefficient a) (a_quantum_yield a) (a_cross_section a) (a_brightness a) (a_brightness_bin a) (a_url a) (a_references a) x (a_excitation a) (a_emission a) (a_two_photon a).
Definition set_excitation x a := mkAuditor (a_header a) (a_enable a) (a_source a) (a_categories a) (a_names a) (a_extinction_coefficient a) (a_quantum_yield a) (a_cross_section a) (a_brightness a) (a_brightness_bin a) (a_url a) (a_references a) (a_absorption a) x (a_emission a) (a_two_photon a).
Definition set_emission x a := mkAuditor (a_header a) (a_enable a) (a_source a) (a_categories a) (a_names a) (a_extinction_coefficient a) (a_quantum_yield a) (a_cross_section a) (a_brightness a) (a_brightness_bin a) (a_url a) (a_references a) (a_absorption a) (a_excitation a) x (a_two_photon a).
Definition set_two_photon x a := mkAuditor (a_header a) (a_enable a) (a_source a) (a_categories a) (a_names a) (a_extinction_coefficient a) (a_quantum_yield a) (a_cross_section a) (a_brightness a) (a_brightness_bin a) (a_url a) (a_references a) (a_absorption a) (a_excitation a) (a_emission a) x.

(** [Auditor.reset] *)
Definition Auditor_reset : Auditor -> outcome Auditor :=
  on_attr a_header set_header AbstractAudit_reset >>>
  on_attr a_enable set_enable AbstractAudit_reset >>>
  on_attr a_source set_source AbstractAudit_reset >>>
  on_attr a_categories set_categories AbstractAudit_reset >>>
  on_attr a_names set_names AbstractAuditList_reset >>>
  on_attr a_extinction_coefficient set_extinction_coefficient AbstractAudit_reset >>>
  on_attr a_quantum_yield set_quantum_yield AbstractAudit_reset >>>
  on_attr a_cross_section set_cross_section AbstractAudit_reset >>>
  on_attr a_brightness set_brightness AbstractAudit_reset >>>
  on_attr a_brightness_bin set_brightness_bin AbstractAudit_reset >>>
  on_attr a_url set_url AbstractAudit_reset >>>
  on_attr a_references set_references AbstractAuditList_reset >>>
  on_attr a_absorption set_absorption AuditSpectrum_reset >>>
  on_attr a_excitation set_excitation AuditSpectrum_reset >>>
  on_attr a_emission set_emission AuditSpectrum_reset >>>
  on_attr a_two_photon set_two_photon AuditSpectrum_reset.

(** *** AbstractAuditList

    A list validator holds the validators of its elements in [.audits];
    [T] is the class of the elements, [t_valid] and [t_errors] read
    their [.valid] and the items the loop over their [.errors] yields. *)

Section AuditList.
Variable T : Type.
Variable t_valid : T -> bool.
Variable t_errors : T -> list string.

(** The [errors] list built by [for i, audit in enumerate(self.audits)]. *)
Fixpoint list_errors (i : nat) (audits : list T) : list string :=
  match audits with
  | [] => []
  | audit :: rest =>
      (if t_valid audit then []
       else List.map (fun error => "[" +:+ fmt_int i +:+ "]:" +:+ error)
              (t_errors audit))
      ++ list_errors (S i) rest
  end.

(** [AbstractAuditList.audit_list()] on a validator whose [.audits] is
    [audits]. *)
Definition audit_list (audits : list T) : AuditList T :=
  match audits with
  | [] => mkAuditList false ["missing"] audits
  | _ :: _ =>
      if forallb t_valid audits then mkAuditList true [] audits
      else mkAuditList false (list_errors 0 audits) audits
  end.
End AuditList.

Arguments l_valid {A} _.
Arguments l_errors {A} _.
Arguments l_audits {A} _.

(** *** AuditName *)

Definition letters : string :=
  "abcdefghijklmnopqrstuvwxyzABCDEFGHIJKLMNOPQRSTUVWXYZ".
Definition digits : string := "0123456789".
Definition name_punctuation : string := " .,+-/".

(** The variables of the loop of [AuditName.audit]. *)
Record name_counts := mkNameCounts {
  error_name_char_illegal : nat;
  error_bracket_missing_open : nat;
  error_bracket_double_open : nat;
  bracket_round_open : bool
}.

(** One round of [for letter in data]. *)
Definition name_step (c : name_counts) (letter : ascii) : name_counts :=
  if char_in letter letters then c
  else if char_in letter digits then c
  else if Ascii.eqb letter "(" then
    mkNameCounts (error_name_char_illegal c) (error_bracket_missing_open c)
      (if bracket_round_open c then S (error_bracket_double_open c)
       else error_bracket_double_open c)
      true
  else if Ascii.eqb letter ")" then
    if bracket_round_open c then
      mkNameCounts (error_name_char_illegal c) (error_bracket_missing_open c)
        (error_bracket_double_open c) false
    else
      mkNameCounts (error_name_char_illegal c) (S (error_bracket_missing_open c))
        (error_bracket_double_open c) (bracket_round_open c)
  else if char_in letter name_punctuation then c
  else
    mkNameCounts (S (error_name_char_illegal c)) (error_bracket_missing_open c)
      (error_bracket_double_open c) (bracket_round_open c).

Fixpoint name_loop (c : name_counts) (data : string) : name_counts :=
  match data with
  | EmptyString => c
  | String letter rest => name_loop (name_step c letter) rest
  end.

(** The messages of [AuditName.audit]; the nesting message prints the
    counter of the closing brackets, as the source does. *)
Definition name_errors (error_missing : nat) (c : name_counts)
    (error_bracket_missing_close : nat) : list string :=
  (if 0 <? error_missing then ["illegal missing name"] else []) ++
  (if 0 <? error_name_char_illegal c
   then [fmt_int (error_name_char_illegal c) +:+ " illegal character"] else []) ++
  (if 0 <? error_bracket_missing_open c
   then [fmt_int (error_bracket_missing_open c)
         +:+ " illegal closing of round brackets"] else []) ++
  (if 0 <? error_bracket_missing_close
   then [fmt_int error_bracket_missing_close
         +:+ " illegal opening of round brackets"] else []) ++
  (if 0 <? error_bracket_double_open c
   then [fmt_int (error_bracket_missing_open c)
         +:+ " illegal nesting of round brackets"] else []).

(** [AuditName.audit(data)] *)
Definition AuditName_audit (data : option string) : Verdict :=
  let zero := mkNameCounts 0 0 0 false in
  if negb (truthy data) then verdict_of_errors (name_errors 1 zero 0)
  else
    let c := name_loop zero (default EmptyString data) in
    verdict_of_errors
      (name_errors 0 c (if bracket_round_open c then 1 else 0)).

(** [AuditName(data)]: construct, then audit when [data] is truthy. *)
Definition AuditName_new (data : option string) : Verdict :=
  if truthy data then AuditName_audit data else unchecked.

(** [AuditNames.audit(data)] *)
Definition AuditNames_audit (data : option (list string))
  : AuditList Verdict :=
  audit_list Verdict valid errors
    (List.map (fun item => AuditName_new (Some item)) (default [] data)).

(** *** AuditAuthor *)

Definition upper_letters : string := "ABCDEFGHIJKLMNOPQRSTUVWXYZ".

(** [.valid] and [.errors] of an [AuditAuthor]; [.errors] is a plain
    string after a missing author and after "et al". *)
Record AuthorVerdict := mkAuthorVerdict {
  au_valid : bool;
  au_errors : ref_errors
}.

(** The messages for the last part of the name, [for letter in part]. *)
Fixpoint initials_errors (part : string) : list string :=
  match part with
  | EmptyString => []
  | String letter rest =>
      (if char_in letter ".," then ["initials must have no seperator"]
       else if char_in letter lower_letters then ["initials must be uppercase"]
       else if negb (char_in letter "ABCDEFGHIJKLMNOPQRSTUVWXYZ-")
       then ["invalid character in initials"]
       else [])
      ++ initials_errors rest
  end.

(** The messages for the part before the initials. *)
Fixpoint family_errors (capital_expected : bool) (part : string) : list string :=
  match part with
  | EmptyString => []
  | String letter rest =>
      if capital_expected then
        (if negb (char_in letter upper_letters)
         then ["family name must start with capital"] else [])
        ++ family_errors false rest
      else if Ascii.eqb letter "-" then family_errors true rest
      else
        (if negb (char_in letter lower_letters)
         then ["invalid character in family name"] else [])
        ++ family_errors false rest
  end.

Definition connecting_words : list string :=
  ["de"; "van"; "der"; "De"; "Van"; "Der"].

(** [for i, part in enumerate(reversed(parts))], from index [i] on. *)
Fixpoint author_errors (i : nat) (parts : list string) : list string :=
  match parts with
  | [] => []
  | part :: rest =>
      match i with
      | 0 => initials_errors part
      | 1 => family_errors true part
      | _ => if negb (str_in_list part connecting_words)
             then ["unknown family name connecting word"] else []
      end ++ author_errors (S i) rest
  end.

(** [AuditAuthor.audit(data)]: [valid] turns false exactly when a
    message is appended. *)
Definition AuditAuthor_audit (data : option string) : AuthorVerdict :=
  if negb (truthy data) then mkAuthorVerdict false (ErrText "missing author")
  else
    let name := default EmptyString data in
    if String.eqb name "et al" then mkAuthorVerdict true (ErrText EmptyString)
    else
      let parts := split " " name in
      let errors := author_errors 0 (List.rev parts) in
      mkAuthorVerdict (match errors with [] => true | _ :: _ => false end)
        (ErrList errors).

(** *** AuditDOI *)

(** [AuditDOI.audit(data)] *)
Definition AuditDOI_audit (data : option string) : Verdict :=
  if negb (truthy data) then mkVerdict false ["missing doi"]
  else
    let doi := split "/" (default EmptyString data) in
    let shape := length doi =? 2 in
    let prefix := split "." (List.hd EmptyString doi) in
    let namespace := negb (length prefix <? 2) in
    mkVerdict (shape && namespace)
      ((if shape then [] else ["missing prefix/postfix"]) ++
       (if namespace then [] else ["missing prefix namespace"])).

(** *** AuditUrlPubmed and AuditUrlDOI *)

(** [AuditUrlPubmed.audit(data)] *)
Definition AuditUrlPubmed_audit (data : option string) : Verdict :=
  if negb (truthy data) then mkVerdict false ["missing pubmed url"]
  else
    let url := default EmptyString data in
    let prefix :=
      String.eqb (slice_to 36 url) "https://www.ncbi.nlm.nih.gov/pubmed/" in
    let audit := AuditUrl_audit data in
    mkVerdict (prefix && valid audit)
      ((if prefix then [] else ["incorrect pubmed url"]) ++
       (if valid audit then [] else errors audit)).

(** [AuditUrlDOI.audit(data)] *)
Definition AuditUrlDOI_audit (data : option string) : Verdict :=
  if negb (truthy data) then mkVerdict false ["missing doi url"]
  else
    let url := default EmptyString data in
    let prefix := String.eqb (slice_to 16 url) "https://doi.org/" in
    let audit := AuditUrl_audit data in
    mkVerdict (prefix && valid audit)
      ((if prefix then [] else ["incorrect doi url"]) ++
       (if valid audit then [] else errors audit)).

(** [AuditUrlDOI.audit_doi(data, doi)] on the validator [self]. *)
Definition AuditUrlDOI_audit_doi (self : Verdict) (data doi : option string)
  : Verdict :=
  if negb (truthy data) && negb (truthy doi) then self
  else if negb (truthy data)
  then mkVerdict false (errors self ++ ["known doi, unknown url"])
  else if negb (truthy doi)
  then mkVerdict false (errors self ++ ["known url, unknown doi"])
  else if negb (String.eqb (slice_from 16 (default EmptyString data))
                  (default EmptyString doi))
  then mkVerdict false (errors self ++ ["doi unequal between doi and url"])
  else self.

(** *** AuditReferences *)

(** The items of [for error in audit.errors]: the elements of a list,
    the characters of a plain string. *)
Definition error_items (e : ref_errors) : list string :=
  match e with
  | ErrList l => l
  | ErrText s => List.map (fun c => String c EmptyString) (list_ascii_of_string s)
  end.

Section References.
(** The bibliographic field validators that are not modelled above. *)
Variable AuditTitle_audit AuditYear_audit AuditJournal_audit AuditVolume_audit
         AuditIssue_audit AuditPages_audit : Verdict -> option string -> Verdict.
Variable AuditAuthors_audit : AuthorsAudit -> list string -> AuthorsAudit.

(** [AuditReference(ref)] with the validators of this file. *)
Definition AuditReference_of (ref : Reference) : AuditReference :=
  AuditReference_new AuditTitle_audit AuditYear_audit AuditJournal_audit
    AuditVolume_audit AuditIssue_audit AuditPages_audit
    (fun _ => AuditDOI_audit) (fun _ => AuditUrlPubmed_audit)
    (fun _ => AuditUrlDOI_audit) AuditAuthors_audit AuditUrlDOI_audit_doi
    (Some ref).

(** [AuditReferences.audit(data)] *)
Definition AuditReferences_audit (data : option (list Reference))
  : AuditList AuditReference :=
  audit_list AuditReference ar_valid (fun audit => error_items (ar_errors audit))
    (List.map AuditReference_of (default [] data)).
End References.

End Auditor.

(** ** tools/mapper.py *)
Module Mapper.
Import Py.

(** [class Source(Enum)] of tools/__init__.py. *)
Module Source.
Inductive t :=
| none | source | bd | biolegend | biotium | chroma | fluorofinder | fpbase
| thermofisher.

#[global] Instance eq_dec : EqDecision t.
Proof. solve_decision. Defined.
End Source.

(** [class Identifier]; [identifier] and [note] may be [None]. *)
Record Identifier := mkIdentifier {
  id_source : Source.t;
  identifier : option string;
  note : option string
}.

(** [Identifier.__eq__]: the note takes no part. *)
Definition Identifier_eq (self other : Identifier) : bool :=
  if negb (bool_decide (id_source self = id_source other)) then false
  else if negb (bool_decide (identifier self = identifier other)) then false
  else true.

(** [class Header] *)
Record Header := mkHeader {
  h_valid : bool;
  h_header : string;
  h_source : option Identifier;
  names : list string;
  identifiers : list Identifier
}.

(** [Header(header)] *)
Definition Header_new (header : string) : Header := mkHeader true header None [] [].

Definition set_identifiers (ids : list Identifier) (h : Header) : Header :=
  mkHeader (h_valid h) (h_header h) (h_source h) (names h) ids.
Definition set_h_source (src : option Identifier) (h : Header) : Header :=
  mkHeader (h_valid h) (h_header h) src (names h) (identifiers h).

(** [Dict[str, Header]]: the entries in insertion order, which is the
    order Python iterates a dict in. *)
Definition dict := list (string * Header).

(** Keys of a dict are pairwise distinct. *)
Definition dict_wf (d : dict) : Prop := NoDup (List.map fst d).

Fixpoint dict_get (key : string) (d : dict) : option Header :=
  match d with
  | [] => None
  | (k, h) :: rest => if String.eqb key k then Some h else dict_get key rest
  end.

(** Rewrite the value stored under an existing key, in place. *)
Fixpoint dict_alter (f : Header -> Header) (key : string) (d : dict) : dict :=
  match d with
  | [] => []
  | (k, h) :: rest =>
      if String.eqb key k then (k, f h) :: rest else (k, h) :: dict_alter f key rest
  end.

(** [del d[key]] for an existing key. *)
Fixpoint dict_del (key : string) (d : dict) : dict :=
  match d with
  | [] => []
  | (k, h) :: rest => if String.eqb key k then rest else (k, h) :: dict_del key rest
  end.

(** [class Map]; [m_source] is [None] after [append] wiped it. *)
Record Map := mkMap {
  m_map : dict;
  m_source : option Source.t;
  m_unresolved : list Identifier;
  m_dangled : list Identifier
}.

(** [Map()] *)
Definition Map_init : Map := mkMap [] (Some Source.none) [] [].

Definition set_m_map (d : dict) (self : Map) : Map :=
  mkMap d (m_source self) (m_unresolved self) (m_dangled self).

(** [class AbstractID] of tools/abstract.py, as far as [append] reads it. *)
Record AbstractID := mkAbstractID {
  aid_source : Source.t;
  _identifier : option string
}.

(** The property [AbstractID.identifier]. *)
Definition AbstractID_identifier (self : AbstractID) : exn + string :=
  match _identifier self with
  | Some s => if String.eqb s EmptyString then inl (AttributeError "Missing identifier")
              else inr s
  | None => inl (AttributeError "Missing identifier")
  end.

(** A fluorophore record of a Reader, as far as [append] reads it. *)
Record Data := mkData {
  data_id : AbstractID;
  d_names : list string
}.

(** A Reader is iterated in the order of its collection; the model is the
    list of its records in that order. *)
Definition Reader := list Data.

(** A Python [set] of Identifiers: no two elements are [==]. The order
    of the list stands for the iteration order, which Python leaves
    unspecified; the theorems speak of membership only. *)
Definition set_contains (x : Identifier) (s : list Identifier) : bool :=
  existsb (Identifier_eq x) s.

Definition set_add (x : Identifier) (s : list Identifier) : list Identifier :=
  if set_contains x s then s else s ++ [x].

(** [a - b] *)
Definition set_difference (a b : list Identifier) : list Identifier :=
  List.filter (fun x => negb (set_contains x b)) a.

Section Lowering.
Context {Lw : Lower}.

(** [name_to_header], filled by
    [for header in self.map: for name in names: d[name.lower()] = header]. *)
Definition add_names (header : string) (nms : list string) (acc : gmap string string)
  : gmap string string :=
  fold_left (fun acc name => <[lower name := header]> acc) nms acc.

Definition build_name_to_header (d : dict) : gmap string string :=
  fold_left (fun acc kh => add_names (fst kh) (names (snd kh)) acc) d ∅.

(** [map_identifiers], filled in the same loop with the identifiers of
    [source]. *)
Definition add_identifiers (source : Source.t) (ids : list Identifier)
    (acc : list Identifier) : list Identifier :=
  fold_left (fun acc identifier =>
               if bool_decide (id_source identifier = source)
               then set_add identifier acc else acc) ids acc.

Definition build_map_identifiers (source : Source.t) (d : dict) : list Identifier :=
  fold_left (fun acc kh => add_identifiers source (identifiers (snd kh)) acc) d [].

(** [for name in item.names]: the header of the first name that is a key
    of [name_to_header]. *)
Fixpoint first_match (name_to_header : gmap string string) (nms : list string)
  : option string :=
  match nms with
  | [] => None
  | name :: rest =>
      match name_to_header !! lower name with
      | Some header => Some header
      | None => first_match name_to_header rest
      end
  end.

(** [Map.append_to]: [self.map[header].identifiers.append(identifier)]. *)
Definition Map_append_to (header : string) (identifier : Identifier) (self : Map)
  : outcome Map :=
  match dict_get header (m_map self) with
  | None => Raised (KeyError header) self
  | Some _ =>
      Returned (set_m_map
                  (dict_alter (fun h => set_identifiers (identifiers h ++ [identifier]) h)
                     header (m_map self)) self)
  end.

(** [Map.new] *)
Definition Map_new (header : string) (identifier : Identifier) (valid : bool)
    (self : Map) : outcome Map :=
  match dict_get header (m_map self) with
  | Some _ => Raised (KeyError "header key already exists") self
  | None =>
      Returned (set_m_map
                  (m_map self ++ [(header, mkHeader valid header None [] [identifier])])
                  self)
  end.

(** The variables the resolving loop of [append] updates: [self] and the
    local set [data_identifiers]. *)
Definition loop_vars : Type := Map * list Identifier.

(** One round of [for item in data] in [Map.append]. *)
Definition append_item (name_to_header : gmap string string)
    (map_identifiers : list Identifier) (source : Source.t) (item : Data)
    (vars : loop_vars) : outcome loop_vars :=
  let '(self, data_identifiers) := vars in
  if negb (bool_decide (aid_source (data_id item) = source)) then
    Raised (ValueError "all data's spectra must be of identical source") vars
  else
    match AbstractID_identifier (data_id item) with
    | inl e => Raised e vars
    | inr s =>
        let identifier := mkIdentifier source (Some s) None in
        let data_identifiers := set_add identifier data_identifiers in
        if set_contains identifier map_identifiers then
          Returned (self, data_identifiers)
        else
          match first_match name_to_header (d_names item) with
          | Some header =>
              match Map_append_to header identifier self with
              | Returned self' => Returned (self', data_identifiers)
              | Raised e self' => Raised e (self', data_identifiers)
              end
          | None =>
              Returned (mkMap (m_map self) (m_source self)
                          (m_unresolved self ++ [identifier]) (m_dangled self),
                        data_identifiers)
          end
    end.

Fixpoint append_loop (name_to_header : gmap string string)
    (map_identifiers : list Identifier) (source : Source.t) (data : Reader)
    (vars : loop_vars) : outcome loop_vars :=
  match data with
  | [] => Returned vars
  | item :: rest =>
      and_then (append_item name_to_header map_identifiers source item vars)
               (append_loop name_to_header map_identifiers source rest)
  end.

(** [Map.append(data)]; [data] is [None] or a Reader. *)
Definition Map_append (data : option Reader) (self : Map) : outcome Map :=
  let self := mkMap (m_map self) None [] [] in
  match data with
  | None | Some [] => Returned self
  | Some ((d0 :: _) as data) =>
      let source := aid_source (data_id d0) in
      if bool_decide (source = Source.none) then
        Raised (ValueError "no spectra source specified") self
      else
        let self := mkMap (m_map self) (Some source) (m_unresolved self) (m_dangled self) in
        let name_to_header := build_name_to_header (m_map self) in
        let map_identifiers := build_map_identifiers source (m_map self) in
        match append_loop name_to_header map_identifiers source data (self, []) with
        | Raised e (self, _) => Raised e self
        | Returned (self, data_identifiers) =>
            let dangling := set_difference map_identifiers data_identifiers in
            Returned (mkMap (m_map self) (m_source self) (m_unresolved self)
                        (m_dangled self ++ dangling))
        end
  end.

(** The loop of [Map.delete]:
    [for i in range(len(ids), 0, -1): if ids[i-1] == identifier: del ids[i-1]]. *)
Fixpoint delete_loop (ident : Identifier) (i : nat) (ids : list Identifier)
    (is_modified : bool) : exn + (list Identifier * bool) :=
  match i with
  | O => inr (ids, is_modified)
  | S j =>
      match ids !! j with
      | None => inl (IndexError "list index out of range")
      | Some x =>
          if Identifier_eq x ident then delete_loop ident j (delete j ids) true
          else delete_loop ident j ids is_modified
      end
  end.

(** [Map.delete(header, identifier)] *)
Definition Map_delete (header : string) (ident : Identifier) (self : Map)
  : outcome Map :=
  match dict_get header (m_map self) with
  | None => Raised (KeyError header) self
  | Some h =>
      match delete_loop ident (length (identifiers h)) (identifiers h) false with
      | inl e => Raised e self
      | inr (ids, is_modified) =>
          let h := set_identifiers ids h in
          if negb is_modified then
            Returned (set_m_map (dict_alter (fun _ => h) header (m_map self)) self)
          else
            let h :=
              match h_source h with
              | Some src => if Identifier_eq src ident then set_h_source None h else h
              | None => h
              end in
            if length (identifiers h) =? 0 then
              Returned (set_m_map (dict_del header (m_map self)) self)
            else
              Returned (set_m_map (dict_alter (fun _ => h) header (m_map self)) self)
      end
  end.

(** [Map.delete_identifier]:
    [for header in list(self.map): self.delete(header, identifier)]. *)
Fixpoint delete_in (headers : list string) (ident : Identifier) (self : Map)
  : outcome Map :=
  match headers with
  | [] => Returned self
  | header :: rest => and_then (Map_delete header ident self) (delete_in rest ident)
  end.

Definition Map_delete_identifier (ident : Identifier) (self : Map) : outcome Map :=
  delete_in (List.map fst (m_map self)) ident self.

(** [d[key] = value]: replace the value of a key in place, add a new key
    at the end. *)
Fixpoint dict_set (key : string) (v : Header) (d : dict) : dict :=
  match d with
  | [] => [(key, v)]
  | (k, h) :: rest =>
      if String.eqb key k then (k, v) :: rest else (k, h) :: dict_set key v rest
  end.

(** [keys.sort(key=lambda key: key[0])] on a list of [(key.lower(), key)]
    pairs. [list.sort] is stable and compares the keys with [<] only;
    the stable arrangement of a list is unique, and inserting each
    element, from the last to the first, ahead of the first element that
    is not smaller computes it. *)
Fixpoint insert_by_key (x : string * string) (l : list (string * string))
  : list (string * string) :=
  match l with
  | [] => [x]
  | y :: rest =>
      if String.ltb (fst y) (fst x) then y :: insert_by_key x rest else x :: l
  end.

Definition sort_by_key (l : list (string * string)) : list (string * string) :=
  fold_right insert_by_key [] l.

(** [for key in keys: new_map[key[1]] = self.map[key[1]]] *)
Fixpoint sort_fill (d : dict) (keys : list (string * string)) (new_map : dict)
  : exn + dict :=
  match keys with
  | [] => inr new_map
  | key :: rest =>
      match dict_get (snd key) d with
      | None => inl (KeyError (snd key))
      | Some h => sort_fill d rest (dict_set (snd key) h new_map)
      end
  end.

(** [Map.sort] *)
Definition Map_sort (self : Map) : outcome Map :=
  let keys := List.map fst (m_map self) in
  let keys := List.map (fun key => (lower key, key)) keys in
  let keys := sort_by_key keys in
  match sort_fill (m_map self) keys [] with
  | inl e => Raised e self
  | inr new_map => Returned (set_m_map new_map self)
  end.

(** [repr(source)]: the name of the enumeration member. *)
Definition Source_repr (s : Source.t) : string :=
  match s with
  | Source.none => "none"
  | Source.source => "source"
  | Source.bd => "bd"
  | Source.biolegend => "biolegend"
  | Source.biotium => "biotium"
  | Source.chroma => "chroma"
  | Source.fluorofinder => "fluorofinder"
  | Source.fpbase => "fpbase"
  | Source.thermofisher => "thermofisher"
  end.

(** [str(self.identifier)], also [f"{self.identifier}"]. *)
Definition identifier_str (i : Identifier) : string :=
  match identifier i with
  | None => "None"
  | Some s => s
  end.

(** [Identifier.__repr__] *)
Definition Identifier_repr (self : Identifier) : string :=
  Source_repr (id_source self) +:+ ":" +:+ identifier_str self.

(** The string [Identifier.__hash__] hashes. *)
Definition Identifier_hash_input (self : Identifier) : string :=
  Source_repr (id_source self) +:+ identifier_str self.

(** [Identifier.valid] *)
Definition Identifier_valid (self : Identifier) : bool :=
  if bool_decide (id_source self = Source.none) then false
  else match identifier self with
       | None => false
       | Some _ => true
       end.

End Lowering.

End Mapper.

(** ** tools/abstract.py: the collection a Reader is *)
Module Abstract.
Import Py.

Section Collection.
(** The type of the entries: [AbstractID] or [AbstractData]. *)
Variable A : Type.

(** [self.collection], a [Dict[str, A]], as its entries in insertion
    order. *)
Definition collection : Type := list (string * A).

Fixpoint coll_get (key : string) (c : collection) : option A :=
  match c with
  | [] => None
  | (k, v) :: rest => if String.eqb key k then Some v else coll_get key rest
  end.

Fixpoint coll_del (key : string) (c : collection) : collection :=
  match c with
  | [] => []
  | (k, v) :: rest => if String.eqb key k then rest else (k, v) :: coll_del key rest
  end.

(** A key the collection methods accept: an [int] or a [str]. *)
Inductive key := IntKey (i : Z) | StrKey (s : string).

(** [list(self.collection.keys())] *)
Definition keys (self : collection) : list string := List.map fst self.

(** What iterating the collection yields: [__iter__] takes the list of
    keys, [__next__] returns [self.collection[key]] for each in turn. *)
Definition AbstractCollection_iter (self : collection) : list A := List.map snd self.

(** [AbstractCollection.__len__] *)
Definition AbstractCollection_len (self : collection) : Z := Z.of_nat (length self).

(** [AbstractCollection.__getitem__] *)
Definition AbstractCollection_getitem (self : collection) (key : key) : exn + A :=
  match key with
  | IntKey key =>
      let key := if (key <? 0)%Z then (AbstractCollection_len self + key)%Z else key in
      if (key <? 0)%Z || (AbstractCollection_len self <=? key)%Z then
        inl (IndexError "collection index out of range")
      else
        match keys self !! Z.to_nat key with
        | None => inl (IndexError "list index out of range")
        | Some key =>
            match coll_get key self with
            | Some v => inr v
            | None => inl (KeyError key)
            end
        end
  | StrKey key =>
      match coll_get key self with
      | Some v => inr v
      | None => inl (KeyError key)
      end
  end.

(** [AbstractCollection.__delitem__] *)
Definition AbstractCollection_delitem (self : collection) (key : key)
  : outcome collection :=
  match key with
  | IntKey key =>
      let key := if (key <? 0)%Z then (AbstractCollection_len self - key)%Z else key in
      if (key <? 0)%Z || (AbstractCollection_len self <=? key)%Z then
        Raised (IndexError "collection index out of range") self
      else
        match keys self !! Z.to_nat key with
        | None => Raised (IndexError "list index out of range") self
        | Some key =>
            match coll_get key self with
            | Some _ => Returned (coll_del key self)
            | None => Raised (KeyError key) self
            end
        end
  | StrKey key =>
      match coll_get key self with
      | Some _ => Returned (coll_del key self)
      | None => Raised (KeyError key) self
      end
  end.
End Collection.

End Abstract.

(** * Vocabulary of the specification *)
Import Py Auditor Mapper.

(** ** Validators *)

Fixpoint all_chars (p : ascii -> bool) (s : string) : bool :=
  match s with
  | EmptyString => true
  | String c t => p c && all_chars p t
  end.

Definition url_reference : Reference :=
  mkReference (Some "https://www.example.com/page") None [] None None None None None
    None None None.

(** [m] is the largest value of [l]. *)
Definition is_maximum (l : list Q) (m : Q) : Prop :=
  (exists x, In x l /\ (x == m)%Q) /\ forall y, In y l -> (y <= m)%Q.

(** [m] is the smallest value of [l]. *)
Definition is_minimum (l : list Q) (m : Q) : Prop :=
  (exists x, In x l /\ (x == m)%Q) /\ forall y, In y l -> (m <= y)%Q.

(** The finite values of a list of numbers, in order. *)
Definition finite_values (l : list number) : list Q :=
  flat_map (fun x => match x with Finite q => [q] | _ => [] end) l.

(** [x] is a number of the interval [0,100]. *)
Definition in_range (x : number) : Prop :=
  exists q, x = Finite q /\ (0 <= q)%Q /\ (q <= 100)%Q.

(** ** Identifier map *)

Section MapVocabulary.
Context {Lw : Lower}.

(** What [Identifier.__eq__] compares. *)
Definition ident_key (i : Identifier) : Source.t * option string :=
  (id_source i, identifier i).

(** Number of elements of [l] that are [==] to [x]. *)
Definition count_eq (x : Identifier) (l : list Identifier) : nat :=
  length (List.filter (Identifier_eq x) l).

(** Append [i] to the identifiers of the header stored under [header]. *)
Definition link_to (header : string) (i : Identifier) (d : dict) : dict :=
  dict_alter (fun h => set_identifiers (identifiers h ++ [i]) h) header d.

(** Every identifier of the map, in the order the dict is iterated. *)
Definition all_ids (d : dict) : list Identifier :=
  concat (List.map (fun kh => identifiers (snd kh)) d).

(** How often an identifier [==] to [x] occurs in the Headers of the map. *)
Definition occurrences (x : Identifier) (d : dict) : nat := count_eq x (all_ids d).

(** Every header a name maps to is a key of the dict. *)
Definition n2h_closed (n2h : gmap string string) (d : dict) : Prop :=
  forall nm hd, n2h !! nm = Some hd -> In hd (List.map fst d).

(** The test an identifier of the map passes to count as [x] in
    [map_identifiers]: it is of the batch's source and [==] to [x]. *)
Definition same_in_source (src : Source.t) (x i : Identifier) : bool :=
  bool_decide (id_source i = src) && Identifier_eq x i.

(** The Identifier [append] constructs for a record. *)
Definition ident_of (src : Source.t) (item : Data) : Identifier :=
  mkIdentifier src (_identifier (data_id item)) None.

(** A record passes the checks of the loop: it is of the batch's source
    and has an identifier. *)
Definition item_ok (src : Source.t) (item : Data) : Prop :=
  aid_source (data_id item) = src /\ truthy (_identifier (data_id item)) = true.

(** A batch [append] accepts: not empty, one source that is not
    [Source.none], every record with an identifier. *)
Definition batch_ok (src : Source.t) (data : Reader) : Prop :=
  data <> [] /\ src <> Source.none /\ Forall (item_ok src) data.

(** What the loop does with a record that passes the checks. *)
Inductive action := Skip | Link (header : string) | Unresolved.

Definition action_of (n2h : gmap string string) (mids : list Identifier)
    (src : Source.t) (item : Data) : action :=
  if set_contains (ident_of src item) mids then Skip
  else match first_match n2h (d_names item) with
       | Some header => Link header
       | None => Unresolved
       end.

(** The identifiers the loop links, with their headers, in order. *)
Fixpoint links (n2h : gmap string string) (mids : list Identifier) (src : Source.t)
    (data : Reader) : list (string * Identifier) :=
  match data with
  | [] => []
  | item :: rest =>
      match action_of n2h mids src item with
      | Link header => [(header, ident_of src item)]
      | _ => []
      end ++ links n2h mids src rest
  end.

(** The identifiers the loop leaves unresolved, in order. *)
Fixpoint unres (n2h : gmap string string) (mids : list Identifier) (src : Source.t)
    (data : Reader) : list Identifier :=
  match data with
  | [] => []
  | item :: rest =>
      match action_of n2h mids src item with
      | Unresolved => [ident_of src item]
      | _ => []
      end ++ unres n2h mids src rest
  end.

(** The dict after linking the pairs of [L], one after the other. *)
Definition apply_links (L : list (string * Identifier)) (d : dict) : dict :=
  fold_left (fun d hi => link_to (fst hi) (snd hi) d) L d.

(** [data_identifiers] after the loop. *)
Definition seen (src : Source.t) (data : Reader) (dids : list Identifier)
  : list Identifier :=
  fold_left (fun acc item => set_add (ident_of src item) acc) data dids.

(** The identifier strings of the records of a batch. *)
Definition batch_identifiers (data : Reader) : list (option string) :=
  List.map (fun item => _identifier (data_id item)) data.




(** [d'] has the Headers of [d], under the same keys and in the same
    order, each with its identifier list grown at the end, if at all. *)
Definition extends (d d' : dict) : Prop :=
  Forall2 (fun kh kh' =>
             fst kh = fst kh'
             /\ h_valid (snd kh) = h_valid (snd kh')
             /\ h_header (snd kh) = h_header (snd kh')
             /\ h_source (snd kh) = h_source (snd kh')
             /\ names (snd kh) = names (snd kh')
             /\ exists extra, identifiers (snd kh') = identifiers (snd kh) ++ extra) d d'.


(** [ids] with every element [==] to [x] removed. *)
Definition without (x : Identifier) (ids : list Identifier) : list Identifier :=
  List.filter (fun y => negb (Identifier_eq y x)) ids.

(** The Header [delete] leaves behind when identifiers remain. *)
Definition after_delete (ident : Identifier) (h : Header) : Header :=
  let h' := set_identifiers (without ident (identifiers h)) h in
  match h_source h' with
  | Some src => if Identifier_eq src ident then set_h_source None h' else h'
  | None => h'
  end.

(** ** Concrete maps and batches *)

Definition bd_old : Identifier := mkIdentifier Source.bd (Some "old") None.
Definition bd_dapi : Identifier := mkIdentifier Source.bd (Some "dapi") None.
Definition fpbase_gone : Identifier := mkIdentifier Source.fpbase (Some "gone") None.
Definition fpbase_egfp : Identifier := mkIdentifier Source.fpbase (Some "egfp") None.
Definition fpbase_new : Identifier := mkIdentifier Source.fpbase (Some "new") None.
Definition bd_queued : Identifier := mkIdentifier Source.bd (Some "queued") None.

(** A map with two Headers, left by an earlier [append] of a bd batch
    with one identifier still unresolved. *)
Definition example_map : Map :=
  mkMap [ ("EGFP", mkHeader true "EGFP" None ["EGFP"; "Enhanced GFP"] [bd_old; fpbase_gone]);
          ("DAPI", mkHeader true "DAPI" (Some bd_dapi) ["DAPI"] [bd_dapi]) ]
        (Some Source.bd) [bd_queued] [].

(** Two fpbase records: the first has a name of Header EGFP, the second
    has no known name. *)
Definition rec_egfp : Data :=
  mkData (mkAbstractID Source.fpbase (Some "egfp")) ["eGFP variant"; "Enhanced GFP"].
Definition rec_new : Data :=
  mkData (mkAbstractID Source.fpbase (Some "new")) ["mNeonGreen"].

(** A batch of one source and a batch of two. *)
Definition example_batch : Reader := [rec_egfp; rec_new].

(** The map after [append(example_batch)]. *)
Definition example_map_1 : Map :=
  mkMap [ ("EGFP", mkHeader true "EGFP" None ["EGFP"; "Enhanced GFP"]
                     [bd_old; fpbase_gone; fpbase_egfp]);
          ("DAPI", mkHeader true "DAPI" (Some bd_dapi) ["DAPI"] [bd_dapi]) ]
        (Some Source.fpbase) [fpbase_new] [fpbase_gone].


(** The map after [delete("DAPI", bd_dapi)]: the Header is gone. *)
Definition example_map_deleted : Map :=
  mkMap [ ("EGFP", mkHeader true "EGFP" None ["EGFP"; "Enhanced GFP"] [bd_old; fpbase_gone]) ]
        (Some Source.bd) [bd_queued] [].



(** A record whose only name is a name of Header EGFP written in lower
    case, and a batch of it and a record without a known name. *)
Definition rec_lower : Data :=
  mkData (mkAbstractID Source.fpbase (Some "egfp-2")) ["enhanced gfp"].
Definition case_batch : Reader := [rec_lower; rec_new].

(** A map whose keys are in another order with their case than
    without: "YFP" < "eGFP" < "mCherry", and "egfp" < "mcherry" < "yfp". *)
Definition unsorted_map : Map :=
  mkMap [ ("mCherry", mkHeader true "mCherry" None ["mCherry"] [fpbase_new]);
          ("YFP", mkHeader true "YFP" None ["YFP"] [fpbase_gone]);
          ("eGFP", mkHeader true "eGFP" None ["eGFP"] [fpbase_egfp]) ]
        None [] [].

(** ** Further vocabulary for the identifier map *)

(** Every Header of the dict holds at least one identifier. *)
Definition no_empty_header (d : dict) : Prop :=
  Forall (fun kh => identifiers (snd kh) <> []) d.

(** No identifier occurs twice in the Headers of the dict. *)
Definition mapped_once (d : dict) : Prop :=
  forall x, occurrences x d <= 1.

(** Some Header of [d] registers a name that equals [name] up to case:
    the two have the same [lower()]. *)
Definition registered (d : dict) (name : string) : Prop :=
  exists kh nm, In kh d /\ In nm (names (snd kh)) /\ lower nm = lower name.

(** Some record of the batch has an identifier [==] to [x]. *)
Definition in_batch (src : Source.t) (data : Reader) (x : Identifier) : bool :=
  existsb (fun item => Identifier_eq x (ident_of src item)) data.

(** The entries of [d] are in ascending order of their lowercased keys. *)
Definition sorted_by_lower (d : dict) : Prop :=
  Sorted.StronglySorted (fun a b => String.le (lower (fst a)) (lower (fst b))) d.

(** What [delete] of [ident] makes of one entry of the dict: the entry
    as it is when the Header does not hold [ident], nothing when it
    holds nothing else, and else the Header without [ident]. *)
Definition purge_entry (ident : Identifier) (kh : string * Header)
  : list (string * Header) :=
  if existsb (fun y => Identifier_eq y ident) (identifiers (snd kh)) then
    if length (without ident (identifiers (snd kh))) =? 0 then []
    else [(fst kh, after_delete ident (snd kh))]
  else [kh].

Definition purge (ident : Identifier) (d : dict) : dict :=
  flat_map (purge_entry ident) d.

(** The pair [Map.sort] makes of a key, for an entry of the dict. *)
Definition key_pair (kh : string * Header) : string * string :=
  (lower (fst kh), fst kh).

(** The entries of a dict arranged the way [Map.sort] arranges the keys. *)
Fixpoint insert_entry (x : string * Header) (l : dict) : dict :=
  match l with
  | [] => [x]
  | y :: rest =>
      if String.ltb (lower (fst y)) (lower (fst x)) then y :: insert_entry x rest
      else x :: l
  end.

Definition sort_entries (d : dict) : dict := fold_right insert_entry [] d.

(** The entries of [d] whose lowercased key is [s], in their order. *)
Definition with_lower_key (s : string) (d : dict) : dict :=
  List.filter (fun kh => String.eqb (lower (fst kh)) s) d.

End MapVocabulary.

(** Vocabulary for the validators. *)

(** The number of characters of [s] that satisfy [p]. *)
Fixpoint count_chars (p : ascii -> bool) (s : string) : nat :=
  match s with
  | EmptyString => 0
  | String c t => (if p c then 1 else 0) + count_chars p t
  end.

(** [sep.join(parts)] *)
Fixpoint join (sep : string) (parts : list string) : string :=
  match parts with
  | [] => EmptyString
  | [part] => part
  | part :: rest => part +:+ sep +:+ join sep rest
  end.

(** A character a header may hold. *)
Definition header_char (a : ascii) : bool :=
  char_in a upper_digits || Ascii.eqb a ":".

(** A character a fluorophore name may hold. *)
Definition name_char (a : ascii) : bool :=
  char_in a letters || char_in a digits || Ascii.eqb a "(" || Ascii.eqb a ")"
  || char_in a name_punctuation.

(** The round brackets of [s], in order. *)
Fixpoint brackets_of (s : string) : string :=
  match s with
  | EmptyString => EmptyString
  | String c t =>
      if Ascii.eqb c "(" || Ascii.eqb c ")" then String c (brackets_of t)
      else brackets_of t
  end.

(** [k] pairs of an opening and a closing bracket. *)
Fixpoint bracket_pairs (k : nat) : string :=
  match k with
  | 0 => EmptyString
  | S k => String "(" (String ")" (bracket_pairs k))
  end.

Definition no_char (c : ascii) (s : string) : bool :=
  all_chars (fun a => negb (Ascii.eqb a c)) s.

(** A path segment the URL validator lets through. *)
Definition url_segment (s : string) : Prop :=
  s <> EmptyString /\ no_char "/" s = true /\ s <> "?" /\ s <> "#".

(** A capital followed by lower-case letters. *)
Definition capitalised (w : string) : bool :=
  match w with
  | EmptyString => false
  | String u ls =>
      char_in u upper_letters && all_chars (fun a => char_in a lower_letters) ls
  end.

(** Capitalised words joined by hyphens. *)
Definition family_name (f : string) : Prop :=
  exists words, words <> [] /\ Forall (fun w => capitalised w = true) words
                /\ f = join "-" words.

(** The last character of [s] is [c]. *)
Definition ends_with (c : ascii) (s : string) : Prop :=
  exists w, s = w +:+ String c EmptyString.

(** * Theorems about the validators *)

(** ** AuditHeader *)

Lemma header_loop_app len c i s1 s2 :
  header_loop len c i (s1 +:+ s2)
  = header_loop len (header_loop len c i s1) (i + String.length s1) s2.
Proof.
  revert c i. induction s1 as [|a s1 IH]; intros c i; simpl.
  - now rewrite Nat.add_0_r.
  - rewrite IH. f_equal. lia.
Qed.

Lemma upper_digit_step len c i letter :
  char_in letter upper_digits = true -> header_step len c i letter = c.
Proof.
  intros H. unfold header_step.
  assert (Ascii.eqb letter ":" = false /\ char_in letter lower_letters = false) as [E1 E2].
  { destruct letter as [[] [] [] [] [] [] [] []]; vm_compute in H |- *;
      (discriminate H || (split; reflexivity)). }
  rewrite E1, E2, H. simpl. now rewrite andb_false_r.
Qed.

Lemma upper_digit_loop len c i s :
  all_chars (fun a => char_in a upper_digits) s = true -> header_loop len c i s = c.
Proof.
  revert c i. induction s as [|a s IH]; intros c i H; simpl in *.
  - reflexivity.
  - apply andb_prop in H as [Ha Hs]. rewrite upper_digit_step by exact Ha. now apply IH.
Qed.

(** C6: AuditHeader.audit does not enforce "colon must not be the final
    character". The branch that counts a final colon sits behind the
    branch that handles every colon, so it is never taken: every
    string over [A-Z0-9], empty or not, followed by one final ':' is
    reported valid, with no error. *)
Theorem AuditHeader_accepts_final_colon (s : string) :
  all_chars (fun a => char_in a upper_digits) s = true ->
  AuditHeader_audit (Some (s +:+ ":")) = mkVerdict true [].
Proof.
  intros Hall. unfold AuditHeader_audit.
  destruct (String.eqb (s +:+ ":") EmptyString) eqn:E.
  - apply String.eqb_eq in E. destruct s; discriminate E.
  - rewrite header_loop_app, (upper_digit_loop _ _ _ s Hall). reflexivity.
Qed.

Lemma AuditHeader_accepts_final_colon_witness :
  AuditHeader_audit (Some "ABC:") = mkVerdict true [].
Proof.
  apply (AuditHeader_accepts_final_colon "ABC"). reflexivity.
Defined.

(** ** AuditUrl *)

Lemma split_no_sep sep s :
  all_chars (fun a => negb (Ascii.eqb a sep)) s = true -> split sep s = [s].
Proof.
  induction s as [|a s IH]; simpl; intros H.
  - reflexivity.
  - apply andb_prop in H as [Ha Hs]. apply negb_true_iff in Ha. rewrite Ha.
    now rewrite IH.
Qed.

(** C7: AuditUrl.audit looks for "?" and "#" among the path segments (the
    list made by [split("/")]), not among the characters, so a query or a
    fragment is rejected only when a whole segment is exactly "?" or "#".
    A URL that passes the other rules stays valid with a query or a
    fragment after its last segment. *)
Theorem AuditUrl_accepts_query_and_fragment (q : string) :
  all_chars (fun a => negb (Ascii.eqb a "/")) q = true ->
  AuditUrl_audit (Some ("https://www.example.com/search?" +:+ q)) = mkVerdict true []
  /\ AuditUrl_audit (Some ("http://www.example.com/page#" +:+ q)) = mkVerdict true [].
Proof.
  intros Hq. unfold AuditUrl_audit. split.
  - cbv [String.append].
    cbn [String.eqb Ascii.eqb Bool.eqb slice_to slice_from String.length
         Nat.leb andb negb].
    cbn [split Ascii.eqb Bool.eqb]. rewrite (split_no_sep "/" q Hq). reflexivity.
  - cbv [String.append].
    cbn [String.eqb Ascii.eqb Bool.eqb slice_to slice_from String.length
         Nat.leb andb negb].
    cbn [split Ascii.eqb Bool.eqb]. rewrite (split_no_sep "/" q Hq). reflexivity.
Qed.

Lemma AuditUrl_accepts_query_and_fragment_witness :
  AuditUrl_audit (Some "https://www.example.com/search?name=egfp") = mkVerdict true []
  /\ AuditUrl_audit (Some "http://www.example.com/page#name=egfp") = mkVerdict true [].
Proof.
  apply (AuditUrl_accepts_query_and_fragment "name=egfp"). reflexivity.
Defined.

(** ** AuditReference *)

(** C8: with a non-empty [url] the method audits the URL and returns at
    once; the code that folds the URL verdict into [self.valid] and
    [self.errors] comes after that [return] and is never reached. The
    verdict of the reference therefore stays what it was before the call,
    whatever the URL validator found; on a freshly constructed
    [AuditReference] it stays [False] with the error "unchecked". *)
Theorem AuditReference_url_verdict_not_stored
    (title year journal volume issue pages doi url_pubmed url_doi
       : Verdict -> option string -> Verdict)
    (authors : AuthorsAudit -> list string -> AuthorsAudit)
    (audit_doi : Verdict -> option string -> option string -> Verdict)
    (self : AuditReference) (data : Reference) :
  truthy (r_url data) = true ->
  let audit := AuditReference_audit title year journal volume issue pages doi
                 url_pubmed url_doi authors audit_doi in
  ar_valid (audit self (Some data)) = ar_valid self
  /\ ar_errors (audit self (Some data)) = ar_errors self
  /\ ar_url (audit self (Some data)) = AuditUrl_audit (r_url data)
  /\ ar_valid (AuditReference_new title year journal volume issue pages doi
                 url_pubmed url_doi authors audit_doi (Some data)) = false.
Proof.
  intros Hurl audit. subst audit. unfold AuditReference_new, AuditReference_audit.
  assert (Reference_bool data = true) as Hb by (unfold Reference_bool; now rewrite Hurl).
  rewrite Hb, Hurl. simpl. repeat split.
Qed.

Lemma AuditReference_url_verdict_not_stored_witness :
  let audit := AuditReference_audit (fun v _ => v) (fun v _ => v) (fun v _ => v)
                 (fun v _ => v) (fun v _ => v) (fun v _ => v) (fun v _ => v)
                 (fun v _ => v) (fun v _ => v) (fun a _ => a) (fun v _ _ => v) in
  valid (AuditUrl_audit (r_url url_reference)) = true
  /\ ar_valid (audit AuditReference_init (Some url_reference)) = false
  /\ ar_errors (audit AuditReference_init (Some url_reference)) = ErrList ["unchecked"].
Proof.
  intros audit.
  destruct (AuditReference_url_verdict_not_stored
              (fun v _ => v) (fun v _ => v) (fun v _ => v) (fun v _ => v)
              (fun v _ => v) (fun v _ => v) (fun v _ => v) (fun v _ => v)
              (fun v _ => v) (fun a _ => a) (fun v _ _ => v)
              AuditReference_init url_reference eq_refl) as (Hv & He & _ & _).
  split; [reflexivity|]. split; [exact Hv | exact He].
Defined.

(** ** AuditSpectrumIntensity *)

Local Open Scope Q_scope.

Lemma Qltb_lt x y : Qltb x y = true <-> x < y.
Proof.
  unfold Qltb. rewrite negb_true_iff. split; intros H.
  - apply Qnot_le_lt. intros Hle. apply Qle_bool_iff in Hle. congruence.
  - destruct (Qle_bool y x) eqn:E; [|reflexivity].
    apply Qle_bool_iff in E. exfalso. exact (Qlt_not_le _ _ H E).
Qed.

Lemma Qltb_ge x y : Qltb x y = false <-> y <= x.
Proof.
  unfold Qltb. rewrite negb_false_iff. apply Qle_bool_iff.
Qed.

Lemma In_finite_values q l : In q (finite_values l) <-> In (Finite q) l.
Proof.
  unfold finite_values. rewrite in_flat_map. split.
  - intros (x & Hx & Hq). destruct x; try (now destruct Hq).
    destruct Hq as [->|[]]. exact Hx.
  - intros H. exists (Finite q). split; [exact H | now left].
Qed.

(** The two range flags after the scan of [l]. *)
Lemma intensity_loop_flags (l : list number) : forall st,
  valid_value_min (intensity_loop l st)
  = valid_value_min st && forallb (fun x => negb (number_ltb x (Finite 0))) l
  /\ valid_value_max (intensity_loop l st)
     = valid_value_max st && forallb (fun x => negb (number_ltb (Finite 100) x)) l.
Proof.
  induction l as [|a l IH]; intros st.
  - cbn. now rewrite !andb_true_r.
  - unfold intensity_loop. cbn [fold_left forallb].
    fold (intensity_loop l (intensity_step st a)).
    destruct (IH (intensity_step st a)) as [-> ->]. rewrite !andb_assoc.
    unfold intensity_step.
    destruct (number_ltb a (Finite 0)), (number_ltb (Finite 100) a),
      (number_ltb (max_intensity_value st) a),
      (number_ltb a (min_intensity_value st));
      cbn [valid_value_min valid_value_max negb];
      rewrite ?andb_true_r, ?andb_false_r; split; reflexivity.
Qed.

(** A scan that starts from NaN never leaves it: no point compares
    greater than NaN. *)
Lemma intensity_loop_nan (l : list number) : forall st,
  max_intensity_value st = NaN -> max_intensity_value (intensity_loop l st) = NaN.
Proof.
  induction l as [|a l IH]; intros st H; [exact H|].
  unfold intensity_loop. cbn [fold_left]. fold (intensity_loop l (intensity_step st a)).
  apply IH. unfold intensity_step. rewrite H. cbn [number_ltb].
  destruct (number_ltb a (min_intensity_value st)); reflexivity.
Qed.

(** What the scan has computed after a list of finite values and NaNs,
    from a state whose running minimum is below its running maximum:
    the NaNs are passed over. *)
Lemma intensity_loop_extremes (l : list number) : forall st M m,
  max_intensity_value st = Finite M ->
  min_intensity_value st = Finite m ->
  m <= M ->
  Forall (fun x => x = NaN \/ exists q, x = Finite q) l ->
  exists M' m',
    max_intensity_value (intensity_loop l st) = Finite M'
    /\ min_intensity_value (intensity_loop l st) = Finite m'
    /\ (M' = M \/ In M' (finite_values l))
    /\ M <= M'
    /\ (forall y, In y (finite_values l) -> y <= M')
    /\ (m' = m \/ In m' (finite_values l))
    /\ m' <= m
    /\ (forall y, In y (finite_values l) -> m' <= y).
Proof.
  induction l as [|a l IH]; intros st M m HM Hm Hord Hall.
  - exists M, m. cbn.
    repeat split; try assumption; try (now left); try apply Qle_refl; intros y [].
  - apply Forall_cons in Hall as [Ha Hl].
    unfold intensity_loop. cbn [fold_left]. fold (intensity_loop l (intensity_step st a)).
    destruct Ha as [->|[q ->]].
    + (* NaN: the four comparisons are false *)
      assert (max_intensity_value (intensity_step st NaN) = Finite M
              /\ min_intensity_value (intensity_step st NaN) = Finite m) as [HM' Hm'].
      { unfold intensity_step. rewrite HM, Hm. cbn. now split. }
      destruct (IH _ M m HM' Hm' Hord Hl) as (M' & m' & I1 & I2 & I3 & I4 & I5 & I6 & I7 & I8).
      exists M', m'. change (finite_values (NaN :: l)) with (finite_values l).
      repeat split; assumption.
    + assert (exists M1 m1,
                max_intensity_value (intensity_step st (Finite q)) = Finite M1
                /\ min_intensity_value (intensity_step st (Finite q)) = Finite m1
                /\ (M1 = M \/ M1 = q) /\ M <= M1 /\ q <= M1
                /\ (m1 = m \/ m1 = q) /\ m1 <= m /\ m1 <= q) as Hstep.
      { unfold intensity_step. rewrite HM, Hm. cbn [number_ltb].
        destruct (Qltb M q) eqn:Emax.
        - apply Qltb_lt in Emax. exists q, m. cbn.
          repeat split; try (now right); try (now left); try apply Qle_refl.
          + now apply Qlt_le_weak.
          + apply Qle_trans with M; [exact Hord | now apply Qlt_le_weak].
        - apply Qltb_ge in Emax. destruct (Qltb q m) eqn:Emin.
          + apply Qltb_lt in Emin. exists M, q. cbn.
            repeat split; try (now right); try (now left); try apply Qle_refl;
              try exact Emax. now apply Qlt_le_weak.
          + apply Qltb_ge in Emin. exists M, m. cbn.
            repeat split; try (now right); try (now left); try apply Qle_refl;
              assumption. }
      destruct Hstep as (M1 & m1 & S1 & S2 & S3 & S4 & S5 & S6 & S7 & S8).
      assert (Hord' : m1 <= M1).
      { apply Qle_trans with m; [exact S7|]. now apply Qle_trans with M. }
      destruct (IH _ M1 m1 S1 S2 Hord' Hl)
        as (M' & m' & I1 & I2 & I3 & I4 & I5 & I6 & I7 & I8).
      exists M', m'. change (finite_values (Finite q :: l)) with (q :: finite_values l).
      repeat split; try assumption.
      * destruct I3 as [->|H]; [|right; now right].
        destruct S3 as [->| ->]; [now left | right; now left].
      * now apply Qle_trans with M1.
      * intros y [<-|Hy]; [now apply Qle_trans with M1 | now apply I5].
      * destruct I6 as [->|H]; [|right; now right].
        destruct S6 as [->| ->]; [now left | right; now left].
      * now apply Qle_trans with m1.
      * intros y [<-|Hy]; [now apply Qle_trans with m1 | now apply I8].
Qed.

Lemma forallb_in_range (l : list number) :
  forallb (fun x => negb (number_ltb x (Finite 0))) l = true
  /\ forallb (fun x => negb (number_ltb (Finite 100) x)) l = true
  <-> forall x, In x l -> x = NaN \/ in_range x.
Proof.
  rewrite !forallb_forall. split.
  - intros [Hlo Hhi] x Hx. specialize (Hlo x Hx). specialize (Hhi x Hx).
    apply negb_true_iff in Hlo, Hhi. destruct x as [q| | |].
    + right. exists q. split; [reflexivity|]. cbn in Hlo, Hhi.
      split; now apply Qltb_ge.
    + discriminate Hhi.
    + discriminate Hlo.
    + now left.
  - intros H. split; intros x Hx; apply negb_true_iff;
      (destruct (H x Hx) as [->|(q & -> & H0 & H100)]; [reflexivity|]);
      cbn; now apply Qltb_ge.
Qed.

(** C9, as the code has it: AuditSpectrumIntensity.audit reports a list
    valid exactly when it has at least 3 entries, its first entry is not
    NaN, every entry other than NaN is a number of [0,100], and the
    largest of the numbers is 100 and the smallest is 0. A NaN after the
    first entry is passed over, since every comparison with it is false.
    A missing list ([None]) is invalid. *)
Theorem AuditSpectrumIntensity_valid_iff (fmt_number : number -> string)
    (data : list number) :
  valid (AuditSpectrumIntensity_audit fmt_number None) = false
  /\ (valid (AuditSpectrumIntensity_audit fmt_number (Some data)) = true
      <-> (3 <= length data)%nat
          /\ List.hd NaN data <> NaN
          /\ (forall x, In x data -> x = NaN \/ in_range x)
          /\ is_maximum (finite_values data) 100
          /\ is_minimum (finite_values data) 0).
Proof.
  split; [reflexivity|].
  destruct data as [|d0 rest].
  { cbn. split; [discriminate | intros [H _]; inversion H]. }
  unfold AuditSpectrumIntensity_audit. cbn [valid List.hd].
  set (data := d0 :: rest).
  destruct (intensity_loop_flags data (mkScan true true d0 d0)) as [F1 F2].
  cbn [valid_value_min valid_value_max] in F1, F2.
  set (st := intensity_loop data (mkScan true true d0 d0)) in *.
  rewrite !andb_true_iff, !negb_true_iff, F1, F2. cbn [andb].
  rewrite Nat.leb_gt.
  assert (Hscan : forall q0, d0 = Finite q0 ->
            (forall x, In x data -> x = NaN \/ in_range x) ->
            exists M' m',
              max_intensity_value st = Finite M' /\ min_intensity_value st = Finite m'
              /\ In M' (finite_values data) /\ (forall y, In y (finite_values data) -> y <= M')
              /\ In m' (finite_values data) /\ (forall y, In y (finite_values data) -> m' <= y)).
  { intros q0 E0 Hrange.
    assert (Forall (fun x => x = NaN \/ exists q, x = Finite q) data) as Hall.
    { apply List.Forall_forall. intros x Hx.
      destruct (Hrange x Hx) as [->|(q & -> & _)]; [now left | right; now exists q]. }
    destruct (intensity_loop_extremes data (mkScan true true d0 d0) q0 q0)
      as (M' & m' & I1 & I2 & I3 & _ & I5 & I6 & _ & I8);
      [exact E0 | exact E0 | apply Qle_refl | exact Hall |].
    assert (In q0 (finite_values data)) as H0
      by (apply In_finite_values; left; now rewrite E0).
    exists M', m'. fold st in I1, I2. repeat split; try assumption.
    - destruct I3 as [->|H]; assumption.
    - destruct I6 as [->|H]; assumption. }
  split.
  - intros ((((Hlen & Hlo) & Hhi) & Hmax) & Hmin).
    assert (Hrange : forall x, In x data -> x = NaN \/ in_range x)
      by (apply forallb_in_range; now split).
    assert (Hd0 : d0 <> NaN).
    { intros E. unfold st in Hmax.
      rewrite (intensity_loop_nan data (mkScan true true d0 d0) E) in Hmax.
      discriminate Hmax. }
    destruct (Hrange d0 (or_introl eq_refl)) as [E|(q0 & E0 & _)]; [contradiction|].
    destruct (Hscan q0 E0 Hrange) as (M' & m' & EM & Em & HMin & HMub & Hmin' & Hmlb).
    rewrite EM in Hmax. rewrite Em in Hmin. cbn in Hmax, Hmin.
    apply negb_false_iff, Qeq_bool_iff in Hmax.
    apply negb_false_iff, Qeq_bool_iff in Hmin.
    split; [lia|]. split; [exact Hd0|]. split; [exact Hrange|]. split.
    + split; [exists M'; now split|]. intros y Hy. rewrite <- Hmax. now apply HMub.
    + split; [exists m'; now split|]. intros y Hy. rewrite <- Hmin. now apply Hmlb.
  - intros (Hlen & Hd0 & Hrange & [[x [Hx Ex]] Hub] & [[z [Hz Ez]] Hlb]).
    destruct (Hrange d0 (or_introl eq_refl)) as [E|(q0 & E0 & _)]; [contradiction|].
    destruct (Hscan q0 E0 Hrange) as (M' & m' & EM & Em & HMin & HMub & Hmin' & Hmlb).
    apply forallb_in_range in Hrange as [Hlo Hhi].
    rewrite EM, Em. cbn [number_neb].
    repeat split; try assumption; try lia.
    + apply negb_false_iff, Qeq_bool_iff. apply Qle_antisym.
      * now apply Hub.
      * rewrite <- Ex. now apply HMub.
    + apply negb_false_iff, Qeq_bool_iff. apply Qle_antisym.
      * rewrite <- Ez. now apply Hmlb.
      * now apply Hlb.
Qed.

(** C9 fails as stated: a NaN between 0 and 100 is not a value of
    [0,100], and the list is reported valid. *)
Lemma AuditSpectrumIntensity_counterexample :
  valid (AuditSpectrumIntensity_audit (fun _ => EmptyString)
           (Some [Finite 0; NaN; Finite 100])) = true
  /\ ~ (forall x, In x [Finite 0; NaN; Finite 100] -> in_range x).
Proof.
  split; [reflexivity|].
  intros H. destruct (H NaN) as (q & E & _); [right; now left | discriminate E].
Qed.

Local Close Scope Q_scope.

(** ** reset() *)

(** C10: every scalar field validator runs [AbstractAudit.reset] when
    reset, and that method raises [NameError] on every call and leaves
    the validator as it was: [errors] is neither a local of the method,
    nor a module global, nor a builtin. [Auditor.reset] calls it first,
    on its header validator, so it raises as well, with every validator
    of the Auditor unchanged. *)
Theorem reset_raises_NameError :
  Forall (fun c => reset_owner c = Some C_AbstractAudit) scalar_validators
  /\ (forall self : Verdict, AbstractAudit_reset self = Raised (NameError "errors") self)
  /\ (forall a : Auditor, Auditor_reset a = Raised (NameError "errors") a).
Proof.
  split; [repeat constructor|]. split.
  - intros self. reflexivity.
  - intros a. destruct a. reflexivity.
Qed.

(** * Theorems about the identifier map *)

Section MapTheorems.
Context {Lw : Lower}.

(** ** Identifiers and sets of identifiers *)

Lemma Identifier_eq_key a b : Identifier_eq a b = bool_decide (ident_key a = ident_key b).
Proof.
  unfold Identifier_eq, ident_key.
  repeat case_bool_decide; simpl; try reflexivity; congruence.
Qed.

Lemma Identifier_eq_true a b : Identifier_eq a b = true <-> ident_key a = ident_key b.
Proof. rewrite Identifier_eq_key. apply bool_decide_eq_true. Qed.

Lemma Identifier_eq_refl a : Identifier_eq a a = true.
Proof. now apply Identifier_eq_true. Qed.

Lemma Identifier_eq_congr a a' b :
  ident_key a = ident_key a' -> Identifier_eq a b = Identifier_eq a' b.
Proof. intros H. rewrite !Identifier_eq_key, H. reflexivity. Qed.

Lemma set_contains_congr x x' s :
  ident_key x = ident_key x' -> set_contains x s = set_contains x' s.
Proof.
  intros H. unfold set_contains. induction s as [|a s IH]; simpl; [reflexivity|].
  now rewrite IH, (Identifier_eq_congr x x' a H).
Qed.

Lemma set_contains_app x s t :
  set_contains x (s ++ t) = set_contains x s || set_contains x t.
Proof. unfold set_contains. apply existsb_app. Qed.

Lemma set_contains_add x y s :
  set_contains x (set_add y s) = set_contains x s || Identifier_eq x y.
Proof.
  unfold set_add. destruct (set_contains y s) eqn:E.
  - destruct (Identifier_eq x y) eqn:Exy; [|now rewrite orb_false_r].
    apply Identifier_eq_true in Exy. rewrite (set_contains_congr x y s Exy), E. reflexivity.
  - rewrite set_contains_app. simpl. now rewrite orb_false_r.
Qed.

Lemma set_contains_cons x y s :
  set_contains x (y :: s) = Identifier_eq x y || set_contains x s.
Proof. reflexivity. Qed.

Lemma set_contains_difference x a b :
  set_contains x (set_difference a b) = set_contains x a && negb (set_contains x b).
Proof.
  unfold set_difference. induction a as [|y a IH]; [reflexivity|].
  cbn [List.filter]. rewrite set_contains_cons.
  destruct (Identifier_eq x y) eqn:Exy.
  - apply Identifier_eq_true in Exy. rewrite <- (set_contains_congr x y b Exy).
    destruct (set_contains x b) eqn:Eb; cbn [negb orb andb].
    + rewrite IH. apply andb_false_r.
    + rewrite set_contains_cons.
      assert (Identifier_eq x y = true) as -> by now apply Identifier_eq_true.
      reflexivity.
  - cbn [orb]. destruct (negb (set_contains y b)); [|exact IH].
    rewrite set_contains_cons, Exy. exact IH.
Qed.

Lemma set_contains_nil_inv s : (forall x, set_contains x s = false) -> s = [].
Proof.
  destruct s as [|a s]; [reflexivity|]. intros H. specialize (H a).
  unfold set_contains in H. simpl in H. now rewrite Identifier_eq_refl in H.
Qed.

Lemma count_eq_app x l1 l2 : count_eq x (l1 ++ l2) = count_eq x l1 + count_eq x l2.
Proof. unfold count_eq. now rewrite List.filter_app, length_app. Qed.

Lemma count_eq_contains x l : set_contains x l = (0 <? count_eq x l).
Proof.
  unfold set_contains, count_eq. induction l as [|a l IH]; simpl; [reflexivity|].
  destruct (Identifier_eq x a); simpl; [reflexivity | exact IH].
Qed.

(** ** The dict of headers *)

Lemma dict_get_In key d : is_Some (dict_get key d) <-> In key (List.map fst d).
Proof.
  induction d as [|[k h] d IH]; simpl.
  - split; [intros [? ?]; discriminate | intros []].
  - destruct (String.eqb key k) eqn:E.
    + apply String.eqb_eq in E. subst. split; [now left | eauto].
    + apply String.eqb_neq in E. rewrite IH. split; [now right | intros [?|?]; congruence].
Qed.

Lemma dict_alter_keys f key d : List.map fst (dict_alter f key d) = List.map fst d.
Proof.
  induction d as [|[k h] d IH]; simpl; [reflexivity|].
  destruct (String.eqb key k); simpl; [reflexivity | now rewrite IH].
Qed.

Lemma dict_get_alter f key d :
  dict_get key (dict_alter f key d) = f <$> dict_get key d.
Proof.
  induction d as [|[k h] d IH]; simpl; [reflexivity|].
  destruct (String.eqb key k) eqn:E; simpl; rewrite E; [reflexivity | exact IH].
Qed.

Lemma dict_alter_id f key d h :
  dict_get key d = Some h -> f h = h -> dict_alter f key d = d.
Proof.
  induction d as [|[k h'] d IH]; simpl; [reflexivity|]. intros Hget Hf.
  destruct (String.eqb key k).
  - inversion Hget; subst. now rewrite Hf.
  - now rewrite IH.
Qed.

Lemma dict_get_del key d : dict_wf d -> dict_get key (dict_del key d) = None.
Proof.
  unfold dict_wf. induction d as [|[k h] d IH]; simpl; [reflexivity|]. intros Hnd.
  apply NoDup_cons in Hnd as [Hk Hnd].
  destruct (String.eqb key k) eqn:E; simpl.
  - apply String.eqb_eq in E. subst.
    destruct (dict_get k d) eqn:G; [|reflexivity].
    exfalso. apply Hk. apply list_elem_of_In, dict_get_In. rewrite G. eauto.
  - rewrite E. now apply IH.
Qed.

(** ** The lookup tables of [append] *)

Lemma name_to_header_alter f key d :
  (forall h, names (f h) = names h) ->
  build_name_to_header (dict_alter f key d) = build_name_to_header d.
Proof.
  intros Hf. unfold build_name_to_header. generalize (∅ : gmap string string).
  induction d as [|[k h] d IH]; intros acc; simpl; [reflexivity|].
  destruct (String.eqb key k); simpl; [now rewrite Hf | apply IH].
Qed.

Lemma name_to_header_link header i d :
  build_name_to_header (link_to header i d) = build_name_to_header d.
Proof. apply name_to_header_alter. reflexivity. Qed.

Lemma add_names_closed (keys : list string) header nms : forall acc : gmap string string,
  In header keys ->
  (forall nm hd, acc !! nm = Some hd -> In hd keys) ->
  forall nm hd, add_names header nms acc !! nm = Some hd -> In hd keys.
Proof.
  unfold add_names. induction nms as [|n nms IH]; intros acc Hk Hacc; simpl.
  - exact Hacc.
  - apply IH; [exact Hk|]. intros nm hd. rewrite lookup_insert.
    case_decide; [intros [= <-]; exact Hk | apply Hacc].
Qed.

Lemma build_name_to_header_closed d : n2h_closed (build_name_to_header d) d.
Proof.
  unfold n2h_closed, build_name_to_header.
  assert (G : forall (keys : list string) (d : dict) (acc : gmap string string),
             (forall kh, In kh d -> In (fst kh) keys) ->
             (forall nm hd, acc !! nm = Some hd -> In hd keys) ->
             forall nm hd,
               fold_left (fun acc kh => add_names (fst kh) (names (snd kh)) acc) d acc
                 !! nm = Some hd -> In hd keys).
  { intros keys. induction d0 as [|kh d0 IH]; intros acc Hd Hacc; simpl.
    - exact Hacc.
    - apply IH; [intros kh' H; apply Hd; now right|].
      apply add_names_closed; [apply Hd; now left | exact Hacc]. }
  apply G.
  - intros kh H. now apply in_map.
  - intros nm hd H. rewrite lookup_empty in H. discriminate.
Qed.

Lemma n2h_closed_link n2h header i d :
  n2h_closed n2h d -> n2h_closed n2h (link_to header i d).
Proof. unfold n2h_closed, link_to. now rewrite dict_alter_keys. Qed.

Lemma first_match_closed n2h d nms header :
  n2h_closed n2h d -> first_match n2h nms = Some header -> In header (List.map fst d).
Proof.
  intros Hc. induction nms as [|n nms IH]; simpl; [discriminate|].
  destruct (n2h !! lower n) eqn:E; [intros [= <-]; exact (Hc _ _ E) | exact IH].
Qed.

(** Linking to an existing header inserts the identifier somewhere in
    the sequence of all identifiers and changes nothing else. *)
Lemma all_ids_link header i d :
  In header (List.map fst d) ->
  exists l1 l2, all_ids d = l1 ++ l2 /\ all_ids (link_to header i d) = l1 ++ [i] ++ l2.
Proof.
  unfold all_ids, link_to. induction d as [|[k h] d IH]; simpl; [intros []|].
  intros Hin. destruct (String.eqb header k) eqn:E.
  - exists (identifiers h), (concat (List.map (fun kh => identifiers (snd kh)) d)).
    split; [reflexivity|]. simpl. now rewrite <- app_assoc.
  - apply String.eqb_neq in E. destruct Hin as [Hin|Hin]; [congruence|].
    destruct (IH Hin) as (l1 & l2 & H1 & H2).
    exists (identifiers h ++ l1), l2. simpl. rewrite H1, H2, <- !app_assoc. split; reflexivity.
Qed.

Lemma existsb_all_ids_link p header i d :
  In header (List.map fst d) ->
  existsb p (all_ids (link_to header i d)) = existsb p (all_ids d) || p i.
Proof.
  intros Hin. destruct (all_ids_link header i d Hin) as (l1 & l2 & -> & ->).
  rewrite !existsb_app. simpl. destruct (existsb p l1), (p i), (existsb p l2); reflexivity.
Qed.

Lemma occurrences_link x header i d :
  In header (List.map fst d) ->
  occurrences x (link_to header i d)
  = occurrences x d + (if Identifier_eq x i then 1 else 0).
Proof.
  intros Hin. unfold occurrences.
  destruct (all_ids_link header i d Hin) as (l1 & l2 & -> & ->).
  rewrite !count_eq_app. unfold count_eq at 2. simpl.
  destruct (Identifier_eq x i); simpl; lia.
Qed.

Lemma contains_add_identifiers src x ids : forall acc,
  set_contains x (add_identifiers src ids acc)
  = set_contains x acc || existsb (same_in_source src x) ids.
Proof.
  unfold add_identifiers. induction ids as [|i ids IH]; intros acc; simpl.
  - now rewrite orb_false_r.
  - rewrite IH. unfold same_in_source at 2. case_bool_decide; simpl.
    + now rewrite set_contains_add, orb_assoc.
    + reflexivity.
Qed.

Lemma contains_map_identifiers src x d :
  set_contains x (build_map_identifiers src d) = existsb (same_in_source src x) (all_ids d).
Proof.
  unfold build_map_identifiers, all_ids.
  change (existsb (same_in_source src x)
            (concat (List.map (fun kh => identifiers (snd kh)) d)))
    with (set_contains x [] ||
          existsb (same_in_source src x)
            (concat (List.map (fun kh => identifiers (snd kh)) d))).
  generalize (@nil Identifier).
  induction d as [|kh d IH]; intros acc; simpl.
  - now rewrite orb_false_r.
  - rewrite IH, contains_add_identifiers, existsb_app, orb_assoc. reflexivity.
Qed.

Lemma same_in_source_own src x i :
  id_source x = src -> same_in_source src x i = Identifier_eq x i.
Proof.
  intros Hx. unfold same_in_source. case_bool_decide; [reflexivity|].
  simpl. symmetry. apply not_true_is_false. rewrite Identifier_eq_true.
  unfold ident_key. intros [= H1 H2]. congruence.
Qed.

(** For an identifier of the batch's source, being in [map_identifiers]
    is occurring in some Header. *)
Lemma contains_map_identifiers_own src x d :
  id_source x = src ->
  set_contains x (build_map_identifiers src d) = (0 <? occurrences x d).
Proof.
  intros Hx. rewrite contains_map_identifiers. unfold occurrences.
  rewrite <- count_eq_contains. unfold set_contains.
  induction (all_ids d) as [|i l IH]; simpl; [reflexivity|].
  now rewrite IH, same_in_source_own.
Qed.

(** ** Headers only grow *)

Lemma extends_refl d : extends d d.
Proof.
  induction d as [|kh d IH]; constructor; [|exact IH].
  repeat split. exists []. now rewrite app_nil_r.
Qed.

Lemma extends_trans d1 d2 d3 : extends d1 d2 -> extends d2 d3 -> extends d1 d3.
Proof.
  intros H12. revert d3. induction H12 as [|a b d1 d2 Hab _ IH]; intros d3 H23.
  - inversion H23. constructor.
  - inversion H23 as [|b' c d2' d3' Hbc H23']; subst. constructor; [|now apply IH].
    destruct Hab as (A1 & A2 & A3 & A4 & A5 & (e1 & A6)).
    destruct Hbc as (B1 & B2 & B3 & B4 & B5 & (e2 & B6)).
    repeat split; try congruence. exists (e1 ++ e2). now rewrite B6, A6, app_assoc.
Qed.

Lemma extends_link header i d : extends d (link_to header i d).
Proof.
  unfold link_to. induction d as [|[k h] d IH]; simpl; [constructor|].
  destruct (String.eqb header k).
  - constructor; [|apply extends_refl]. simpl. repeat split. now exists [i].
  - constructor; [|exact IH]. repeat split. exists []. now rewrite app_nil_r.
Qed.

Lemma extends_apply_links L : forall d, extends d (apply_links L d).
Proof.
  unfold apply_links. induction L as [|hi L IH]; intros d; simpl.
  - apply extends_refl.
  - eapply extends_trans; [apply extends_link | apply IH].
Qed.

(** ** The resolving loop of [append] as a plan *)

Lemma AbstractID_identifier_ok src item :
  item_ok src item ->
  exists s, _identifier (data_id item) = Some s
            /\ AbstractID_identifier (data_id item) = inr s.
Proof.
  intros [_ Ht]. unfold AbstractID_identifier. destruct (_identifier (data_id item)) as [s|].
  - exists s. simpl in Ht. apply negb_true_iff in Ht. now rewrite Ht.
  - discriminate Ht.
Qed.

Lemma append_item_ok n2h mids src item d s u g dids :
  item_ok src item -> n2h_closed n2h d ->
  append_item n2h mids src item (mkMap d s u g, dids)
  = Returned
      (match action_of n2h mids src item with
       | Skip => mkMap d s u g
       | Link header => mkMap (link_to header (ident_of src item) d) s u g
       | Unresolved => mkMap d s (u ++ [ident_of src item]) g
       end, set_add (ident_of src item) dids).
Proof.
  intros Hok Hc. destruct (AbstractID_identifier_ok src item Hok) as (str & Hs & Hid).
  destruct Hok as [Hsrc _]. unfold append_item, action_of, ident_of.
  rewrite Hid, Hs. rewrite bool_decide_eq_true_2 by exact Hsrc. cbn [negb].
  destruct (set_contains _ mids); [reflexivity|].
  destruct (first_match n2h (d_names item)) as [header|] eqn:Em; [|reflexivity].
  unfold Map_append_to. cbn [m_map].
  pose proof (first_match_closed _ _ _ _ Hc Em) as Hin.
  apply dict_get_In in Hin as [h Hh]. rewrite Hh. reflexivity.
Qed.

Lemma append_loop_ok n2h mids src data : forall d s u g dids,
  Forall (item_ok src) data -> n2h_closed n2h d ->
  append_loop n2h mids src data (mkMap d s u g, dids)
  = Returned (mkMap (apply_links (links n2h mids src data) d) s
                (u ++ unres n2h mids src data) g,
              seen src data dids).
Proof.
  induction data as [|item rest IH]; intros d s u g dids Hall Hc.
  - simpl. now rewrite app_nil_r.
  - apply Forall_cons in Hall as [Hok Hall]. cbn [append_loop links unres seen fold_left].
    rewrite (append_item_ok _ _ _ _ _ _ _ _ _ Hok Hc). cbn [and_then].
    fold (seen src rest (set_add (ident_of src item) dids)).
    destruct (action_of n2h mids src item) as [|header|]; simpl.
    + now apply IH.
    + rewrite IH by (try apply n2h_closed_link; assumption). reflexivity.
    + rewrite IH by assumption. now rewrite <- app_assoc.
Qed.

(** [Map.append] on an accepted batch returns, with the map, the
    unresolved list and the dangled list the plan describes. *)
Lemma Map_append_ok src data self :
  batch_ok src data ->
  let n2h := build_name_to_header (m_map self) in
  let mids := build_map_identifiers src (m_map self) in
  Map_append (Some data) self
  = Returned (mkMap (apply_links (links n2h mids src data) (m_map self)) (Some src)
                (unres n2h mids src data)
                (set_difference mids (seen src data []))).
Proof.
  intros (Hne & Hsrc & Hall) n2h mids. destruct data as [|d0 rest]; [congruence|].
  unfold Map_append. cbn [m_map m_source m_unresolved m_dangled].
  assert (aid_source (data_id d0) = src) as -> by (now inversion Hall as [|? ? [? _] _]).
  rewrite bool_decide_eq_false_2 by exact Hsrc.
  fold n2h. fold mids.
  rewrite (append_loop_ok n2h mids src (d0 :: rest) (m_map self) (Some src) [] [] []
             Hall (build_name_to_header_closed _)).
  reflexivity.
Qed.

(** ** Where the identifiers of a batch end up *)

Lemma count_eq_cons x i l :
  count_eq x (i :: l) = (if Identifier_eq x i then 1 else 0) + count_eq x l.
Proof. unfold count_eq. simpl. now destruct (Identifier_eq x i). Qed.

Lemma links_headers n2h mids src d data :
  n2h_closed n2h d ->
  Forall (fun hi => In (fst hi) (List.map fst d)) (links n2h mids src data).
Proof.
  intros Hc. induction data as [|item rest IH]; simpl; [constructor|].
  unfold action_of. destruct (set_contains _ mids); [exact IH|].
  destruct (first_match n2h (d_names item)) eqn:Em; [|exact IH].
  constructor; [|exact IH]. simpl. eapply first_match_closed; eauto.
Qed.

Lemma occurrences_apply_links x L : forall d,
  Forall (fun hi => In (fst hi) (List.map fst d)) L ->
  occurrences x (apply_links L d) = occurrences x d + count_eq x (List.map snd L).
Proof.
  unfold apply_links. induction L as [|[h i] L IH]; intros d HL; simpl.
  - unfold count_eq. simpl. lia.
  - apply Forall_cons in HL as [Hh HL]. simpl in Hh.
    rewrite IH.
    + rewrite occurrences_link by exact Hh. rewrite count_eq_cons. lia.
    + unfold link_to. rewrite dict_alter_keys. exact HL.
Qed.

Lemma existsb_apply_links p L : forall d,
  Forall (fun hi => In (fst hi) (List.map fst d)) L ->
  existsb p (all_ids (apply_links L d))
  = existsb p (all_ids d) || existsb p (List.map snd L).
Proof.
  unfold apply_links. induction L as [|[h i] L IH]; intros d HL; simpl.
  - now rewrite orb_false_r.
  - apply Forall_cons in HL as [Hh HL]. simpl in Hh.
    rewrite IH.
    + rewrite existsb_all_ids_link by exact Hh. now rewrite orb_assoc.
    + unfold link_to. rewrite dict_alter_keys. exact HL.
Qed.

Lemma name_to_header_apply_links L : forall d,
  build_name_to_header (apply_links L d) = build_name_to_header d.
Proof.
  unfold apply_links. induction L as [|[h i] L IH]; intros d; simpl; [reflexivity|].
  rewrite IH. apply name_to_header_link.
Qed.

Lemma ident_of_eq src a b :
  Identifier_eq (ident_of src a) (ident_of src b) = true
  <-> _identifier (data_id a) = _identifier (data_id b).
Proof.
  rewrite Identifier_eq_true. unfold ident_key, ident_of. simpl.
  split; [now intros [= ->] | now intros ->].
Qed.

(** A record whose identifier no record of [data] has is neither linked
    nor left unresolved by the loop over [data]. *)
Lemma plan_fresh n2h mids src x data :
  ~ In (_identifier (data_id x)) (batch_identifiers data) ->
  count_eq (ident_of src x) (List.map snd (links n2h mids src data)) = 0
  /\ count_eq (ident_of src x) (unres n2h mids src data) = 0.
Proof.
  induction data as [|a rest IH]; simpl; intros Hfresh; [split; reflexivity|].
  assert (Hne : Identifier_eq (ident_of src x) (ident_of src a) = false).
  { apply not_true_is_false. rewrite ident_of_eq. intros E. apply Hfresh. now left. }
  destruct IH as [IH1 IH2]; [intros H; apply Hfresh; now right|].
  rewrite List.map_app, !count_eq_app, IH1, IH2.
  destruct (action_of n2h mids src a); unfold count_eq; simpl; rewrite ?Hne; split; reflexivity.
Qed.

(** With pairwise distinct identifiers, the plan holds the identifier of
    a record exactly as often as the record's own action says. *)
Lemma plan_count n2h mids src item data :
  NoDup (batch_identifiers data) -> In item data ->
  count_eq (ident_of src item) (List.map snd (links n2h mids src data))
  = match action_of n2h mids src item with Link _ => 1 | _ => 0 end
  /\ count_eq (ident_of src item) (unres n2h mids src data)
     = match action_of n2h mids src item with Unresolved => 1 | _ => 0 end.
Proof.
  induction data as [|a rest IH]; simpl; intros Hnd Hin; [destruct Hin|].
  apply NoDup_cons in Hnd as [Ha Hnd]. rewrite list_elem_of_In in Ha.
  rewrite List.map_app, !count_eq_app.
  destruct Hin as [->|Hin].
  - destruct (plan_fresh n2h mids src item rest Ha) as [-> ->].
    destruct (action_of n2h mids src item); unfold count_eq; simpl;
      rewrite ?Identifier_eq_refl; split; reflexivity.
  - destruct (IH Hnd Hin) as [-> ->].
    assert (Hne : Identifier_eq (ident_of src item) (ident_of src a) = false).
    { apply not_true_is_false. rewrite ident_of_eq. intros E. apply Ha.
      rewrite <- E. unfold batch_identifiers. now apply (in_map (fun i => _identifier (data_id i))). }
    destruct (action_of n2h mids src a); unfold count_eq; simpl; rewrite ?Hne; split; reflexivity.
Qed.


(** ** Appending the same batch twice *)

Lemma links_source n2h mids src data :
  Forall (fun i => id_source i = src) (List.map snd (links n2h mids src data)).
Proof.
  induction data as [|item rest IH]; simpl; [constructor|].
  destruct (action_of n2h mids src item); simpl; try exact IH.
  constructor; [reflexivity | exact IH].
Qed.

Lemma existsb_same_in_source src x l :
  Forall (fun i => id_source i = src) l ->
  existsb (same_in_source src x) l = set_contains x l.
Proof.
  induction 1 as [|i l Hi _ IH]; simpl; [reflexivity|].
  rewrite IH. unfold same_in_source. now rewrite bool_decide_eq_true_2.
Qed.

(** [map_identifiers] of the map the plan produces. *)
Lemma contains_map_identifiers_after n2h mids0 src data d x :
  n2h_closed n2h d ->
  let L := links n2h mids0 src data in
  set_contains x (build_map_identifiers src (apply_links L d))
  = set_contains x (build_map_identifiers src d) || set_contains x (List.map snd L).
Proof.
  intros Hc L. subst L. rewrite !contains_map_identifiers.
  rewrite existsb_apply_links by (apply links_headers; exact Hc).
  now rewrite (existsb_same_in_source src x _ (links_source n2h mids0 src data)).
Qed.

Lemma links_contains n2h mids src data item :
  In item data ->
  (exists header, action_of n2h mids src item = Link header) ->
  set_contains (ident_of src item) (List.map snd (links n2h mids src data)) = true.
Proof.
  induction data as [|a rest IH]; simpl; intros Hin Hact; [destruct Hin|].
  rewrite List.map_app, set_contains_app. destruct Hin as [->|Hin].
  - destruct Hact as [header ->]. simpl. unfold set_contains. simpl.
    now rewrite Identifier_eq_refl.
  - rewrite (IH Hin Hact). apply orb_true_r.
Qed.

Lemma contains_seen src x data : forall dids,
  set_contains x (seen src data dids)
  = set_contains x dids || existsb (fun item => Identifier_eq x (ident_of src item)) data.
Proof.
  unfold seen. induction data as [|a rest IH]; intros dids; simpl.
  - now rewrite orb_false_r.
  - now rewrite IH, set_contains_add, orb_assoc.
Qed.

Lemma links_seen n2h mids src x data :
  set_contains x (List.map snd (links n2h mids src data)) = true ->
  existsb (fun item => Identifier_eq x (ident_of src item)) data = true.
Proof.
  induction data as [|a rest IH]; simpl; [discriminate|].
  rewrite List.map_app, set_contains_app, orb_true_iff. intros [H|H].
  - destruct (action_of n2h mids src a); try discriminate H.
    unfold set_contains in H. simpl in H. rewrite orb_false_r in H. now rewrite H.
  - rewrite (IH H). apply orb_true_r.
Qed.

Lemma unres_In n2h mids src data x :
  In x (unres n2h mids src data) ->
  exists item, In item data /\ x = ident_of src item
               /\ action_of n2h mids src item = Unresolved.
Proof.
  induction data as [|a rest IH]; simpl; [intros []|].
  rewrite in_app_iff. intros [H|H].
  - destruct (action_of n2h mids src a) eqn:E; try destruct H as [<-|[]]; try destruct H.
    exists a. repeat split; [now left | exact E].
  - destruct (IH H) as (item & Hin & Hx & Ha). exists item. repeat split; auto.
Qed.

(** The plan of a second run, whose [map_identifiers] is [mids'], read
    off the plan of the first run: nothing is linked, and the unresolved
    identifiers are those of the first run that [mids'] does not hold. *)
Lemma plan_again n2h mids mids' src data :
  (forall item, In item data ->
     set_contains (ident_of src item) mids' = true
     \/ action_of n2h mids src item = Unresolved) ->
  links n2h mids' src data = []
  /\ unres n2h mids' src data
     = List.filter (fun x => negb (set_contains x mids')) (unres n2h mids src data).
Proof.
  induction data as [|a rest IH]; simpl; intros H; [split; reflexivity|].
  destruct IH as [IH1 IH2]; [intros item Hin; apply H; now right|].
  rewrite IH1, IH2, List.filter_app.
  specialize (H a (or_introl eq_refl)).
  unfold action_of in *.
  destruct (set_contains (ident_of src a) mids') eqn:E'.
  - simpl. split; [reflexivity|].
    destruct (set_contains (ident_of src a) mids); [reflexivity|].
    destruct (first_match n2h (d_names a)); [reflexivity|].
    simpl. now rewrite E'.
  - destruct H as [H|H]; [discriminate H|].
    destruct (set_contains (ident_of src a) mids); [discriminate H|].
    destruct (first_match n2h (d_names a)); [discriminate H|].
    simpl. rewrite E'. split; reflexivity.
Qed.

Lemma filter_all_true {A} (f : A -> bool) (l : list A) :
  (forall x, In x l -> f x = true) -> List.filter f l = l.
Proof.
  induction l as [|a l IH]; simpl; intros H; [reflexivity|].
  rewrite (H a (or_introl eq_refl)), IH; [reflexivity|]. intros x Hx. apply H. now right.
Qed.

(** C1, as the code has it: a second [append] of the same accepted batch
    returns and links nothing, the map stays as the first call left it;
    its unresolved list repeats the first call's unresolved identifiers
    that are still unmapped (all of them when the identifiers of the
    batch are pairwise distinct), and its dangled list has the members of
    the first call's dangled list. So each of the two lists is empty the
    second time if it was empty the first time. *)
Theorem append_twice (src : Source.t) (data : Reader) (self : Map) :
  batch_ok src data ->
  exists self1 self2,
    Map_append (Some data) self = Returned self1
    /\ Map_append (Some data) self1 = Returned self2
    /\ m_map self2 = m_map self1
    /\ m_unresolved self2
       = List.filter
           (fun x => negb (set_contains x (build_map_identifiers src (m_map self1))))
           (m_unresolved self1)
    /\ (forall x, set_contains x (m_dangled self2) = set_contains x (m_dangled self1))
    /\ (m_unresolved self1 = [] -> m_unresolved self2 = [])
    /\ (m_dangled self1 = [] -> m_dangled self2 = [])
    /\ (NoDup (batch_identifiers data) -> m_unresolved self2 = m_unresolved self1).
Proof.
  intros Hok.
  set (d := m_map self).
  set (n2h := build_name_to_header d).
  set (mids := build_map_identifiers src d).
  set (L := links n2h mids src data).
  set (self1 := mkMap (apply_links L d) (Some src) (unres n2h mids src data)
                  (set_difference mids (seen src data []))).
  set (mids' := build_map_identifiers src (apply_links L d)).
  assert (Hc : n2h_closed n2h d) by apply build_name_to_header_closed.
  assert (Hmids' : forall x, set_contains x mids'
                             = set_contains x mids || set_contains x (List.map snd L)).
  { intros x. apply contains_map_identifiers_after. exact Hc. }
  assert (Hplan : forall item, In item data ->
            set_contains (ident_of src item) mids' = true
            \/ action_of n2h mids src item = Unresolved).
  { intros item Hin. rewrite Hmids'.
    destruct (action_of n2h mids src item) as [|header|] eqn:Ea; [| |now right].
    - left. unfold action_of in Ea.
      destruct (set_contains (ident_of src item) mids); [reflexivity|].
      destruct (first_match n2h (d_names item)); discriminate Ea.
    - left. unfold L. rewrite (links_contains n2h mids src data item Hin) by eauto.
      apply orb_true_r. }
  destruct (plan_again n2h mids mids' src data Hplan) as [HL2 HU2].
  assert (H2 : Map_append (Some data) self1
               = Returned (mkMap (apply_links L d) (Some src)
                             (List.filter (fun x => negb (set_contains x mids'))
                                (unres n2h mids src data))
                             (set_difference mids' (seen src data [])))).
  { rewrite (Map_append_ok src data self1 Hok). cbn [m_map self1].
    rewrite name_to_header_apply_links. fold n2h. fold mids'.
    rewrite HL2, HU2. reflexivity. }
  assert (Hdangled : forall x,
            set_contains x (set_difference mids' (seen src data []))
            = set_contains x (set_difference mids (seen src data []))).
  { intros x. rewrite !set_contains_difference, Hmids'.
    destruct (set_contains x (List.map snd L)) eqn:EL; [|now rewrite orb_false_r].
    apply links_seen in EL. rewrite contains_seen, EL. simpl.
    now rewrite !andb_false_r. }
  exists self1, (mkMap (apply_links L d) (Some src)
                   (List.filter (fun x => negb (set_contains x mids'))
                      (unres n2h mids src data))
                   (set_difference mids' (seen src data []))).
  split; [apply (Map_append_ok src data self Hok)|].
  split; [exact H2|]. cbn [m_map m_unresolved m_dangled self1].
  split; [reflexivity|]. split; [reflexivity|]. split; [exact Hdangled|].
  split; [intros ->; reflexivity|]. split.
  - intros E. apply set_contains_nil_inv. intros x. now rewrite Hdangled, E.
  - intros Hnd. apply filter_all_true. intros x Hx.
    destruct (unres_In _ _ _ _ _ Hx) as (item & Hin & -> & Ha).
    apply negb_true_iff. rewrite Hmids'.
    destruct (plan_count n2h mids src item data Hnd Hin) as [Hcount _].
    rewrite Ha in Hcount. fold L in Hcount.
    rewrite (count_eq_contains _ (List.map snd L)), Hcount.
    unfold action_of in Ha.
    destruct (set_contains (ident_of src item) mids); [discriminate Ha | reflexivity].
Qed.

(** ** A batch of mixed sources *)




(** ** The empty batch *)

(** C4, as the code has it: [append] of [None] or of an empty collection
    returns without touching the Headers, but it is not a no-op: it has
    already reset the stored source to [None] and emptied the unresolved
    and the dangled list. *)
Theorem append_empty_resets (self : Map) :
  Map_append None self = Returned (mkMap (m_map self) None [] [])
  /\ Map_append (Some []) self = Returned (mkMap (m_map self) None [] []).
Proof. split; reflexivity. Qed.

(** ** delete *)

Lemma delete_loop_spec x : forall n (ids : list Identifier) b,
  n <= length ids ->
  delete_loop x n ids b
  = inr (List.filter (fun y => negb (Identifier_eq y x)) (take n ids) ++ drop n ids,
         b || existsb (fun y => Identifier_eq y x) (take n ids)).
Proof.
  induction n as [|n IH]; intros ids b Hn.
  - simpl. now rewrite drop_0, orb_false_r.
  - cbn [delete_loop].
    destruct (lookup_lt_is_Some_2 ids n ltac:(lia)) as [y Hy]. rewrite Hy.
    rewrite (take_S_r ids n y Hy), List.filter_app, existsb_app. cbn [List.filter existsb].
    assert (Hlen : length (take n ids) = n) by (rewrite length_take; lia).
    destruct (Identifier_eq y x) eqn:E; cbn [negb].
    + rewrite IH by (rewrite length_delete by eauto; lia).
      rewrite delete_take_drop.
      rewrite (take_app_length' (take n ids) (drop (S n) ids) n) by now rewrite Hlen.
      rewrite (drop_app_length' (take n ids) (drop (S n) ids) n) by now rewrite Hlen.
      rewrite app_nil_r. simpl. now rewrite !orb_true_r.
    + rewrite IH by lia. rewrite (drop_S ids y n Hy).
      rewrite <- app_assoc. simpl. now rewrite !orb_false_r.
Qed.

Lemma without_none x ids :
  existsb (fun y => Identifier_eq y x) ids = false -> without x ids = ids.
Proof.
  unfold without. induction ids as [|y ids IH]; simpl; [reflexivity|].
  intros H. apply orb_false_iff in H as [Hy H]. rewrite Hy. simpl. now rewrite IH.
Qed.

Lemma without_clean x ids : existsb (fun y => Identifier_eq y x) (without x ids) = false.
Proof.
  unfold without. induction ids as [|y ids IH]; simpl; [reflexivity|].
  destruct (Identifier_eq y x) eqn:E; simpl; [exact IH | now rewrite E].
Qed.

Lemma without_nil_iff x ids :
  without x ids = [] <-> Forall (fun y => Identifier_eq y x = true) ids.
Proof.
  unfold without. induction ids as [|y ids IH]; simpl.
  - split; [constructor | reflexivity].
  - destruct (Identifier_eq y x) eqn:E; simpl.
    + rewrite IH. split; [now constructor | now intros ?%Forall_cons].
    + split; [discriminate | intros [? _]%Forall_cons; congruence].
Qed.

Lemma Map_delete_found header ident self h :
  dict_get header (m_map self) = Some h ->
  Map_delete header ident self
  = if negb (existsb (fun y => Identifier_eq y ident) (identifiers h)) then Returned self
    else if length (without ident (identifiers h)) =? 0
    then Returned (set_m_map (dict_del header (m_map self)) self)
    else Returned (set_m_map (dict_alter (fun _ => after_delete ident h) header (m_map self))
                     self).
Proof.
  intros Hget. unfold Map_delete. rewrite Hget.
  rewrite delete_loop_spec by lia. rewrite firstn_all, drop_all, app_nil_r. cbn [orb].
  fold (without ident (identifiers h)).
  destruct (existsb (fun y => Identifier_eq y ident) (identifiers h)) eqn:E; cbn [negb].
  - unfold after_delete. cbn zeta.
    destruct (h_source (set_identifiers (without ident (identifiers h)) h)) as [src|];
      [destruct (Identifier_eq src ident)|]; reflexivity.
  - rewrite (without_none _ _ E).
    rewrite (dict_alter_id _ header (m_map self) h Hget) by (now destruct h).
    now destruct self.
Qed.

Lemma after_delete_identifiers ident h :
  identifiers (after_delete ident h) = without ident (identifiers h).
Proof.
  unfold after_delete. cbn zeta.
  destruct (h_source (set_identifiers (without ident (identifiers h)) h)) as [src|];
    [destruct (Identifier_eq src ident)|]; reflexivity.
Qed.

(** C5, as the code has it: [delete] raises [KeyError] for a header that
    is not in the map, and otherwise returns. A second [delete] of the
    same identifier is a no-op as long as the header is still in the map.
    When the first call removed the header, which it does exactly when
    the header held identifiers and all of them were the deleted one, the
    second call raises [KeyError] and leaves the map as it is. *)
Theorem delete_twice (header : string) (ident : Identifier) (self : Map) :
  dict_wf (m_map self) ->
  match dict_get header (m_map self) with
  | None => Map_delete header ident self = Raised (KeyError header) self
  | Some h =>
      exists self1,
        Map_delete header ident self = Returned self1
        /\ (dict_get header (m_map self1) <> None ->
            Map_delete header ident self1 = Returned self1)
        /\ (dict_get header (m_map self1) = None ->
            Map_delete header ident self1 = Raised (KeyError header) self1)
        /\ (dict_get header (m_map self1) = None
            <-> identifiers h <> []
                /\ Forall (fun y => Identifier_eq y ident = true) (identifiers h))
  end.
Proof.
  intros Hwf. destruct (dict_get header (m_map self)) as [h|] eqn:Hget.
  2:{ unfold Map_delete. now rewrite Hget. }
  assert (Habsent : forall s, dict_get header (m_map s) = None ->
                              Map_delete header ident s = Raised (KeyError header) s).
  { intros s Hs. unfold Map_delete. now rewrite Hs. }
  rewrite (Map_delete_found header ident self h Hget).
  destruct (existsb (fun y => Identifier_eq y ident) (identifiers h)) eqn:E; cbn [negb].
  - destruct (length (without ident (identifiers h)) =? 0) eqn:El.
    + apply Nat.eqb_eq, length_zero_iff_nil in El.
      eexists. split; [reflexivity|]. cbn [m_map set_m_map].
      pose proof (dict_get_del header (m_map self) Hwf) as Hdel.
      split; [congruence|]. split; [intros _; apply Habsent; exact Hdel|].
      split; [intros _|intros _; exact Hdel].
      split; [|now apply without_nil_iff].
      intros Hnil. rewrite Hnil in E. discriminate E.
    + apply Nat.eqb_neq in El.
      eexists. split; [reflexivity|]. cbn [m_map set_m_map].
      assert (Hget1 : dict_get header
                        (dict_alter (fun _ => after_delete ident h) header (m_map self))
                      = Some (after_delete ident h))
        by (now rewrite dict_get_alter, Hget).
      split; [|split; [congruence|]].
      * intros _.
        rewrite (Map_delete_found header ident _ (after_delete ident h)) by exact Hget1.
        now rewrite after_delete_identifiers, without_clean.
      * rewrite Hget1. split; [discriminate|]. intros [_ Hall].
        apply without_nil_iff in Hall. rewrite Hall in El. now contradiction El.
  - exists self. split; [reflexivity|]. rewrite Hget.
    split; [intros _|split; [discriminate|]].
    + rewrite (Map_delete_found header ident self h Hget), E. reflexivity.
    + split; [discriminate|]. intros [Hne Hall].
      destruct (identifiers h) as [|y ids]; [congruence|].
      apply Forall_cons in Hall as [Hy _]. simpl in E. rewrite Hy in E. discriminate E.
Qed.

(** * Further theorems about the identifier map *)

(** ** new, append_to and delete *)

Lemma dict_get_app key d1 d2 :
  dict_get key (d1 ++ d2)
  = match dict_get key d1 with Some h => Some h | None => dict_get key d2 end.
Proof.
  induction d1 as [|[k h] d1 IH]; simpl; [reflexivity|].
  destruct (String.eqb key k); [reflexivity | exact IH].
Qed.

Lemma dict_get_alter_ne f key key' d :
  key' <> key -> dict_get key' (dict_alter f key d) = dict_get key' d.
Proof.
  intros Hne. induction d as [|[k h] d IH]; simpl; [reflexivity|].
  destruct (String.eqb key k) eqn:E; simpl.
  - apply String.eqb_eq in E. subst k.
    destruct (String.eqb key' key) eqn:E'; [apply String.eqb_eq in E'; congruence|].
    reflexivity.
  - destruct (String.eqb key' k); [reflexivity | exact IH].
Qed.

Lemma dict_get_del_ne key key' d :
  key' <> key -> dict_get key' (dict_del key d) = dict_get key' d.
Proof.
  intros Hne. induction d as [|[k h] d IH]; simpl; [reflexivity|].
  destruct (String.eqb key k) eqn:E; simpl.
  - apply String.eqb_eq in E. subst k.
    destruct (String.eqb key' key) eqn:E'; [apply String.eqb_eq in E'; congruence|].
    reflexivity.
  - destruct (String.eqb key' k); [reflexivity | exact IH].
Qed.

Lemma dict_alter_compose f g key d :
  dict_alter f key (dict_alter g key d) = dict_alter (fun h => f (g h)) key d.
Proof.
  induction d as [|[k h] d IH]; simpl; [reflexivity|].
  destruct (String.eqb key k) eqn:E; simpl; rewrite E; [reflexivity | now rewrite IH].
Qed.

Lemma dict_alter_ext f g key d h :
  dict_get key d = Some h -> f h = g h -> dict_alter f key d = dict_alter g key d.
Proof.
  induction d as [|[k h'] d IH]; simpl; [reflexivity|]. intros Hget Hfg.
  destruct (String.eqb key k).
  - inversion Hget; subst. now rewrite Hfg.
  - now rewrite IH.
Qed.

Lemma dict_del_app_new key v d :
  dict_get key d = None -> dict_del key (d ++ [(key, v)]) = d.
Proof.
  induction d as [|[k h] d IH]; simpl.
  - now rewrite String.eqb_refl.
  - destruct (String.eqb key k); [discriminate|]. intros H. now rewrite IH.
Qed.

(** X1: [new] on a header that is already a key raises [KeyError] and
    leaves the Map as it is. On a fresh header it returns; the header is
    then the last key, with a Header that holds exactly the given
    identifier and validity, no names and no source; every other key
    reads as before and distinct keys stay distinct. *)
Theorem Map_new_spec (header : string) (ident : Identifier) (valid : bool) (self : Map) :
  match dict_get header (m_map self) with
  | Some _ =>
      Map_new header ident valid self
      = Raised (KeyError "header key already exists") self
  | None =>
      Map_new header ident valid self
      = Returned (set_m_map (m_map self ++ [(header, mkHeader valid header None [] [ident])])
                    self)
      /\ dict_get header (m_map self ++ [(header, mkHeader valid header None [] [ident])])
         = Some (mkHeader valid header None [] [ident])
      /\ (forall k, k <> header ->
            dict_get k (m_map self ++ [(header, mkHeader valid header None [] [ident])])
            = dict_get k (m_map self))
      /\ (dict_wf (m_map self) ->
          dict_wf (m_map self ++ [(header, mkHeader valid header None [] [ident])]))
  end.
Proof.
  unfold Map_new. destruct (dict_get header (m_map self)) eqn:Hget; [reflexivity|].
  split; [reflexivity|]. split; [|split].
  - rewrite dict_get_app, Hget. simpl. now rewrite String.eqb_refl.
  - intros k Hk. rewrite dict_get_app. destruct (dict_get k (m_map self)); [reflexivity|].
    simpl. apply String.eqb_neq in Hk. now rewrite Hk.
  - unfold dict_wf. rewrite List.map_app. simpl. intros Hwf.
    apply NoDup_app. split; [exact Hwf|]. split.
    + intros x Hx [->|[]]%list_elem_of_In.
      apply list_elem_of_In, dict_get_In in Hx. rewrite Hget in Hx. now destruct Hx.
    + apply NoDup_singleton.
Qed.

(** X2: [new] followed by [delete] of the same header and identifier
    gives back the Map as it was: the Header loses its only identifier
    and is removed. *)
Theorem Map_new_delete (header : string) (ident : Identifier) (valid : bool)
    (self self' : Map) :
  Map_new header ident valid self = Returned self' ->
  Map_delete header ident self' = Returned self.
Proof.
  unfold Map_new. destruct (dict_get header (m_map self)) eqn:Hget; [discriminate|].
  intros [= <-].
  rewrite (Map_delete_found header ident _ (mkHeader valid header None [] [ident])).
  2:{ cbn [m_map set_m_map]. rewrite dict_get_app, Hget. simpl. now rewrite String.eqb_refl. }
  cbn [identifiers existsb without List.filter]. rewrite Identifier_eq_refl.
  cbn [negb orb length Nat.eqb m_map set_m_map].
  rewrite (dict_del_app_new header _ (m_map self) Hget). now destruct self.
Qed.

(** X3: [append_to] raises [KeyError] for a header that is not a key and
    leaves the Map as it is. For a key it returns: that Header holds its
    earlier identifiers followed by the new one and is otherwise the
    same, and every other key reads as before. Appending an identifier
    the Header did not hold and deleting it again restores the Map,
    unless the identifier is the Header's designated source, which the
    delete clears. *)
Theorem Map_append_to_spec (header : string) (ident : Identifier) (self : Map) :
  match dict_get header (m_map self) with
  | None => Map_append_to header ident self = Raised (KeyError header) self
  | Some h =>
      exists self',
        Map_append_to header ident self = Returned self'
        /\ dict_get header (m_map self')
           = Some (set_identifiers (identifiers h ++ [ident]) h)
        /\ (forall k, k <> header -> dict_get k (m_map self') = dict_get k (m_map self))
        /\ extends (m_map self) (m_map self')
        /\ (existsb (fun y => Identifier_eq y ident) (identifiers h) = false ->
            identifiers h <> [] ->
            Map_delete header ident self'
            = Returned
                (set_m_map
                   (dict_alter
                      (fun h => match h_source h with
                                | Some src => if Identifier_eq src ident
                                              then set_h_source None h else h
                                | None => h
                                end) header (m_map self)) self))
  end.
Proof.
  unfold Map_append_to. destruct (dict_get header (m_map self)) as [h|] eqn:Hget;
    [|reflexivity].
  eexists. split; [reflexivity|]. cbn [m_map set_m_map].
  split; [now rewrite dict_get_alter, Hget|].
  split; [intros k Hk; now apply dict_get_alter_ne|].
  split; [apply (extends_link header ident)|].
  intros Hfresh Hne.
  rewrite (Map_delete_found header ident _ (set_identifiers (identifiers h ++ [ident]) h)).
  2:{ cbn [m_map set_m_map]. now rewrite dict_get_alter, Hget. }
  assert (Hw : without ident (identifiers h ++ [ident]) = identifiers h).
  { unfold without. rewrite List.filter_app. cbn [List.filter].
    rewrite Identifier_eq_refl. cbn [negb]. rewrite app_nil_r.
    now apply without_none. }
  cbn [identifiers set_identifiers]. rewrite existsb_app. cbn [existsb].
  rewrite Identifier_eq_refl, orb_true_r. cbn [negb orb].
  rewrite Hw.
  assert ((length (identifiers h) =? 0) = false) as ->
    by (apply Nat.eqb_neq; now rewrite length_zero_iff_nil).
  unfold set_m_map. cbn [m_map m_source m_unresolved m_dangled]. f_equal. f_equal.
  rewrite dict_alter_compose. apply (dict_alter_ext _ _ header (m_map self) h Hget).
  unfold after_delete. cbn [identifiers set_identifiers]. rewrite Hw.
  destruct h as [v hd [src|] nms ids0]; simpl; [|reflexivity].
  now destruct (Identifier_eq src ident).
Qed.

(** ** delete and delete_identifier *)

Lemma dict_get_middle key h pre rest :
  ~ In key (List.map fst pre) -> dict_get key (pre ++ (key, h) :: rest) = Some h.
Proof.
  intros Hpre. rewrite dict_get_app.
  destruct (dict_get key pre) eqn:G.
  - exfalso. apply Hpre, dict_get_In. rewrite G. eauto.
  - simpl. now rewrite String.eqb_refl.
Qed.

Lemma dict_alter_middle f key h pre rest :
  ~ In key (List.map fst pre) ->
  dict_alter f key (pre ++ (key, h) :: rest) = pre ++ (key, f h) :: rest.
Proof.
  induction pre as [|[k h0] pre IH]; simpl; intros Hpre.
  - now rewrite String.eqb_refl.
  - destruct (String.eqb key k) eqn:E.
    + apply String.eqb_eq in E. subst. exfalso. apply Hpre. now left.
    + rewrite IH; [reflexivity|]. intros H. apply Hpre. now right.
Qed.

Lemma dict_del_middle key h pre rest :
  ~ In key (List.map fst pre) ->
  dict_del key (pre ++ (key, h) :: rest) = pre ++ rest.
Proof.
  induction pre as [|[k h0] pre IH]; simpl; intros Hpre.
  - now rewrite String.eqb_refl.
  - destruct (String.eqb key k) eqn:E.
    + apply String.eqb_eq in E. subst. exfalso. apply Hpre. now left.
    + rewrite IH; [reflexivity|]. intros H. apply Hpre. now right.
Qed.

(** [delete] on the entry of a key, wherever it sits in the dict. *)
Lemma Map_delete_at key h pre rest ident s u g :
  ~ In key (List.map fst pre) ->
  Map_delete key ident (mkMap (pre ++ (key, h) :: rest) s u g)
  = Returned (mkMap (pre ++ purge_entry ident (key, h) ++ rest) s u g).
Proof.
  intros Hpre.
  rewrite (Map_delete_found key ident _ h) by (now apply dict_get_middle).
  unfold purge_entry. cbn [fst snd m_map set_m_map m_source m_unresolved m_dangled].
  destruct (existsb (fun y => Identifier_eq y ident) (identifiers h)); cbn [negb];
    [|reflexivity].
  destruct (length (without ident (identifiers h)) =? 0).
  - now rewrite dict_del_middle.
  - now rewrite dict_alter_middle.
Qed.

Lemma purge_entry_keys ident kh k :
  In k (List.map fst (purge_entry ident kh)) -> k = fst kh.
Proof.
  unfold purge_entry.
  destruct (existsb _ _); [destruct (_ =? 0)|]; simpl; intros H;
    try destruct H as [<-|[]]; try reflexivity; destruct H.
Qed.

Lemma delete_in_spec ident s u g rest : forall pre,
  NoDup (List.map fst (pre ++ rest)) ->
  delete_in (List.map fst rest) ident (mkMap (pre ++ rest) s u g)
  = Returned (mkMap (pre ++ purge ident rest) s u g).
Proof.
  induction rest as [|[k h] rest IH]; intros pre Hnd; simpl.
  - reflexivity.
  - assert (Hpre : ~ In k (List.map fst pre)).
    { rewrite List.map_app in Hnd. apply NoDup_app in Hnd as (_ & Hdis & _).
      intros Hin. apply (Hdis k); apply list_elem_of_In; [exact Hin | now left]. }
    rewrite (Map_delete_at k h pre rest ident s u g Hpre). cbn [and_then].
    rewrite app_assoc. rewrite IH; [now rewrite <- app_assoc|].
    rewrite !List.map_app in *. simpl in Hnd.
    apply NoDup_app in Hnd as (Hnp & Hdis & Hnr). apply NoDup_cons in Hnr as [Hk Hnr].
    apply NoDup_app. split; [|split; [|exact Hnr]].
    + apply NoDup_app. split; [exact Hnp|]. split.
      * intros x Hx Hx'. apply list_elem_of_In, purge_entry_keys in Hx'. simpl in Hx'.
        subst x. apply Hpre. now apply list_elem_of_In.
      * unfold purge_entry. destruct (existsb _ _); [destruct (_ =? 0)|]; simpl;
          try apply NoDup_singleton; apply NoDup_nil_2.
    + intros x [Hx|Hx]%elem_of_app Hx'.
      * apply (Hdis x Hx). now right.
      * apply list_elem_of_In, purge_entry_keys in Hx. simpl in Hx. subst x.
        now apply Hk.
Qed.

Lemma all_ids_app d1 d2 : all_ids (d1 ++ d2) = all_ids d1 ++ all_ids d2.
Proof. unfold all_ids. now rewrite List.map_app, concat_app. Qed.

Lemma after_delete_fields ident h :
  names (after_delete ident h) = names h
  /\ h_valid (after_delete ident h) = h_valid h
  /\ h_header (after_delete ident h) = h_header h
  /\ h_source (after_delete ident h)
     = match h_source h with
       | Some src => if Identifier_eq src ident then None else Some src
       | None => None
       end.
Proof.
  unfold after_delete. destruct h as [v hd [src|] nms ids]; simpl; [|repeat split].
  destruct (Identifier_eq src ident); repeat split.
Qed.

Lemma all_ids_purge ident d : all_ids (purge ident d) = without ident (all_ids d).
Proof.
  unfold purge. induction d as [|[k h] d IH]; [reflexivity|].
  cbn [flat_map]. rewrite all_ids_app, IH.
  change (all_ids ((k, h) :: d)) with (identifiers h ++ all_ids d).
  unfold without at 2. rewrite List.filter_app. f_equal.
  unfold purge_entry. cbn [fst snd].
  destruct (existsb (fun y => Identifier_eq y ident) (identifiers h)) eqn:E.
  - destruct (length (without ident (identifiers h)) =? 0) eqn:El.
    + apply Nat.eqb_eq, length_zero_iff_nil in El. unfold without in El. now rewrite El.
    + unfold all_ids. simpl. rewrite app_nil_r. apply after_delete_identifiers.
  - unfold all_ids. simpl. rewrite app_nil_r. symmetry. now apply without_none.
Qed.

Lemma count_eq_without x ident l :
  count_eq x (without ident l)
  = if Identifier_eq x ident then 0 else count_eq x l.
Proof.
  unfold without. induction l as [|y l IH]; simpl.
  - unfold count_eq. simpl. now destruct (Identifier_eq x ident).
  - destruct (Identifier_eq y ident) eqn:Ey; cbn [negb].
    + rewrite IH, count_eq_cons.
      destruct (Identifier_eq x ident) eqn:Ex; [reflexivity|].
      assert (Identifier_eq x y = false) as ->; [|reflexivity].
      apply not_true_is_false. intros Exy.
      apply Identifier_eq_true in Exy, Ey. rewrite <- Exy in Ey.
      apply Identifier_eq_true in Ey. congruence.
    + rewrite !count_eq_cons, IH.
      destruct (Identifier_eq x ident) eqn:Ex; [|reflexivity].
      assert (Identifier_eq x y = false) as ->; [|reflexivity].
      apply not_true_is_false. intros Exy.
      apply Identifier_eq_true in Exy, Ex. rewrite Exy in Ex.
      apply Identifier_eq_true in Ex. congruence.
Qed.

Lemma purge_no_empty ident d : no_empty_header d -> no_empty_header (purge ident d).
Proof.
  unfold no_empty_header, purge. induction 1 as [|[k h] d Hh _ IH]; [constructor|].
  cbn [flat_map]. apply Forall_app. split; [|exact IH].
  unfold purge_entry. cbn [fst snd] in *.
  destruct (existsb _ _); [destruct (_ =? 0) eqn:El|].
  - constructor.
  - constructor; [|constructor]. cbn [snd]. rewrite after_delete_identifiers.
    apply Nat.eqb_neq in El. now rewrite <- length_zero_iff_nil.
  - constructor; [exact Hh | constructor].
Qed.

Lemma purge_keys ident d k : In k (List.map fst (purge ident d)) -> In k (List.map fst d).
Proof.
  unfold purge. induction d as [|kh d IH]; [intros []|].
  cbn [flat_map]. rewrite List.map_app, in_app_iff. intros [H|H].
  - apply purge_entry_keys in H. subst. now left.
  - right. now apply IH.
Qed.

(** X4: [delete_identifier] on a Map with distinct keys never raises.
    Afterwards the identifier occurs in no Header, every other
    identifier occurs as often as before, no key is new, the unresolved
    and dangled lists and the stored source are untouched, and a Map
    without empty Headers is still without empty Headers. *)
Theorem Map_delete_identifier_spec (ident : Identifier) (self : Map) :
  dict_wf (m_map self) ->
  exists d',
    Map_delete_identifier ident self = Returned (set_m_map d' self)
    /\ all_ids d' = without ident (all_ids (m_map self))
    /\ (forall x, Identifier_eq x ident = true -> occurrences x d' = 0)
    /\ (forall y, Identifier_eq y ident = false ->
                  occurrences y d' = occurrences y (m_map self))
    /\ (forall k, In k (List.map fst d') -> In k (List.map fst (m_map self)))
    /\ (no_empty_header (m_map self) -> no_empty_header d').
Proof.
  intros Hwf. exists (purge ident (m_map self)).
  split.
  { unfold Map_delete_identifier. destruct self as [d s u g]. cbn [m_map].
    exact (delete_in_spec ident s u g d [] Hwf). }
  split; [apply all_ids_purge|].
  split; [|split; [|split]].
  - intros x Hx. unfold occurrences. now rewrite all_ids_purge, count_eq_without, Hx.
  - intros y Hy. unfold occurrences. now rewrite all_ids_purge, count_eq_without, Hy.
  - intros k. apply purge_keys.
  - apply purge_no_empty.
Qed.

(** X5: [delete] touches one Header only. For a key of a Map with
    distinct keys it returns; every other key reads as before, and the
    Header, when it is still there, has lost exactly the identifiers
    [==] to the deleted one, keeps its names, validity and header
    string, and has its designated source cleared only if some identifier
    was removed and the source is [==] to the deleted identifier. *)
Theorem Map_delete_frame (header : string) (ident : Identifier) (self : Map) (h : Header) :
  dict_wf (m_map self) ->
  dict_get header (m_map self) = Some h ->
  exists d',
    Map_delete header ident self = Returned (set_m_map d' self)
    /\ (forall k, k <> header -> dict_get k d' = dict_get k (m_map self))
    /\ match dict_get header d' with
       | None => True
       | Some h' =>
           identifiers h' = without ident (identifiers h)
           /\ names h' = names h /\ h_valid h' = h_valid h /\ h_header h' = h_header h
           /\ h_source h'
              = if existsb (fun y => Identifier_eq y ident) (identifiers h)
                then match h_source h with
                     | Some src => if Identifier_eq src ident then None else Some src
                     | None => None
                     end
                else h_source h
       end.
Proof.
  intros Hwf Hget. rewrite (Map_delete_found header ident self h Hget).
  destruct (existsb (fun y => Identifier_eq y ident) (identifiers h)) eqn:E; cbn [negb].
  - destruct (length (without ident (identifiers h)) =? 0).
    + eexists. split; [reflexivity|]. split.
      * intros k Hk. now apply dict_get_del_ne.
      * now rewrite dict_get_del.
    + eexists. split; [reflexivity|]. split.
      * intros k Hk. now apply dict_get_alter_ne.
      * rewrite dict_get_alter, Hget. cbn [fmap option_fmap option_map].
        split; [apply after_delete_identifiers | apply after_delete_fields].
  - exists (m_map self). split; [now destruct self|]. split; [reflexivity|].
    rewrite Hget. repeat split. symmetry. now apply without_none.
Qed.

(** ** What append links, queues and leaves alone *)

Lemma add_names_lookup header nms s : forall acc : gmap string string,
  add_names header nms acc !! s
  = if existsb (fun nm => String.eqb (lower nm) s) nms then Some header else acc !! s.
Proof.
  unfold add_names. induction nms as [|nm nms IH] using rev_ind; intros acc.
  - reflexivity.
  - rewrite fold_left_app. simpl. rewrite lookup_insert, existsb_app. simpl.
    rewrite orb_false_r. case_decide as E.
    + subst s. rewrite String.eqb_refl. now rewrite orb_true_r.
    + apply String.eqb_neq in E. rewrite E, orb_false_r. apply IH.
Qed.

Lemma name_to_header_fold_None (d : dict) s : forall acc : gmap string string,
  fold_left (fun acc kh => add_names (fst kh) (names (snd kh)) acc) d acc !! s = None
  <-> acc !! s = None
      /\ forall kh nm, In kh d -> In nm (names (snd kh)) -> lower nm <> s.
Proof.
  induction d as [|kh d IH]; intros acc; simpl.
  - split; [intros H; split; [exact H | intros ? ? []] | now intros [H _]].
  - rewrite IH, add_names_lookup.
    destruct (existsb (fun nm => String.eqb (lower nm) s) (names (snd kh))) eqn:E.
    + split; [intros [H _]; discriminate H|].
      intros [_ H]. apply existsb_exists in E as (nm & Hnm & Enm).
      apply String.eqb_eq in Enm. exfalso. exact (H kh nm (or_introl eq_refl) Hnm Enm).
    + split; intros [Hacc H]; (split; [exact Hacc|]).
      * intros kh' nm [<-|Hin] Hnm; [|now apply (H kh' nm)].
        intros Enm. apply not_true_iff_false in E. apply E.
        apply existsb_exists. exists nm. split; [exact Hnm | now apply String.eqb_eq].
      * intros kh' nm Hin Hnm. apply (H kh' nm); [now right | exact Hnm].
Qed.

Lemma name_to_header_fold_Some (d : dict) s k : forall acc : gmap string string,
  fold_left (fun acc kh => add_names (fst kh) (names (snd kh)) acc) d acc !! s = Some k ->
  acc !! s = Some k
  \/ exists kh nm, In kh d /\ fst kh = k /\ In nm (names (snd kh)) /\ lower nm = s.
Proof.
  induction d as [|kh d IH]; intros acc; simpl; [now left|].
  intros H. apply IH in H as [H|(kh' & nm & Hin & Hk & Hnm & Enm)].
  - rewrite add_names_lookup in H.
    destruct (existsb (fun nm => String.eqb (lower nm) s) (names (snd kh))) eqn:E.
    + injection H as <-. apply existsb_exists in E as (nm & Hnm & Enm).
      apply String.eqb_eq in Enm. right. exists kh, nm. repeat split; auto.
    + now left.
  - right. exists kh', nm. repeat split; auto.
Qed.

(** A name is a key of [name_to_header] exactly when a Header registers
    it, up to case; the header it maps to is one that registers it. *)
Lemma name_to_header_None d name :
  build_name_to_header d !! lower name = None <-> ~ registered d name.
Proof.
  unfold build_name_to_header, registered. rewrite name_to_header_fold_None.
  split.
  - intros [_ H] (kh & nm & Hin & Hnm & E). exact (H kh nm Hin Hnm E).
  - intros H. split; [apply lookup_empty|].
    intros kh nm Hin Hnm E. apply H. now exists kh, nm.
Qed.

Lemma name_to_header_Some d s k :
  build_name_to_header d !! s = Some k ->
  exists kh nm, In kh d /\ fst kh = k /\ In nm (names (snd kh)) /\ lower nm = s.
Proof.
  unfold build_name_to_header. intros H.
  apply name_to_header_fold_Some in H as [H|H]; [|exact H].
  rewrite lookup_empty in H. discriminate H.
Qed.

Lemma first_match_None n2h nms :
  first_match n2h nms = None <-> forall name, In name nms -> n2h !! lower name = None.
Proof.
  induction nms as [|n nms IH]; simpl.
  - split; [intros _ ? [] | reflexivity].
  - destruct (n2h !! lower n) eqn:E.
    + split; [discriminate|]. intros H. specialize (H n (or_introl eq_refl)). congruence.
    + rewrite IH. split.
      * intros H name [<-|Hin]; [exact E | now apply H].
      * intros H name Hin. apply H. now right.
Qed.

Lemma first_match_Some n2h nms k :
  first_match n2h nms = Some k -> exists name, In name nms /\ n2h !! lower name = Some k.
Proof.
  induction nms as [|n nms IH]; simpl; [discriminate|].
  destruct (n2h !! lower n) eqn:E.
  - intros [= <-]. exists n. split; [now left | exact E].
  - intros H. destruct (IH H) as (name & Hin & Hn). exists name. split; [now right | exact Hn].
Qed.

Lemma unres_In_iff n2h mids src data x :
  In x (unres n2h mids src data)
  <-> exists item, In item data /\ x = ident_of src item
                   /\ action_of n2h mids src item = Unresolved.
Proof.
  split; [apply unres_In|].
  intros (item & Hin & -> & Ha).
  induction data as [|a rest IH]; simpl; [destruct Hin|].
  apply in_app_iff. destruct Hin as [->|Hin].
  - left. rewrite Ha. now left.
  - right. now apply IH.
Qed.

Lemma action_Unresolved n2h mids src item :
  action_of n2h mids src item = Unresolved
  <-> set_contains (ident_of src item) mids = false
      /\ first_match n2h (d_names item) = None.
Proof.
  unfold action_of. destruct (set_contains _ mids).
  - split; [discriminate | intros [H _]; discriminate H].
  - destruct (first_match n2h (d_names item)).
    + split; [discriminate | intros [_ H]; discriminate H].
    + split; [now split | reflexivity].
Qed.

(** X6: the unresolved list after [append] holds exactly the identifiers
    of the records that were not mapped for the source and none of whose
    names is registered, up to case, by a Header of the map. *)
Theorem append_unresolved_spec (src : Source.t) (data : Reader) (self : Map) :
  batch_ok src data ->
  exists self1,
    Map_append (Some data) self = Returned self1
    /\ forall x,
         In x (m_unresolved self1)
         <-> exists item,
               In item data /\ x = ident_of src item
               /\ set_contains x (build_map_identifiers src (m_map self)) = false
               /\ forall name, In name (d_names item) -> ~ registered (m_map self) name.
Proof.
  intros Hok. eexists. split; [apply (Map_append_ok src data self Hok)|].
  intros x. cbn [m_unresolved]. rewrite unres_In_iff.
  split; intros (item & Hin & -> & H); exists item; (split; [exact Hin|]);
    (split; [reflexivity|]).
  - apply action_Unresolved in H as [Hm Hf]. split; [exact Hm|].
    intros name Hname. apply name_to_header_None.
    now apply (proj1 (first_match_None _ _) Hf).
  - destruct H as [Hm Hf]. apply action_Unresolved. split; [exact Hm|].
    apply first_match_None. intros name Hname. apply name_to_header_None. now apply Hf.
Qed.

Lemma extends_get d d' k h :
  extends d d' -> dict_get k d = Some h ->
  exists h', dict_get k d' = Some h'
             /\ names h' = names h
             /\ exists extra, identifiers h' = identifiers h ++ extra.
Proof.
  induction 1 as [|[k1 h1] [k2 h2] d d' Hh _ IH]; simpl; [discriminate|].
  destruct Hh as (Hk & _ & _ & _ & Hn & Hext). simpl in *. subst k2.
  destruct (String.eqb k k1).
  - intros [= <-]. exists h2. split; [reflexivity|]. split; [now symmetry | exact Hext].
  - exact IH.
Qed.

Lemma dict_get_In_entry k h d : dict_wf d -> In (k, h) d -> dict_get k d = Some h.
Proof.
  unfold dict_wf. induction d as [|[k0 h0] d IH]; simpl; [intros _ []|].
  intros Hnd. apply NoDup_cons in Hnd as [Hk Hnd]. intros [[= -> ->]|Hin].
  - now rewrite String.eqb_refl.
  - destruct (String.eqb k k0) eqn:E; [|now apply IH].
    apply String.eqb_eq in E. subst k0. exfalso. apply Hk, list_elem_of_In.
    now apply (in_map fst) in Hin.
Qed.

Lemma apply_links_holds L : forall d k i,
  Forall (fun hi => In (fst hi) (List.map fst d)) L ->
  In (k, i) L ->
  exists h', dict_get k (apply_links L d) = Some h' /\ In i (identifiers h').
Proof.
  unfold apply_links. induction L as [|[k0 i0] L IH]; intros d k i HL Hin; [destruct Hin|].
  apply Forall_cons in HL as [Hk0 HL]. simpl in Hk0. simpl fold_left.
  destruct Hin as [[= -> ->]|Hin].
  - apply dict_get_In in Hk0 as [h Hh].
    assert (Hget : dict_get k (link_to k i d)
                   = Some (set_identifiers (identifiers h ++ [i]) h))
      by (unfold link_to; now rewrite dict_get_alter, Hh).
    destruct (extends_get _ _ _ _ (extends_apply_links L (link_to k i d)) Hget)
      as (h' & Hh' & _ & extra & Hids).
    exists h'. split; [exact Hh'|]. rewrite Hids. simpl.
    apply in_app_iff. left. apply in_app_iff. right. now left.
  - apply IH; [|exact Hin]. unfold link_to. now rewrite dict_alter_keys.
Qed.

Lemma links_In n2h mids src data item header :
  In item data -> action_of n2h mids src item = Link header ->
  In (header, ident_of src item) (links n2h mids src data).
Proof.
  induction data as [|a rest IH]; simpl; intros Hin Ha; [destruct Hin|].
  apply in_app_iff. destruct Hin as [->|Hin].
  - left. rewrite Ha. now left.
  - right. now apply IH.
Qed.

(** X7: linking is by name, up to case, and by name only. A record that
    was not mapped for the source and has a name that some Header
    registers up to case is, after [append], held by a Header that
    registers one of the record's names up to case. *)
Theorem append_links_by_name (src : Source.t) (data : Reader) (self : Map) :
  dict_wf (m_map self) ->
  batch_ok src data ->
  exists self1,
    Map_append (Some data) self = Returned self1
    /\ forall item,
         In item data ->
         set_contains (ident_of src item) (build_map_identifiers src (m_map self)) = false ->
         (exists name, In name (d_names item) /\ registered (m_map self) name) ->
         exists k h h',
           dict_get k (m_map self) = Some h
           /\ dict_get k (m_map self1) = Some h'
           /\ In (ident_of src item) (identifiers h')
           /\ names h' = names h
           /\ exists name nm,
                In name (d_names item) /\ In nm (names h) /\ lower nm = lower name.
Proof.
  intros Hwf Hok. eexists. split; [apply (Map_append_ok src data self Hok)|].
  intros item Hin Hm (name & Hname & Hreg). cbn [m_map].
  set (n2h := build_name_to_header (m_map self)).
  set (mids := build_map_identifiers src (m_map self)).
  destruct (first_match n2h (d_names item)) as [k|] eqn:Ef.
  2:{ exfalso. apply (proj1 (name_to_header_None (m_map self) name)); [|exact Hreg].
      exact (proj1 (first_match_None _ _) Ef name Hname). }
  assert (Ha : action_of n2h mids src item = Link k).
  { unfold action_of. fold mids in Hm. now rewrite Hm, Ef. }
  destruct (first_match_Some _ _ _ Ef) as (name' & Hname' & Hlook).
  destruct (name_to_header_Some _ _ _ Hlook) as ([k' h] & nm & Hkh & Hk & Hnm & Enm).
  simpl in Hk, Hnm. subst k'.
  pose proof (dict_get_In_entry k h (m_map self) Hwf Hkh) as Hget.
  destruct (apply_links_holds (links n2h mids src data) (m_map self) k (ident_of src item)
              (links_headers n2h mids src (m_map self) data
                 (build_name_to_header_closed _))
              (links_In n2h mids src data item k Hin Ha)) as (h' & Hh' & Hi).
  destruct (extends_get _ _ _ _ (extends_apply_links (links n2h mids src data) (m_map self))
              Hget) as (h'' & Hh'' & Hn & _).
  rewrite Hh' in Hh''. injection Hh'' as <-.
  exists k, h, h'. repeat split; auto. exists name', nm. repeat split; auto.
Qed.

(** ** The dangled list, other sources, and the invariants of the map *)

Lemma add_identifiers_In src x ids : forall acc,
  In x (add_identifiers src ids acc) -> In x acc \/ (In x ids /\ id_source x = src).
Proof.
  unfold add_identifiers. induction ids as [|i ids IH]; intros acc; simpl; [now left|].
  intros H. apply IH in H as [H|[H Hs]]; [|right; split; [now right | exact Hs]].
  case_bool_decide as Es; [|now left].
  unfold set_add in H. destruct (set_contains i acc); [now left|].
  apply in_app_iff in H as [H|[<-|[]]]; [now left|].
  right. split; [now left | exact Es].
Qed.

Lemma map_identifiers_In src x d :
  In x (build_map_identifiers src d) -> In x (all_ids d) /\ id_source x = src.
Proof.
  unfold build_map_identifiers.
  assert (G : forall acc,
             In x (fold_left (fun acc kh => add_identifiers src (identifiers (snd kh)) acc)
                     d acc) ->
             In x acc \/ (In x (all_ids d) /\ id_source x = src)).
  { induction d as [|kh d IH]; intros acc; simpl; [now left|].
    intros H. apply IH in H as [H|[H Hs]].
    - apply add_identifiers_In in H as [H|[H Hs]]; [now left|].
      right. split; [|exact Hs]. unfold all_ids. simpl. apply in_app_iff. now left.
    - right. split; [|exact Hs]. unfold all_ids. simpl. apply in_app_iff. now right. }
  intros H. apply G in H as [[]|H]. exact H.
Qed.

Lemma count_eq_congr x x' l : ident_key x = ident_key x' -> count_eq x l = count_eq x' l.
Proof.
  intros H. unfold count_eq. induction l as [|a l IH]; simpl; [reflexivity|].
  rewrite (Identifier_eq_congr x x' a H). destruct (Identifier_eq x' a); simpl; now rewrite IH.
Qed.

Lemma count_eq_set_add x y s :
  (forall z, count_eq z s <= 1) -> count_eq x (set_add y s) <= 1.
Proof.
  intros Hs. unfold set_add. destruct (set_contains y s) eqn:E; [apply Hs|].
  rewrite count_eq_app, count_eq_cons. unfold count_eq at 2. simpl.
  destruct (Identifier_eq x y) eqn:Exy.
  - apply Identifier_eq_true in Exy. rewrite (count_eq_congr x y s Exy).
    rewrite count_eq_contains in E. apply Nat.ltb_ge in E. lia.
  - specialize (Hs x). lia.
Qed.

Lemma map_identifiers_once src d x : count_eq x (build_map_identifiers src d) <= 1.
Proof.
  unfold build_map_identifiers.
  assert (G : forall acc, (forall z, count_eq z acc <= 1) ->
             forall z,
               count_eq z
                 (fold_left (fun acc kh => add_identifiers src (identifiers (snd kh)) acc)
                    d acc) <= 1).
  { induction d as [|kh d IH]; intros acc Hacc; simpl; [exact Hacc|].
    apply IH. clear IH. unfold add_identifiers.
    generalize dependent acc. induction (identifiers (snd kh)) as [|i ids IH];
      intros acc Hacc; simpl; [exact Hacc|].
    apply IH. case_bool_decide; [|exact Hacc].
    intros z. now apply count_eq_set_add. }
  apply G. intros z. unfold count_eq. simpl. lia.
Qed.

Lemma count_eq_filter_le x f l : count_eq x (List.filter f l) <= count_eq x l.
Proof.
  induction l as [|a l IH]; simpl; [lia|].
  destruct (f a); rewrite ?count_eq_cons; lia.
Qed.

Lemma unres_in_batch n2h mids src data x :
  set_contains x (unres n2h mids src data) = true -> in_batch src data x = true.
Proof.
  unfold in_batch. induction data as [|a rest IH]; simpl; [discriminate|].
  rewrite set_contains_app, orb_true_iff. intros [H|H].
  - destruct (action_of n2h mids src a); try discriminate H.
    unfold set_contains in H. simpl in H. rewrite orb_false_r in H. now rewrite H.
  - rewrite (IH H). apply orb_true_r.
Qed.

(** X8: the dangled list after [append] holds, once each, exactly the
    identifiers that the map held for the source of the batch and that
    no record of the batch has. Each one is an identifier object of the
    map, and none of them is in the unresolved list. *)
Theorem append_dangled_spec (src : Source.t) (data : Reader) (self : Map) :
  batch_ok src data ->
  exists self1,
    Map_append (Some data) self = Returned self1
    /\ (forall x,
          set_contains x (m_dangled self1)
          = existsb (same_in_source src x) (all_ids (m_map self))
            && negb (in_batch src data x))
    /\ (forall x, In x (m_dangled self1) ->
                  In x (all_ids (m_map self)) /\ id_source x = src)
    /\ (forall x, count_eq x (m_dangled self1) <= 1)
    /\ (forall x, set_contains x (m_dangled self1) = true ->
                  set_contains x (m_unresolved self1) = false).
Proof.
  intros Hok. eexists. split; [apply (Map_append_ok src data self Hok)|].
  cbn [m_dangled m_unresolved].
  assert (Hd : forall x,
            set_contains x (set_difference (build_map_identifiers src (m_map self))
                              (seen src data []))
            = existsb (same_in_source src x) (all_ids (m_map self))
              && negb (in_batch src data x)).
  { intros x. rewrite set_contains_difference, contains_map_identifiers, contains_seen.
    reflexivity. }
  split; [exact Hd|]. split; [|split].
  - intros x Hx. unfold set_difference in Hx. apply List.filter_In in Hx as [Hx _].
    now apply map_identifiers_In.
  - intros x. unfold set_difference.
    etransitivity; [apply count_eq_filter_le | apply map_identifiers_once].
  - intros x Hx. rewrite Hd in Hx. apply andb_true_iff in Hx as [_ Hb].
    apply negb_true_iff in Hb. apply not_true_is_false. intros Hu.
    apply unres_in_batch in Hu. congruence.
Qed.

Lemma other_source_absent src x l :
  Forall (fun i => id_source i = src) l -> id_source x <> src -> set_contains x l = false.
Proof.
  intros Hl Hx. unfold set_contains. induction Hl as [|i l Hi _ IH]; simpl; [reflexivity|].
  rewrite IH, orb_false_r. apply not_true_is_false. rewrite Identifier_eq_true.
  unfold ident_key. intros [= H _]. congruence.
Qed.

Lemma unres_source n2h mids src data :
  Forall (fun i => id_source i = src) (unres n2h mids src data).
Proof.
  induction data as [|item rest IH]; simpl; [constructor|].
  destruct (action_of n2h mids src item); simpl; try exact IH.
  constructor; [reflexivity | exact IH].
Qed.

(** X9: [append] leaves the identifiers of every other source alone:
    an identifier of another source occurs in the Headers as often as
    before, and is neither unresolved nor dangled. *)
Theorem append_other_sources (src : Source.t) (data : Reader) (self : Map) :
  batch_ok src data ->
  exists self1,
    Map_append (Some data) self = Returned self1
    /\ forall x, id_source x <> src ->
         occurrences x (m_map self1) = occurrences x (m_map self)
         /\ set_contains x (m_unresolved self1) = false
         /\ set_contains x (m_dangled self1) = false.
Proof.
  intros Hok. eexists. split; [apply (Map_append_ok src data self Hok)|].
  intros x Hx. cbn [m_map m_unresolved m_dangled].
  set (n2h := build_name_to_header (m_map self)).
  set (mids := build_map_identifiers src (m_map self)).
  split; [|split].
  - rewrite occurrences_apply_links
      by (apply links_headers, build_name_to_header_closed).
    pose proof (other_source_absent src x _ (links_source n2h mids src data) Hx) as H.
    rewrite count_eq_contains in H. apply Nat.ltb_ge in H. lia.
  - exact (other_source_absent src x _ (unres_source n2h mids src data) Hx).
  - rewrite set_contains_difference. unfold mids. rewrite contains_map_identifiers.
    assert (existsb (same_in_source src x) (all_ids (m_map self)) = false) as ->;
      [|reflexivity].
    induction (all_ids (m_map self)) as [|i l IH]; simpl; [reflexivity|].
    rewrite IH, orb_false_r. unfold same_in_source. case_bool_decide as Ei; [|reflexivity].
    simpl. apply not_true_is_false. rewrite Identifier_eq_true. unfold ident_key.
    intros [= H _]. congruence.
Qed.

Lemma extends_no_empty d d' : extends d d' -> no_empty_header d -> no_empty_header d'.
Proof.
  unfold no_empty_header. induction 1 as [|a b d d' Hab _ IH]; intros Hne; [constructor|].
  apply Forall_cons in Hne as [Ha Hne]. constructor; [|now apply IH].
  destruct Hab as (_ & _ & _ & _ & _ & extra & ->).
  destruct (identifiers (snd a)); [congruence | discriminate].
Qed.

Lemma links_count_le n2h mids src data x :
  NoDup (batch_identifiers data) ->
  count_eq x (List.map snd (links n2h mids src data)) <= 1
  /\ (count_eq x (List.map snd (links n2h mids src data)) = 1 ->
      set_contains x mids = false /\ id_source x = src).
Proof.
  intros Hnd.
  destruct (existsb (fun item => Identifier_eq x (ident_of src item)) data) eqn:E.
  - apply existsb_exists in E as (item & Hin & Ex). apply Identifier_eq_true in Ex.
    rewrite (count_eq_congr x _ _ Ex).
    destruct (plan_count n2h mids src item data Hnd Hin) as [-> _].
    unfold action_of. rewrite (set_contains_congr x _ mids Ex).
    destruct (set_contains (ident_of src item) mids); [split; [lia | discriminate]|].
    destruct (first_match n2h (d_names item)); (split; [lia|]); [|discriminate].
    intros _. split; [reflexivity|]. unfold ident_key in Ex. now injection Ex.
  - assert (H0 : count_eq x (List.map snd (links n2h mids src data)) = 0).
    { clear Hnd. induction data as [|a rest IH]; simpl in *; [reflexivity|].
      apply orb_false_iff in E as [Ea Er]. rewrite List.map_app, count_eq_app, (IH Er).
      destruct (action_of n2h mids src a); unfold count_eq; simpl; rewrite ?Ea; reflexivity. }
    rewrite H0. split; [lia | discriminate].
Qed.

(** X10: [append] keeps two invariants of the map. A map without empty
    Headers stays without empty Headers; and when the records of the
    batch have pairwise distinct identifiers, a map in which no
    identifier occurs twice stays such a map. *)
Theorem append_keeps_invariants (src : Source.t) (data : Reader) (self : Map) :
  batch_ok src data ->
  exists self1,
    Map_append (Some data) self = Returned self1
    /\ (no_empty_header (m_map self) -> no_empty_header (m_map self1))
    /\ (NoDup (batch_identifiers data) ->
        mapped_once (m_map self) -> mapped_once (m_map self1)).
Proof.
  intros Hok. eexists. split; [apply (Map_append_ok src data self Hok)|].
  cbn [m_map]. split.
  - apply extends_no_empty, extends_apply_links.
  - intros Hnd Honce x.
    set (n2h := build_name_to_header (m_map self)).
    set (mids := build_map_identifiers src (m_map self)).
    rewrite occurrences_apply_links
      by (apply links_headers, build_name_to_header_closed).
    destruct (links_count_le n2h mids src data x Hnd) as [Hle H1].
    specialize (Honce x).
    destruct (count_eq x (List.map snd (links n2h mids src data))) as [|[|n]] eqn:Ec;
      [lia| |lia].
    destruct (H1 eq_refl) as [Hm Hs]. unfold mids in Hm.
    rewrite (contains_map_identifiers_own src x (m_map self) Hs) in Hm.
    apply Nat.ltb_ge in Hm. lia.
Qed.

Lemma unres_not_mapped n2h mids src data x :
  set_contains x mids = true -> set_contains x (unres n2h mids src data) = false.
Proof.
  intros Hm. induction data as [|a rest IH]; simpl; [reflexivity|].
  rewrite set_contains_app, IH, orb_false_r.
  unfold action_of. destruct (set_contains (ident_of src a) mids) eqn:Ea; [reflexivity|].
  destruct (first_match n2h (d_names a)); [reflexivity|].
  unfold set_contains. simpl. rewrite orb_false_r.
  apply not_true_is_false. intros Ex. apply Identifier_eq_true in Ex.
  rewrite (set_contains_congr x _ mids Ex) in Hm. congruence.
Qed.

(** X11: resolving by hand sticks. When an identifier that [append] left
    unresolved is given to a Header with [append_to], a further [append]
    of the same batch returns and lists it neither as unresolved nor as
    dangled. *)
Theorem resolved_stays_resolved (src : Source.t) (data : Reader)
    (self self1 self2 : Map) (header : string) (x : Identifier) :
  batch_ok src data ->
  Map_append (Some data) self = Returned self1 ->
  In x (m_unresolved self1) ->
  Map_append_to header x self1 = Returned self2 ->
  exists self3,
    Map_append (Some data) self2 = Returned self3
    /\ set_contains x (m_unresolved self3) = false
    /\ set_contains x (m_dangled self3) = false.
Proof.
  intros Hok H1 Hx H2.
  rewrite (Map_append_ok src data self Hok) in H1. injection H1 as <-.
  cbn [m_unresolved] in Hx.
  apply unres_In in Hx as (item & Hin & -> & _).
  unfold Map_append_to in H2. cbn [m_map] in H2.
  set (d1 := apply_links _ (m_map self)) in *.
  destruct (dict_get header d1) eqn:Hget; [|discriminate H2].
  injection H2 as <-.
  assert (Hm : set_contains (ident_of src item)
                 (build_map_identifiers src (link_to header (ident_of src item) d1))
               = true).
  { rewrite contains_map_identifiers.
    rewrite existsb_all_ids_link by (apply dict_get_In; rewrite Hget; eauto).
    unfold same_in_source at 2. rewrite Identifier_eq_refl.
    rewrite bool_decide_eq_true_2 by reflexivity. apply orb_true_r. }
  unfold link_to in Hm.
  eexists. split; [apply (Map_append_ok src data _ Hok)|].
  cbn [m_unresolved m_dangled m_map set_m_map].
  split; [now apply unres_not_mapped|].
  rewrite set_contains_difference, Hm, contains_seen. cbn [set_contains existsb orb andb].
  apply negb_false_iff. apply existsb_exists. exists item.
  split; [exact Hin | apply Identifier_eq_refl].
Qed.

(** ** sort *)

Lemma ltb_negb_leb a b : String.ltb a b = negb (String.leb b a).
Proof.
  unfold String.ltb, String.leb. rewrite (String.compare_antisym a b).
  now destruct (String.compare b a).
Qed.

Lemma ltb_irrefl a : String.ltb a a = false.
Proof.
  rewrite ltb_negb_leb. apply negb_false_iff.
  destruct (String.leb_total a a) as [H|H]; exact H.
Qed.

Lemma insert_entry_keys x l :
  insert_by_key (key_pair x) (List.map key_pair l) = List.map key_pair (insert_entry x l).
Proof.
  induction l as [|y l IH]; simpl; [reflexivity|].
  destruct (String.ltb (lower (fst y)) (lower (fst x))); simpl; [now rewrite IH | reflexivity].
Qed.

Lemma sort_entries_keys d :
  sort_by_key (List.map key_pair d) = List.map key_pair (sort_entries d).
Proof.
  unfold sort_by_key, sort_entries. induction d as [|x d IH]; simpl; [reflexivity|].
  now rewrite IH, insert_entry_keys.
Qed.

Lemma insert_entry_perm x l : Permutation (insert_entry x l) (x :: l).
Proof.
  induction l as [|y l IH]; simpl; [reflexivity|].
  destruct (String.ltb _ _); [|reflexivity].
  rewrite IH. apply perm_swap.
Qed.

Lemma sort_entries_perm d : Permutation (sort_entries d) d.
Proof.
  unfold sort_entries. induction d as [|x d IH]; simpl; [reflexivity|].
  rewrite insert_entry_perm. now constructor.
Qed.

Lemma insert_entry_sorted x l : sorted_by_lower l -> sorted_by_lower (insert_entry x l).
Proof.
  unfold sorted_by_lower. induction 1 as [|y l Hl IH Hy]; simpl.
  - constructor; constructor.
  - destruct (String.ltb (lower (fst y)) (lower (fst x))) eqn:E.
    + constructor; [exact IH|].
      rewrite ltb_negb_leb in E. apply negb_true_iff in E.
      assert (Hyx : String.le (lower (fst y)) (lower (fst x))).
      { unfold String.le. destruct (String.leb_total (lower (fst y)) (lower (fst x))) as [H|H];
          [now rewrite H | congruence]. }
      eapply Permutation_Forall; [symmetry; apply insert_entry_perm|].
      constructor; [exact Hyx | exact Hy].
    + rewrite ltb_negb_leb in E. apply negb_false_iff in E.
      assert (Hxy : String.le (lower (fst x)) (lower (fst y)))
        by (unfold String.le; now rewrite E).
      constructor; [now constructor|]. constructor; [exact Hxy|].
      eapply Forall_impl; [exact Hy|]. intros z Hz. simpl in Hz.
      now transitivity (lower (fst y)).
Qed.

Lemma sort_entries_sorted d : sorted_by_lower (sort_entries d).
Proof.
  unfold sort_entries. induction d as [|x d IH]; simpl; [constructor|].
  now apply insert_entry_sorted.
Qed.

Lemma insert_entry_stable s x l :
  with_lower_key s (insert_entry x l) = with_lower_key s (x :: l).
Proof.
  unfold with_lower_key. induction l as [|y l IH]; [reflexivity|].
  cbn [insert_entry]. destruct (String.ltb (lower (fst y)) (lower (fst x))) eqn:E;
    [|reflexivity].
  cbn [List.filter] in *. rewrite IH.
  destruct (String.eqb (lower (fst x)) s) eqn:Ex; [|reflexivity].
  destruct (String.eqb (lower (fst y)) s) eqn:Ey; [|reflexivity].
  apply String.eqb_eq in Ex, Ey. rewrite Ex, Ey, ltb_irrefl in E. discriminate E.
Qed.

Lemma sort_entries_stable s d : with_lower_key s (sort_entries d) = with_lower_key s d.
Proof.
  unfold sort_entries. induction d as [|x d IH]; [reflexivity|].
  cbn [fold_right]. rewrite insert_entry_stable. unfold with_lower_key in *.
  cbn [List.filter]. now rewrite IH.
Qed.

Lemma sort_entries_fixed d : sorted_by_lower d -> sort_entries d = d.
Proof.
  unfold sorted_by_lower, sort_entries. induction 1 as [|x l Hl IH Hx]; [reflexivity|].
  cbn [fold_right]. rewrite IH. destruct l as [|y l]; [reflexivity|].
  cbn [insert_entry]. apply Forall_cons in Hx as [Hxy _].
  rewrite ltb_negb_leb. unfold String.le in Hxy.
  destruct (String.leb (lower (fst x)) (lower (fst y))); [reflexivity | destruct Hxy].
Qed.

Lemma dict_set_new key v d :
  ~ In key (List.map fst d) -> dict_set key v d = d ++ [(key, v)].
Proof.
  induction d as [|[k h] d IH]; simpl; intros Hk; [reflexivity|].
  destruct (String.eqb key k) eqn:E.
  - apply String.eqb_eq in E. subst. exfalso. apply Hk. now left.
  - rewrite IH; [reflexivity|]. intros H. apply Hk. now right.
Qed.

Lemma sort_fill_entries d E : forall acc,
  (forall kh, In kh E -> dict_get (fst kh) d = Some (snd kh)) ->
  NoDup (List.map fst (acc ++ E)) ->
  sort_fill d (List.map key_pair E) acc = inr (acc ++ E).
Proof.
  induction E as [|[k h] E IH]; intros acc Hget Hnd; simpl.
  - now rewrite app_nil_r.
  - pose proof (Hget (k, h) (or_introl eq_refl)) as Hkh. simpl in Hkh. rewrite Hkh.
    assert (Hk : ~ In k (List.map fst acc)).
    { rewrite List.map_app in Hnd. apply NoDup_app in Hnd as (_ & Hdis & _).
      intros Hin. apply (Hdis k); [now apply list_elem_of_In|]. simpl. now left. }
    rewrite (dict_set_new k h acc Hk). rewrite IH.
    + now rewrite <- app_assoc.
    + intros kh Hin. apply Hget. now right.
    + now rewrite <- app_assoc.
Qed.

Lemma dict_get_Some_In k h d : dict_get k d = Some h -> In (k, h) d.
Proof.
  induction d as [|[k0 h0] d IH]; simpl; [discriminate|].
  destruct (String.eqb k k0) eqn:E.
  - apply String.eqb_eq in E. intros [= ->]. subst. now left.
  - intros H. right. now apply IH.
Qed.

Lemma dict_get_perm k d d' :
  dict_wf d -> Permutation d' d -> dict_get k d' = dict_get k d.
Proof.
  intros Hwf Hp.
  assert (Hwf' : dict_wf d').
  { unfold dict_wf in *. now rewrite (Permutation_map fst Hp). }
  destruct (dict_get k d) as [h|] eqn:G.
  - apply dict_get_In_entry; [exact Hwf'|].
    apply (Permutation_in _ (Permutation_sym Hp)). now apply dict_get_Some_In.
  - destruct (dict_get k d') as [h'|] eqn:G'; [|reflexivity].
    apply dict_get_Some_In in G'. apply (Permutation_in _ Hp) in G'.
    apply (dict_get_In_entry k h' d Hwf) in G'. congruence.
Qed.

Lemma Map_sort_entries self :
  dict_wf (m_map self) ->
  Map_sort self = Returned (set_m_map (sort_entries (m_map self)) self).
Proof.
  intros Hwf. unfold Map_sort.
  rewrite List.map_map.
  change (List.map (fun x => (lower (fst x), fst x)) (m_map self))
    with (List.map key_pair (m_map self)).
  rewrite sort_entries_keys.
  rewrite (sort_fill_entries (m_map self) (sort_entries (m_map self)) []); [reflexivity| |].
  - intros [k h] Hin. simpl. apply dict_get_In_entry; [exact Hwf|].
    now apply (Permutation_in _ (sort_entries_perm _)).
  - simpl. unfold dict_wf in Hwf. now rewrite (Permutation_map fst (sort_entries_perm _)).
Qed.

(** X12: [sort] on a Map with distinct keys never raises and only
    rearranges the Headers: the new dict is a permutation of the old
    one, every key reads as before, the entries are in ascending order
    of their lowercased keys, entries whose keys agree up to case keep
    their relative order, and sorting again changes nothing. *)
Theorem Map_sort_spec (self : Map) :
  dict_wf (m_map self) ->
  exists d',
    Map_sort self = Returned (set_m_map d' self)
    /\ Permutation d' (m_map self)
    /\ (forall k, dict_get k d' = dict_get k (m_map self))
    /\ sorted_by_lower d'
    /\ (forall s, with_lower_key s d' = with_lower_key s (m_map self))
    /\ Map_sort (set_m_map d' self) = Returned (set_m_map d' self).
Proof.
  intros Hwf. exists (sort_entries (m_map self)).
  split; [now apply Map_sort_entries|].
  split; [apply sort_entries_perm|].
  split; [intros k; apply dict_get_perm; [exact Hwf | apply sort_entries_perm]|].
  split; [apply sort_entries_sorted|].
  split; [intros s; apply sort_entries_stable|].
  rewrite Map_sort_entries.
  - cbn [m_map set_m_map]. rewrite sort_entries_fixed by apply sort_entries_sorted.
    reflexivity.
  - cbn [m_map set_m_map]. unfold dict_wf in *.
    now rewrite (Permutation_map fst (sort_entries_perm _)).
Qed.

(** ** Identifiers as text *)

(** X13: the text and the hash of an Identifier go with its equality.
    Identifiers that are [==] have the same [repr] and the same hash
    input; two Identifiers that both have an identifier string and the
    same [repr] are [==]. *)
Theorem Identifier_repr_faithful :
  (forall a b, Identifier_eq a b = true ->
     Identifier_repr a = Identifier_repr b
     /\ Identifier_hash_input a = Identifier_hash_input b)
  /\ (forall a b, identifier a <> None -> identifier b <> None ->
        Identifier_repr a = Identifier_repr b -> Identifier_eq a b = true).
Proof.
  split.
  - intros a b H. apply Identifier_eq_true in H. unfold ident_key in H.
    injection H as Hs Hi.
    unfold Identifier_repr, Identifier_hash_input, identifier_str. now rewrite Hs, Hi.
  - intros [sa [ia|] na] [sb [ib|] nb] Ha Hb; simpl in Ha, Hb; try congruence. clear Ha Hb.
    unfold Identifier_repr, identifier_str. cbn [id_source identifier].
    intros H. apply Identifier_eq_true. unfold ident_key. cbn [id_source identifier].
    destruct sa, sb; cbv [Source_repr String.append] in H; congruence.
Qed.

End MapTheorems.

(** * Theorems about collections and more about the validators *)

(** ** Indexing a collection *)

Import Abstract.

Lemma coll_get_entry {A} (c : collection A) n k v :
  NoDup (keys A c) -> c !! n = Some (k, v) -> coll_get A k c = Some v.
Proof.
  unfold keys. revert n. induction c as [|[k0 v0] c IH]; intros n Hnd Hn; [discriminate|].
  simpl in Hnd. apply NoDup_cons in Hnd as [Hk Hnd]. simpl.
  destruct n as [|n]; simpl in Hn.
  - injection Hn as -> ->. now rewrite String.eqb_refl.
  - destruct (String.eqb k k0) eqn:E; [|now apply (IH n)].
    apply String.eqb_eq in E. subst k0. exfalso. apply Hk.
    apply list_elem_of_lookup. exists n. now rewrite list_lookup_fmap, Hn.
Qed.

Lemma coll_del_nth {A} (c : collection A) n k v :
  NoDup (keys A c) -> c !! n = Some (k, v) -> coll_del A k c = delete n c.
Proof.
  unfold keys. revert n. induction c as [|[k0 v0] c IH]; intros n Hnd Hn; [discriminate|].
  simpl in Hnd. apply NoDup_cons in Hnd as [Hk Hnd]. simpl.
  destruct n as [|n]; simpl in Hn.
  - injection Hn as -> ->. now rewrite String.eqb_refl.
  - destruct (String.eqb k k0) eqn:E; [|simpl; f_equal; now apply (IH n)].
    apply String.eqb_eq in E. subst k0. exfalso. apply Hk.
    apply list_elem_of_lookup. exists n. now rewrite list_lookup_fmap, Hn.
Qed.

(** X14: indexing a collection with an [int] follows the order in which
    the collection is iterated, so [data[0]] is the first record an
    iteration yields; a negative index counts from the end, and an index
    outside [-len, len) raises [IndexError]. *)
Theorem AbstractCollection_getitem_int {A} (self : collection A) :
  NoDup (keys A self) ->
  (forall (n : nat) (v : A),
     AbstractCollection_iter A self !! n = Some v ->
     AbstractCollection_getitem A self (IntKey (Z.of_nat n)) = inr v
     /\ AbstractCollection_getitem A self
          (IntKey (Z.of_nat n - AbstractCollection_len A self)) = inr v)
  /\ (forall z : Z,
        (z < - AbstractCollection_len A self \/ AbstractCollection_len A self <= z)%Z ->
        AbstractCollection_getitem A self (IntKey z)
        = inl (IndexError "collection index out of range")).
Proof.
  intros Hnd. unfold AbstractCollection_getitem, AbstractCollection_len,
    AbstractCollection_iter. split.
  - intros n v Hn. apply list_lookup_fmap_Some_1 in Hn as ([k v'] & -> & En). simpl.
    pose proof (lookup_lt_Some _ _ _ En) as Hlt.
    assert (Hk : keys A self !! n = Some k)
      by (unfold keys; now rewrite list_lookup_fmap, En).
    pose proof (coll_get_entry self n k v' Hnd En) as Hg.
    assert (E1 : (Z.of_nat n <? 0)%Z = false) by (apply Z.ltb_ge; lia).
    assert (E2 : (Z.of_nat (length self) <=? Z.of_nat n)%Z = false)
      by (apply Z.leb_gt; lia).
    assert (E3 : (Z.of_nat n - Z.of_nat (length self) <? 0)%Z = true)
      by (apply Z.ltb_lt; lia).
    assert (E4 : (Z.of_nat (length self) + (Z.of_nat n - Z.of_nat (length self)))%Z
                 = Z.of_nat n) by lia.
    split.
    + rewrite E1. cbn [orb]. rewrite E1, E2. cbn [orb]. now rewrite Nat2Z.id, Hk, Hg.
    + rewrite E3, E4, E1, E2. cbn [orb]. now rewrite Nat2Z.id, Hk, Hg.
  - intros z Hz. destruct (z <? 0)%Z eqn:E.
    + apply Z.ltb_lt in E. destruct Hz as [Hz|Hz]; [|lia].
      assert ((Z.of_nat (length self) + z <? 0)%Z = true) as -> by (apply Z.ltb_lt; lia).
      reflexivity.
    + rewrite E. apply Z.ltb_ge in E. destruct Hz as [Hz|Hz]; [lia|].
      assert ((Z.of_nat (length self) <=? z)%Z = true) as -> by (apply Z.leb_le; lia).
      reflexivity.
Qed.

Lemma AbstractCollection_getitem_int_witness :
  NoDup (keys Data [("egfp", rec_egfp); ("new", rec_new)])
  /\ (forall (n : nat) (v : Data),
        AbstractCollection_iter Data [("egfp", rec_egfp); ("new", rec_new)] !! n = Some v ->
        AbstractCollection_getitem Data [("egfp", rec_egfp); ("new", rec_new)]
          (IntKey (Z.of_nat n)) = inr v
        /\ AbstractCollection_getitem Data [("egfp", rec_egfp); ("new", rec_new)]
             (IntKey (Z.of_nat n
                      - AbstractCollection_len Data [("egfp", rec_egfp); ("new", rec_new)]))
           = inr v)
  /\ (forall z : Z,
        (z < - AbstractCollection_len Data [("egfp", rec_egfp); ("new", rec_new)]
         \/ AbstractCollection_len Data [("egfp", rec_egfp); ("new", rec_new)] <= z)%Z ->
        AbstractCollection_getitem Data [("egfp", rec_egfp); ("new", rec_new)] (IntKey z)
        = inl (IndexError "collection index out of range")).
Proof.
  assert (Hnd : NoDup (keys Data [("egfp", rec_egfp); ("new", rec_new)])).
  { unfold keys. simpl. apply NoDup_cons. split.
    - intros H. apply list_elem_of_In in H. destruct H as [H|[]]. discriminate H.
    - apply NoDup_cons. split; [apply not_elem_of_nil | apply NoDup_nil_2]. }
  split; [exact Hnd|].
  apply (AbstractCollection_getitem_int [("egfp", rec_egfp); ("new", rec_new)] Hnd).
Defined.

(** X15: deleting by [int] index does not take the negative indices that
    reading takes: with any negative index [__delitem__] raises
    [IndexError] and deletes nothing. With an index in [0, len) it
    removes the entry at that place of the iteration order. *)
Theorem AbstractCollection_delitem_int {A} (self : collection A) :
  (forall z : Z, (z < 0)%Z ->
     AbstractCollection_delitem A self (IntKey z)
     = Raised (IndexError "collection index out of range") self)
  /\ (NoDup (keys A self) ->
      forall n : nat, n < length self ->
        AbstractCollection_delitem A self (IntKey (Z.of_nat n))
        = Returned (delete n self)).
Proof.
  unfold AbstractCollection_delitem, AbstractCollection_len. split.
  - intros z Hz.
    assert ((z <? 0)%Z = true) as -> by (apply Z.ltb_lt; lia).
    assert ((Z.of_nat (length self) - z <? 0)%Z = false) as -> by (apply Z.ltb_ge; lia).
    assert ((Z.of_nat (length self) <=? Z.of_nat (length self) - z)%Z = true) as ->
      by (apply Z.leb_le; lia).
    reflexivity.
  - intros Hnd n Hn.
    destruct (lookup_lt_is_Some_2 self n Hn) as [[k v] En].
    assert (E1 : (Z.of_nat n <? 0)%Z = false) by (apply Z.ltb_ge; lia).
    assert (E2 : (Z.of_nat (length self) <=? Z.of_nat n)%Z = false)
      by (apply Z.leb_gt; lia).
    rewrite E1. cbn [orb]. rewrite E1, E2. cbn [orb]. rewrite Nat2Z.id.
    assert (keys A self !! n = Some k) as ->
      by (unfold keys; now rewrite list_lookup_fmap, En).
    rewrite (coll_get_entry self n k v Hnd En).
    now rewrite (coll_del_nth self n k v Hnd En).
Qed.

(** * More about the validators *)

Lemma verdict_of_errors_valid errs :
  valid (verdict_of_errors errs) = true <-> errs = [].
Proof. destruct errs; simpl; split; intros H; congruence. Qed.

Lemma count_chars_zero p s :
  count_chars p s = 0 <-> all_chars (fun a => negb (p a)) s = true.
Proof.
  induction s as [|a s IH]; simpl.
  - tauto.
  - destruct (p a); simpl.
    + split; intros H; discriminate H.
    + exact IH.
Qed.

Lemma all_chars_ext p q s :
  (forall a, p a = q a) -> all_chars p s = all_chars q s.
Proof.
  intros H. induction s as [|a s IH]; simpl; [reflexivity|]. now rewrite H, IH.
Qed.

Lemma all_chars_andb p q s :
  all_chars (fun a => p a && q a) s = all_chars p s && all_chars q s.
Proof.
  induction s as [|a s IH]; simpl; [reflexivity|]. rewrite IH.
  destruct (p a), (q a), (all_chars p s), (all_chars q s); reflexivity.
Qed.

Lemma all_chars_app p s t :
  all_chars p (s +:+ t) = all_chars p s && all_chars p t.
Proof.
  induction s as [|a s IH].
  - reflexivity.
  - change (String a s +:+ t) with (String a (s +:+ t)). cbn [all_chars].
    now rewrite IH, andb_assoc.
Qed.

(** ** AuditHeader *)

Lemma upper_digit_not_lower a :
  char_in a upper_digits = true ->
  char_in a lower_letters = false /\ Ascii.eqb a ":" = false.
Proof.
  intros H.
  destruct a as [[] [] [] [] [] [] [] []]; vm_compute in H |- *;
    (discriminate H || (split; reflexivity)).
Qed.

Lemma header_errors_nil c :
  header_errors 0 c = [] <->
  error_char_lower c = 0 /\ error_char_illegal c = 0 /\ error_char_last c = 0
  /\ error_colon_multiple c = 0.
Proof.
  destruct c as [n [|l] [|i] [|f] [|m]]; unfold header_errors; simpl;
    split; intros H; try discriminate H; try reflexivity;
    try (repeat split; reflexivity); destruct H as (?&?&?&?); discriminate.
Qed.

Lemma header_loop_counts len s : forall c i,
  let c' := header_loop len c i s in
  let colons := count_chars (fun a => Ascii.eqb a ":") s in
  colon_count c' = colon_count c + colons
  /\ error_char_lower c' =
       error_char_lower c
       + count_chars (fun a => negb (Ascii.eqb a ":") && char_in a lower_letters) s
  /\ error_char_illegal c' =
       error_char_illegal c
       + count_chars (fun a => negb (Ascii.eqb a ":")
                               && negb (char_in a lower_letters)
                               && negb (char_in a upper_digits)) s
  /\ error_char_last c' = error_char_last c
  /\ error_colon_multiple c' =
       error_colon_multiple c
       + ((colon_count c + colons - 1) - (colon_count c - 1)).
Proof.
  induction s as [|a s IH]; intros c i; cbn [header_loop count_chars].
  - cbv zeta. repeat split; lia.
  - specialize (IH (header_step len c i a) (S i)). cbv zeta in IH |- *.
    destruct IH as (H1 & H2 & H3 & H4 & H5).
    rewrite H1, H2, H3, H4, H5. clear H1 H2 H3 H4 H5.
    unfold header_step.
    destruct (Ascii.eqb a ":") eqn:Ec; cbn [negb andb].
    + cbn [colon_count error_char_lower error_char_illegal error_char_last
           error_colon_multiple].
      destruct (Nat.leb_spec 1 (colon_count c)); repeat split; lia.
    + destruct (char_in a lower_letters) eqn:El; cbn [negb andb].
      * cbn [colon_count error_char_lower error_char_illegal error_char_last
             error_colon_multiple]. repeat split; lia.
      * destruct (char_in a upper_digits) eqn:Eu; cbn [negb andb].
        -- rewrite andb_false_r. repeat split; lia.
        -- cbn [colon_count error_char_lower error_char_illegal error_char_last
                error_colon_multiple]. repeat split; lia.
Qed.

(** X16: AuditHeader.audit accepts exactly the non-empty strings over
    [A-Z], [0-9] and ":" that hold at most one colon, wherever the colon
    stands. *)
Theorem AuditHeader_valid_iff (data : option string) :
  valid (AuditHeader_audit data) = true <->
  exists s, data = Some s /\ s <> EmptyString
            /\ all_chars header_char s = true
            /\ count_chars (fun a => Ascii.eqb a ":") s <= 1.
Proof.
  unfold AuditHeader_audit. destruct data as [s|].
  2:{ split; [intros H; discriminate H | intros (s & H & _); discriminate H]. }
  destruct (String.eqb_spec s EmptyString) as [->|Hne].
  { split; [intros H; discriminate H | intros (s & H & Hs & _)].
    injection H as <-. now destruct Hs. }
  rewrite verdict_of_errors_valid, header_errors_nil.
  pose proof (header_loop_counts (String.length s) s (mkHeaderCounts 0 0 0 0 0) 0)
    as Hc. cbv zeta in Hc. destruct Hc as (_ & H2 & H3 & H4 & H5).
  rewrite H2, H3, H4, H5. cbn [colon_count error_char_lower error_char_illegal
    error_char_last error_colon_multiple]. clear H2 H3 H4 H5.
  assert (all_chars header_char s
          = all_chars (fun a => negb (negb (Ascii.eqb a ":") && char_in a lower_letters)) s
            && all_chars (fun a => negb (negb (Ascii.eqb a ":")
                                         && negb (char_in a lower_letters)
                                         && negb (char_in a upper_digits))) s) as Eall.
  { rewrite <- all_chars_andb. apply all_chars_ext. intros a. unfold header_char.
    destruct (char_in a upper_digits) eqn:Eu.
    - destruct (upper_digit_not_lower a Eu) as [-> ->]. reflexivity.
    - destruct (Ascii.eqb a ":"), (char_in a lower_letters); reflexivity. }
  split.
  - intros (Hl & Hi & _ & Hm). exists s. repeat split; try assumption.
    + rewrite Eall. apply count_chars_zero in Hl, Hi. now rewrite Hl, Hi.
    + lia.
  - intros (s' & E & _ & Hall & Hcol). injection E as <-.
    rewrite Eall in Hall. apply andb_prop in Hall as [Hl Hi].
    apply count_chars_zero in Hl, Hi. repeat split; lia.
Qed.

(** ** AuditName *)

Lemma bracket_not_plain a :
  Ascii.eqb a "(" || Ascii.eqb a ")" = true ->
  char_in a letters = false /\ char_in a digits = false
  /\ char_in a name_punctuation = false.
Proof.
  intros H. apply orb_prop in H as [H|H]; apply Ascii.eqb_eq in H; subst a;
    repeat split; reflexivity.
Qed.

Lemma name_errors_nil c close :
  name_errors 0 c close = [] <->
  error_name_char_illegal c = 0 /\ error_bracket_missing_open c = 0
  /\ close = 0 /\ error_bracket_double_open c = 0.
Proof.
  destruct c as [[|i] [|m] [|d] o], close as [|k]; unfold name_errors; simpl;
    split; intros H; try discriminate H; try reflexivity;
    try (repeat split; reflexivity); destruct H as (?&?&?&?); discriminate.
Qed.

Lemma name_loop_clean s : forall c,
  let c' := name_loop c s in
  (error_name_char_illegal c' = 0 /\ error_bracket_missing_open c' = 0
   /\ error_bracket_double_open c' = 0 /\ bracket_round_open c' = false)
  <->
  (error_name_char_illegal c = 0 /\ error_bracket_missing_open c = 0
   /\ error_bracket_double_open c = 0 /\ all_chars name_char s = true
   /\ exists k, brackets_of s =
                if bracket_round_open c then String ")" (bracket_pairs k)
                else bracket_pairs k).
Proof.
  induction s as [|a s IH]; intros c; cbv zeta; cbn [name_loop].
  - cbn [all_chars brackets_of]. destruct (bracket_round_open c).
    + split; [intros (_&_&_&H); discriminate H | intros (_&_&_&_&k&H); discriminate H].
    + split; [intros (?&?&?&_); repeat split; trivial; now exists 0 | tauto].
  - specialize (IH (name_step c a)). cbv zeta in IH. rewrite IH. clear IH.
    cbn [all_chars brackets_of]. unfold name_step, name_char.
    destruct (Ascii.eqb a "(") eqn:Eo.
    { destruct (bracket_not_plain a) as (-> & -> & ->); [now rewrite Eo|].
      cbn [orb andb error_name_char_illegal error_bracket_missing_open
           error_bracket_double_open bracket_round_open].
      apply Ascii.eqb_eq in Eo. subst a. destruct (bracket_round_open c).
      - split; [intros (_&_&H&_); discriminate H
               | intros (_&_&_&_&k&H); discriminate H].
      - split.
        + intros (?&?&?&?&k&Hk). repeat split; trivial. exists (S k).
          cbn [bracket_pairs]. now rewrite Hk.
        + intros (?&?&?&?&k&Hk). repeat split; trivial.
          destruct k as [|k]; [discriminate Hk|]. exists k.
          cbn [bracket_pairs] in Hk. now injection Hk. }
    destruct (Ascii.eqb a ")") eqn:Ec.
    { destruct (bracket_not_plain a) as (-> & -> & ->);
        [rewrite Ec; now rewrite orb_true_r|].
      cbn [orb andb]. apply Ascii.eqb_eq in Ec. subst a.
      destruct (bracket_round_open c);
        cbn [error_name_char_illegal error_bracket_missing_open
             error_bracket_double_open bracket_round_open].
      - split.
        + intros (?&?&?&?&k&Hk). repeat split; trivial. exists k. now rewrite Hk.
        + intros (?&?&?&?&k&Hk). repeat split; trivial. exists k. now injection Hk.
      - split; [intros (_&H&_); discriminate H|].
        intros (_&_&_&_&k&Hk). destruct k; discriminate Hk. }
    cbn [orb].
    destruct (char_in a letters) eqn:El; cbn [orb andb]; [reflexivity|].
    destruct (char_in a digits) eqn:Ed; cbn [orb andb]; [reflexivity|].
    destruct (char_in a name_punctuation) eqn:Ep; cbn [orb andb]; [reflexivity|].
    cbn [error_name_char_illegal error_bracket_missing_open
         error_bracket_double_open bracket_round_open].
    split; [intros (H&_); discriminate H | intros (_&_&_&H&_); discriminate H].
Qed.

(** X17: AuditName.audit accepts exactly the non-empty names over
    letters, digits, round brackets and " .,+-/" whose round brackets,
    read from left to right, are a sequence of "()" pairs: every
    bracket that opens is closed before the next one opens. *)
Theorem AuditName_valid_iff (data : option string) :
  valid (AuditName_audit data) = true <->
  exists s, data = Some s /\ s <> EmptyString
            /\ all_chars name_char s = true
            /\ exists k, brackets_of s = bracket_pairs k.
Proof.
  unfold AuditName_audit. destruct data as [s|]; cbn [truthy negb].
  2:{ split; [intros H; discriminate H | intros (s & H & _); discriminate H]. }
  destruct (String.eqb_spec s EmptyString) as [->|Hne]; cbn [negb].
  { split; [intros H; discriminate H | intros (s & H & Hs & _)].
    injection H as <-. now destruct Hs. }
  change (default EmptyString (Some s)) with s.
  rewrite verdict_of_errors_valid, name_errors_nil.
  pose proof (name_loop_clean s (mkNameCounts 0 0 0 false)) as Hc.
  cbv zeta in Hc. cbn [error_name_char_illegal error_bracket_missing_open
    error_bracket_double_open bracket_round_open] in Hc.
  split.
  - intros (Hi & Hm & Ho & Hd).
    destruct (bracket_round_open (name_loop (mkNameCounts 0 0 0 false) s)) eqn:E;
      [cbv iota in Ho; discriminate Ho|].
    destruct Hc as [Hc _]. destruct Hc as (_&_&_&Hall&Hk); [tauto|].
    exists s. repeat split; assumption.
  - intros (s' & E & _ & Hall & Hk). injection E as <-.
    destruct Hc as [_ Hc]. destruct Hc as (Hi&Hm&Hd&Ho); [tauto|].
    rewrite Ho. tauto.
Qed.

(** ** AbstractAuditList.audit_list, AuditNames *)

Lemma audit_list_valid {T} (t_valid : T -> bool) (t_errors : T -> list string)
    (audits : list T) :
  l_valid (audit_list T t_valid t_errors audits) = true <->
  audits <> [] /\ forallb t_valid audits = true.
Proof.
  unfold audit_list. destruct audits as [|a audits].
  - split; [intros H; discriminate H | intros [H _]; now destruct H].
  - destruct (forallb t_valid (a :: audits)); cbn [l_valid].
    + split; [intros _; split; [discriminate | reflexivity] | reflexivity].
    + split; [intros H; discriminate H | intros [_ H]; discriminate H].
Qed.

Lemma list_errors_spec {T} (t_valid : T -> bool) (t_errors : T -> list string)
    audits : forall i e,
  In e (list_errors T t_valid t_errors i audits) <->
  exists j audit error,
    nth_error audits j = Some audit /\ t_valid audit = false
    /\ In error (t_errors audit)
    /\ e = "[" +:+ fmt_int (i + j) +:+ "]:" +:+ error.
Proof.
  induction audits as [|a audits IH]; intros i e; cbn [list_errors].
  - split; [intros [] | intros ([|j] & audit & error & H & _); discriminate H].
  - rewrite in_app_iff, IH. split.
    + intros [H|(j & audit & error & Hj & Hv & He & ->)].
      * destruct (t_valid a) eqn:Ev; [destruct H|].
        apply in_map_iff in H as (error & <- & He).
        exists 0, a, error. rewrite Nat.add_0_r. repeat split; assumption.
      * exists (S j), audit, error. repeat split; try assumption.
        now replace (i + S j) with (S i + j) by lia.
    + intros ([|j] & audit & error & Hj & Hv & He & ->).
      * left. injection Hj as ->. rewrite Hv, Nat.add_0_r.
        apply in_map_iff. now exists error.
      * right. exists j, audit, error. repeat split; try assumption.
        now replace (i + S j) with (S i + j) by lia.
Qed.

(** X18: AbstractAuditList.audit_list reports a list validator valid
    exactly when it holds at least one element and every element is
    valid; an empty list gets the single error "missing"; an invalid
    list gets exactly the errors of its invalid elements, each behind
    the index of its element. *)
Theorem audit_list_spec {T} (t_valid : T -> bool) (t_errors : T -> list string)
    (audits : list T) :
  let self := audit_list T t_valid t_errors audits in
  l_audits self = audits
  /\ (l_valid self = true <->
      audits <> [] /\ Forall (fun audit => t_valid audit = true) audits)
  /\ (audits = [] -> l_errors self = ["missing"])
  /\ (l_valid self = true -> l_errors self = [])
  /\ (audits <> [] -> l_valid self = false ->
      forall e, In e (l_errors self) <->
        exists j audit error,
          nth_error audits j = Some audit /\ t_valid audit = false
          /\ In error (t_errors audit)
          /\ e = "[" +:+ fmt_int j +:+ "]:" +:+ error).
Proof.
  cbv zeta. unfold audit_list. destruct audits as [|a audits].
  - cbn [l_audits l_valid l_errors].
    split; [reflexivity|]. split; [|split; [|split]].
    + split; [intros H; discriminate H | intros [H _]; now destruct H].
    + reflexivity.
    + intros H; discriminate H.
    + intros H. now destruct H.
  - destruct (forallb t_valid (a :: audits)) eqn:Ef;
      cbn [l_audits l_valid l_errors];
      (split; [reflexivity|]); (split; [|split; [|split]]).
    + split; [intros _|reflexivity]. split; [discriminate|].
      apply Forall_forall. intros x Hx. rewrite forallb_forall in Ef.
      apply Ef. now apply list_elem_of_In.
    + intros H; discriminate H.
    + reflexivity.
    + intros _ H. discriminate H.
    + split; [intros H; discriminate H|]. intros [_ H].
      assert (forallb t_valid (a :: audits) = true) as Ht.
      { apply forallb_forall. intros x Hx. rewrite Forall_forall in H.
        apply H. now apply list_elem_of_In. }
      congruence.
    + intros H; discriminate H.
    + intros H; discriminate H.
    + intros _ _ e.
      apply (list_errors_spec t_valid t_errors (a :: audits) 0).
Qed.

(** X19: AuditNames.audit accepts a list of names exactly when the list
    is not empty and AuditName accepts each name; no list and the empty
    list get the error "missing". *)
Theorem AuditNames_valid_iff (data : option (list string)) :
  (l_valid (AuditNames_audit data) = true <->
   exists names, data = Some names /\ names <> []
     /\ Forall (fun name => valid (AuditName_audit (Some name)) = true) names)
  /\ (default [] data = [] -> l_errors (AuditNames_audit data) = ["missing"]).
Proof.
  unfold AuditNames_audit.
  assert (forall name, valid (AuditName_new (Some name))
                       = valid (AuditName_audit (Some name))) as Hnew.
  { intros name. unfold AuditName_new. destruct (truthy (Some name)) eqn:E.
    - reflexivity.
    - unfold AuditName_audit. rewrite E. reflexivity. }
  set (new := fun item => AuditName_new (Some item)).
  assert (default [] data = match data with Some names => names | None => [] end)
    as -> by now destruct data.
  split.
  - rewrite audit_list_valid, forallb_forall. split.
    + intros [Hne Hall]. destruct data as [names|]; [|now destruct Hne].
      exists names. repeat split.
      * intros ->. now destruct Hne.
      * apply Forall_forall. intros name Hn. rewrite <- Hnew.
        apply Hall, (in_map new). now apply list_elem_of_In.
    + intros (names & -> & Hne & Hall). split.
      * destruct names; [now destruct Hne | discriminate].
      * intros v Hv'. apply in_map_iff in Hv' as (name & <- & Hn).
        unfold new. rewrite Hnew.
        rewrite Forall_forall in Hall. apply Hall. now apply list_elem_of_In.
  - intros ->. reflexivity.
Qed.

(** ** str.split, str.join and slices *)

Lemma split_length sep s :
  length (split sep s) = S (count_chars (fun a => Ascii.eqb a sep) s).
Proof.
  induction s as [|a s IH]; cbn [split count_chars]; [reflexivity|].
  destruct (Ascii.eqb a sep); cbn [length Nat.add].
  - now rewrite IH.
  - destruct (split sep s); cbn [length] in *; [discriminate IH | exact IH].
Qed.

Lemma split_hd_app sep a b :
  no_char sep a = true ->
  split sep (a +:+ String sep b) = a :: split sep b.
Proof.
  unfold no_char. induction a as [|c a IH]; intros H.
  - change (EmptyString +:+ String sep b) with (String sep b). cbn [split].
    now rewrite Ascii.eqb_refl.
  - change (String c a +:+ String sep b) with (String c (a +:+ String sep b)).
    cbn [all_chars] in H. apply andb_prop in H as [Hc Ha].
    apply negb_true_iff in Hc. cbn [split]. rewrite Hc, (IH Ha). reflexivity.
Qed.

Lemma split_parts sep s :
  Forall (fun part => no_char sep part = true) (split sep s).
Proof.
  unfold no_char. induction s as [|a s IH]; cbn [split].
  - now constructor.
  - destruct (Ascii.eqb a sep) eqn:E.
    + now constructor.
    + destruct (split sep s) as [|h r].
      * constructor; [|constructor]. cbn [all_chars]. now rewrite E.
      * inversion IH; subst. constructor; [|assumption].
        cbn [all_chars]. rewrite E. assumption.
Qed.

Lemma join_split sep s :
  join (String sep EmptyString) (split sep s) = s.
Proof.
  induction s as [|a s IH]; cbn [split]; [reflexivity|].
  pose proof (split_length sep s) as Hlen.
  destruct (Ascii.eqb_spec a sep) as [->|Hne].
  - destruct (split sep s) as [|h r]; [discriminate Hlen|].
    change (join (String sep "") ("" :: h :: r))
      with (String sep (join (String sep "") (h :: r))).
    now rewrite IH.
  - destruct (split sep s) as [|h r]; [discriminate Hlen|].
    destruct r as [|h' r].
    + cbn [join] in *. now rewrite IH.
    + change (join (String sep "") (String a h :: h' :: r))
        with (String a (join (String sep "") (h :: h' :: r))).
      now rewrite IH.
Qed.

Lemma split_join sep parts :
  parts <> [] -> Forall (fun part => no_char sep part = true) parts ->
  split sep (join (String sep EmptyString) parts) = parts.
Proof.
  induction parts as [|p parts IH]; intros Hne Hall; [now destruct Hne|].
  inversion Hall as [|? ? Hp Hps]; subst. destruct parts as [|q parts].
  - cbn [join]. now apply split_no_sep.
  - change (join (String sep "") (p :: q :: parts))
      with (p +:+ String sep (join (String sep "") (q :: parts))).
    rewrite split_hd_app by exact Hp. rewrite IH; [reflexivity|discriminate|exact Hps].
Qed.

Lemma count_chars_char_in c s :
  1 <= count_chars (fun a => Ascii.eqb a c) s <-> char_in c s = true.
Proof.
  induction s as [|a s IH]; cbn [count_chars char_in].
  - split; [lia | discriminate].
  - rewrite (Ascii.eqb_sym c a). destruct (Ascii.eqb a c); cbn [orb].
    + split; [reflexivity | lia].
    + exact IH.
Qed.

Lemma slice_to_from n s : slice_to n s +:+ slice_from n s = s.
Proof.
  revert s. induction n as [|n IH]; intros [|a s]; try reflexivity.
  cbn [slice_to slice_from].
  change (String a (slice_to n s) +:+ slice_from n s)
    with (String a (slice_to n s +:+ slice_from n s)).
  now rewrite IH.
Qed.

Lemma slice_to_app p s : slice_to (String.length p) (p +:+ s) = p.
Proof.
  induction p as [|a p IH]; cbn [String.length].
  - now destruct (EmptyString +:+ s).
  - change (String a p +:+ s) with (String a (p +:+ s)). cbn [slice_to].
    now rewrite IH.
Qed.

Lemma slice_from_app p s : slice_from (String.length p) (p +:+ s) = s.
Proof.
  induction p as [|a p IH]; cbn [String.length].
  - reflexivity.
  - change (String a p +:+ s) with (String a (p +:+ s)). cbn [slice_from].
    exact IH.
Qed.

(** ** AuditDOI *)

(** X20: AuditDOI.audit accepts exactly the strings made of a prefix
    and a postfix around one "/", with no other "/" and a "." somewhere
    in the prefix; neither part has to hold anything else. *)
Theorem AuditDOI_valid_iff (data : option string) :
  valid (AuditDOI_audit data) = true <->
  exists prefix postfix,
    data = Some (prefix +:+ "/" +:+ postfix)
    /\ no_char "/" prefix = true /\ no_char "/" postfix = true
    /\ char_in "." prefix = true.
Proof.
  unfold AuditDOI_audit. destruct data as [s|]; cbn [truthy negb].
  2:{ split; [intros H; discriminate H | intros (p & q & H & _); discriminate H]. }
  split.
  - destruct (String.eqb s EmptyString); cbn [negb valid]; [intros H; discriminate H|].
    change (default EmptyString (Some s)) with s.
    intros H. apply andb_prop in H as [Hshape Hns].
    apply Nat.eqb_eq in Hshape. apply negb_true_iff, Nat.ltb_ge in Hns.
    pose proof (join_split "/" s) as Hj. pose proof (split_parts "/" s) as Hp.
    destruct (split "/" s) as [|p [|q [|? ?]]]; try discriminate Hshape.
    cbn [List.hd] in Hns. rewrite split_length in Hns.
    inversion Hp as [|? ? Hp1 Hp']; subst. inversion Hp' as [|? ? Hp2 _]; subst.
    exists p, q. split; [reflexivity|]. repeat split; try assumption.
    apply count_chars_char_in. lia.
  - intros (p & q & E & Hp & Hq & Hdot). injection E as ->.
    assert (String.eqb (p +:+ "/" +:+ q) EmptyString = false) as ->.
    { apply String.eqb_neq. destruct p; discriminate. }
    cbn [negb]. change (default EmptyString (Some ?x)) with x.
    change (p +:+ "/" +:+ q) with (p +:+ String "/" q).
    rewrite (split_hd_app "/" p q Hp). unfold no_char in Hq.
    rewrite (split_no_sep "/" q Hq). cbn [length Nat.eqb List.hd valid].
    rewrite split_length. apply count_chars_char_in in Hdot.
    apply andb_true_intro. split; [reflexivity|].
    apply negb_true_iff, Nat.ltb_ge. lia.
Qed.

(** ** AuditUrlDOI *)

(** X21: after [audit] and the cross-check [audit_doi] of
    AuditReference.audit, the DOI URL is valid exactly when the DOI is
    not empty, the URL is "https://doi.org/" followed by the DOI, and
    AuditUrl accepts the URL; in particular a reference without DOI and
    without DOI URL is not valid. *)
Theorem AuditUrlDOI_cross_check (url doi : option string) :
  valid (AuditUrlDOI_audit_doi (AuditUrlDOI_audit url) url doi) = true <->
  exists d, doi = Some d /\ d <> EmptyString
            /\ url = Some ("https://doi.org/" +:+ d)
            /\ valid (AuditUrl_audit url) = true.
Proof.
  unfold AuditUrlDOI_audit_doi, AuditUrlDOI_audit. split.
  - destruct (truthy url) eqn:Eu; cbn [negb andb valid].
    2:{ destruct (truthy doi); cbn [negb valid]; intros H; discriminate H. }
    destruct (truthy doi) eqn:Ed; cbn [negb valid]; [|intros H; discriminate H].
    destruct url as [u|]; [|discriminate Eu]. destruct doi as [d|]; [|discriminate Ed].
    change (default EmptyString (Some u)) with u.
    change (default EmptyString (Some d)) with d.
    destruct (String.eqb_spec (slice_from 16 u) d) as [Hd|Hd]; cbn [negb valid];
      [|intros H; discriminate H].
    intros H. apply andb_prop in H as [Hp Hv]. apply String.eqb_eq in Hp.
    exists d. repeat split; try assumption.
    + intros ->. discriminate Ed.
    + now rewrite <- (slice_to_from 16 u), Hp, Hd.
  - intros (d & -> & Hd & -> & Hv).
    assert (truthy (Some d) = true) as ->
      by (cbn [truthy]; now apply negb_true_iff, String.eqb_neq).
    assert (truthy (Some ("https://doi.org/" +:+ d)) = true) as -> by reflexivity.
    cbn [negb andb].
    change (default EmptyString (Some ?x)) with x.
    pose proof (slice_from_app "https://doi.org/" d) as Hf.
    pose proof (slice_to_app "https://doi.org/" d) as Ht.
    cbn [String.length] in Hf, Ht. rewrite Hf, Ht.
    rewrite !String.eqb_refl, Hv. reflexivity.
Qed.

(** X22: a DOI and its doi.org URL pass together. For a prefix with a
    "." and a postfix, both non-empty, free of "/" and other than "?"
    and "#", AuditDOI accepts prefix/postfix, AuditUrl and AuditUrlDOI
    accept "https://doi.org/prefix/postfix", and the cross-check
    against the DOI keeps the URL valid. *)
Theorem doi_and_url_accepted (prefix postfix : string) :
  url_segment prefix -> url_segment postfix -> char_in "." prefix = true ->
  let doi := prefix +:+ "/" +:+ postfix in
  let url := "https://doi.org/" +:+ doi in
  AuditDOI_audit (Some doi) = mkVerdict true []
  /\ AuditUrl_audit (Some url) = mkVerdict true []
  /\ AuditUrlDOI_audit_doi (AuditUrlDOI_audit (Some url)) (Some url) (Some doi)
     = mkVerdict true [].
Proof.
  intros (Hp0 & Hp & Hpq & Hph) (Hq0 & Hq & Hqq & Hqh) Hdot doi url.
  assert (AuditUrl_audit (Some url) = mkVerdict true []) as Hurl.
  { subst url doi. unfold AuditUrl_audit.
    change ("https://doi.org/" +:+ (prefix +:+ "/" +:+ postfix))
      with (String "h" (String "t" (String "t" (String "p" (String "s" (String ":"
             (String "/" (String "/" (String "d"
               ("oi.org" +:+ String "/" (prefix +:+ String "/" postfix))))))))))).
    cbn [String.eqb Ascii.eqb Bool.eqb slice_to slice_from String.length
         Nat.leb andb negb].
    rewrite (split_hd_app "/" "oi.org") by reflexivity.
    rewrite (split_hd_app "/" prefix postfix Hp).
    unfold no_char in Hq. rewrite (split_no_sep "/" postfix Hq).
    cbn [length Nat.leb List.hd].
    change (split "." "oi.org") with ["oi"; "org"].
    change (String.eqb (last_item ["oi"; "org"]) "arpa") with false.
    cbn [length Nat.leb last_item List.last String.length Nat.ltb orb existsb
         Nat.eqb str_in_list].
    change (String.eqb "?" "oi.org") with false.
    change (String.eqb "#" "oi.org") with false.
    assert (forall s, s <> EmptyString -> (String.length s =? 0) = false) as Hlen
      by (intros [|? ?] H; [now destruct H | reflexivity]).
    rewrite (Hlen _ Hp0), (Hlen _ Hq0). cbn [orb].
    assert (forall x s, s <> x -> String.eqb x s = false) as Hneq
      by (intros x s H; apply String.eqb_neq; congruence).
    rewrite (Hneq "?" _ Hpq), (Hneq "?" _ Hqq), (Hneq "#" _ Hph), (Hneq "#" _ Hqh).
    reflexivity. }
  split; [|split; [exact Hurl|]].
  - subst doi. unfold AuditDOI_audit.
    assert (truthy (Some (prefix +:+ "/" +:+ postfix)) = true) as ->.
    { cbn [truthy]. apply negb_true_iff, String.eqb_neq. destruct prefix; discriminate. }
    cbn [negb]. change (default EmptyString (Some ?x)) with x.
    change (prefix +:+ "/" +:+ postfix) with (prefix +:+ String "/" postfix).
    rewrite (split_hd_app "/" prefix postfix Hp). unfold no_char in Hq.
    rewrite (split_no_sep "/" postfix Hq). cbn [length Nat.eqb List.hd andb].
    apply count_chars_char_in in Hdot.
    assert ((length (split "." prefix) <? 2) = false) as ->
      by (apply Nat.ltb_ge; rewrite split_length; lia).
    reflexivity.
  - unfold AuditUrlDOI_audit_doi, AuditUrlDOI_audit. rewrite Hurl.
    assert (truthy (Some url) = true) as -> by reflexivity.
    assert (truthy (Some doi) = true) as ->.
    { subst doi. cbn [truthy]. apply negb_true_iff, String.eqb_neq.
      destruct prefix; discriminate. }
    cbn [negb andb valid errors]. change (default EmptyString (Some ?x)) with x.
    pose proof (slice_from_app "https://doi.org/" doi) as Hf.
    pose proof (slice_to_app "https://doi.org/" doi) as Ht.
    cbn [String.length] in Hf, Ht. subst url. rewrite Hf, Ht.
    rewrite !String.eqb_refl. reflexivity.
Qed.

Lemma doi_and_url_accepted_witness :
  AuditDOI_audit (Some "10.1000/182") = mkVerdict true []
  /\ AuditUrl_audit (Some "https://doi.org/10.1000/182") = mkVerdict true []
  /\ AuditUrlDOI_audit_doi (AuditUrlDOI_audit (Some "https://doi.org/10.1000/182"))
       (Some "https://doi.org/10.1000/182") (Some "10.1000/182")
     = mkVerdict true [].
Proof.
  apply (doi_and_url_accepted "10.1000" "182").
  - repeat split; try discriminate; reflexivity.
  - repeat split; try discriminate; reflexivity.
  - reflexivity.
Defined.

(** ** AuditUrl, AuditUrlPubmed *)

Lemma split_snoc sep w :
  split sep (w +:+ String sep EmptyString) = split sep w ++ [EmptyString].
Proof.
  induction w as [|a w IH].
  - change (EmptyString +:+ String sep EmptyString) with (String sep EmptyString).
    cbn [split]. now rewrite Ascii.eqb_refl.
  - change (String a w +:+ String sep EmptyString)
      with (String a (w +:+ String sep EmptyString)).
    cbn [split]. rewrite IH. pose proof (split_length sep w) as Hlen.
    destruct (Ascii.eqb a sep); [reflexivity|].
    destruct (split sep w) as [|h r]; [discriminate Hlen | reflexivity].
Qed.

Lemma slice_from_nil n : slice_from n EmptyString = EmptyString.
Proof. now destruct n. Qed.

Lemma slice_from_ends n c w :
  slice_from n (w +:+ String c EmptyString) = EmptyString
  \/ ends_with c (slice_from n (w +:+ String c EmptyString)).
Proof.
  revert w. induction n as [|n IH]; intros w.
  - right. now exists w.
  - destruct w as [|a w].
    + left. change (EmptyString +:+ String c EmptyString) with (String c EmptyString).
      cbn [slice_from]. apply slice_from_nil.
    + change (String a w +:+ String c EmptyString)
        with (String a (w +:+ String c EmptyString)).
      cbn [slice_from]. apply IH.
Qed.

Lemma url_rest_ends_rejected rest :
  rest = EmptyString \/ ends_with "/" rest ->
  (length (split "/" rest) <=? 1) = true
  \/ existsb (fun part => String.length part =? 0) (split "/" rest) = true.
Proof.
  intros [->|(w & ->)].
  - left. reflexivity.
  - right. rewrite split_snoc, existsb_app. cbn [existsb String.length Nat.eqb].
    now rewrite orb_true_r.
Qed.

(** X23: a URL that AuditUrl accepts starts with "http://" or
    "https://" and does not end with "/": the text after the last "/"
    is a segment of its own, and an empty segment is an error. *)
Theorem AuditUrl_valid_shape (u : string) :
  valid (AuditUrl_audit (Some u)) = true ->
  (exists rest, u = "http://" +:+ rest \/ u = "https://" +:+ rest)
  /\ ~ ends_with "/" u.
Proof.
  unfold AuditUrl_audit.
  destruct (String.eqb u EmptyString); [intros H; discriminate H|].
  assert (forall rest, (rest = EmptyString \/ ends_with "/" rest) ->
    valid
      (let address := split "/" rest in
       if length address <=? 1 then url_fail "address too general"
       else
         let address_host := split "." (List.hd EmptyString address) in
         if length address_host <=? 1 then url_fail "incorret hostname"
         else if String.eqb (last_item address_host) "arpa"
         then url_fail "arpa domain is not allowed"
         else if (3 <? String.length (last_item address_host))
                 || (String.length (last_item address_host) <=? 1)
         then url_fail "impossible address domain"
         else if existsb (fun part => String.length part =? 0) address
         then url_fail "missing section in domain"
         else if str_in_list "?" address
         then url_fail "query's not allowed in address"
         else if str_in_list "#" address
         then url_fail "fragment's not allowed in address"
         else mkVerdict true []) = true -> False) as Hrej.
  { intros rest Hrest. cbv zeta.
    destruct (url_rest_ends_rejected rest Hrest) as [-> | ->].
    - intros H; discriminate H.
    - destruct (length (split "/" rest) <=? 1); [intros H; discriminate H|].
      repeat match goal with
             | |- context [if ?b then url_fail _ else _] =>
                 destruct b; [intros H; discriminate H|]
             end.
      intros H; discriminate H. }
  destruct ((7 <=? String.length u) && String.eqb (slice_to 7 u) "http://") eqn:E1.
  - apply andb_prop in E1 as [_ E1]. apply String.eqb_eq in E1. intros Hv. split.
    + exists (slice_from 7 u). left. now rewrite <- E1, slice_to_from.
    + intros (w & ->). apply (Hrej _ (slice_from_ends 8 "/" w)). exact Hv.
  - destruct ((8 <=? String.length u) && String.eqb (slice_to 8 u) "https://") eqn:E2.
    + apply andb_prop in E2 as [_ E2]. apply String.eqb_eq in E2. intros Hv. split.
      * exists (slice_from 8 u). right. now rewrite <- E2, slice_to_from.
      * intros (w & ->). apply (Hrej _ (slice_from_ends 9 "/" w)). exact Hv.
    + intros H; discriminate H.
Qed.

Lemma AuditUrl_valid_shape_witness :
  (exists rest, "https://www.example.com/page" = "http://" +:+ rest
                \/ "https://www.example.com/page" = "https://" +:+ rest)
  /\ ~ ends_with "/" "https://www.example.com/page".
Proof.
  apply (AuditUrl_valid_shape "https://www.example.com/page"). reflexivity.
Defined.

(** X24: AuditUrl.audit never looks at the character that follows
    "http://" or "https://": it cuts the address one character too far
    ([address[8:]], [address[9:]]), so two URLs that differ only in
    that character get the same verdict. *)
Theorem AuditUrl_skips_first_character (c c' : ascii) (rest : string) :
  AuditUrl_audit (Some ("http://" +:+ String c rest))
  = AuditUrl_audit (Some ("http://" +:+ String c' rest))
  /\ AuditUrl_audit (Some ("https://" +:+ String c rest))
     = AuditUrl_audit (Some ("https://" +:+ String c' rest)).
Proof.
  unfold AuditUrl_audit. cbv [String.append].
  cbn [String.eqb Ascii.eqb Bool.eqb slice_to slice_from String.length
       Nat.leb andb negb].
  split; reflexivity.
Qed.

(** X25: AuditUrlPubmed.audit accepts exactly
    "https://www.ncbi.nlm.nih.gov/pubmed/" followed by one or more
    segments joined by "/", each segment non-empty and other than "?"
    and "#"; the segments need not be numbers. *)
Theorem AuditUrlPubmed_valid_iff (data : option string) :
  valid (AuditUrlPubmed_audit data) = true <->
  exists parts, parts <> [] /\ Forall url_segment parts
    /\ data = Some ("https://www.ncbi.nlm.nih.gov/pubmed/" +:+ join "/" parts).
Proof.
  assert (forall rest,
    valid (AuditUrl_audit (Some ("https://www.ncbi.nlm.nih.gov/pubmed/" +:+ rest)))
    = negb (existsb (fun part => String.length part =? 0) (split "/" rest))
      && negb (str_in_list "?" (split "/" rest))
      && negb (str_in_list "#" (split "/" rest))) as Hurl.
  { intros rest. unfold AuditUrl_audit.
    change ("https://www.ncbi.nlm.nih.gov/pubmed/" +:+ rest)
      with (String "h" (String "t" (String "t" (String "p" (String "s" (String ":"
             (String "/" (String "/" (String "w"
               ("ww.ncbi.nlm.nih.gov" +:+ String "/"
                  ("pubmed" +:+ String "/" rest))))))))))).
    cbn [String.eqb Ascii.eqb Bool.eqb slice_to slice_from String.length
         Nat.leb andb negb].
    rewrite (split_hd_app "/" "ww.ncbi.nlm.nih.gov") by reflexivity.
    rewrite (split_hd_app "/" "pubmed") by reflexivity.
    cbn [length Nat.leb List.hd].
    change (split "." "ww.ncbi.nlm.nih.gov") with ["ww"; "ncbi"; "nlm"; "nih"; "gov"].
    change (String.eqb (last_item ["ww"; "ncbi"; "nlm"; "nih"; "gov"]) "arpa")
      with false.
    cbn [length Nat.leb last_item List.last String.length Nat.ltb orb existsb
         Nat.eqb str_in_list].
    change (String.eqb "?" "ww.ncbi.nlm.nih.gov") with false.
    change (String.eqb "#" "ww.ncbi.nlm.nih.gov") with false.
    change (String.eqb "?" "pubmed") with false.
    change (String.eqb "#" "pubmed") with false.
    cbn [orb]. unfold str_in_list.
    destruct (existsb (fun part => String.length part =? 0) (split "/" rest));
      [reflexivity|].
    destruct (existsb (String.eqb "?") (split "/" rest)); [reflexivity|].
    destruct (existsb (String.eqb "#") (split "/" rest)); reflexivity. }
  assert (forall parts,
    Forall (fun part => no_char "/" part = true) parts ->
    (negb (existsb (fun part => String.length part =? 0) parts)
     && negb (str_in_list "?" parts) && negb (str_in_list "#" parts) = true
     <-> Forall url_segment parts)) as Hseg.
  { induction parts as [|p parts IH]; intros Hno.
    - split; [constructor | reflexivity].
    - inversion Hno as [|? ? Hp Hps]; subst. specialize (IH Hps).
      unfold str_in_list in *. cbn [existsb]. rewrite !negb_orb.
      split.
      + intros H. apply andb_prop in H as [H H3]. apply andb_prop in H as [H1 H2].
        apply andb_prop in H1 as [Ha Hb], H2 as [Hc Hd], H3 as [He Hf].
        constructor.
        * repeat split; try assumption.
          -- intros ->. discriminate Ha.
          -- intros ->. discriminate Hc.
          -- intros ->. discriminate He.
        * apply IH. now rewrite Hb, Hd, Hf.
      + intros H. inversion H as [|? ? (H0 & _ & Hq & Hh) Hrest]; subst.
        apply IH in Hrest. apply andb_prop in Hrest as [Hr H3].
        apply andb_prop in Hr as [H1 H2]. rewrite H1, H2, H3.
        assert ((String.length p =? 0) = false) as ->
          by (destruct p; [now destruct H0 | reflexivity]).
        assert (String.eqb "?" p = false) as -> by (apply String.eqb_neq; congruence).
        assert (String.eqb "#" p = false) as -> by (apply String.eqb_neq; congruence).
        reflexivity. }
  unfold AuditUrlPubmed_audit. split.
  - destruct data as [u|]; cbn [truthy negb]; [|intros H; discriminate H].
    destruct (String.eqb u EmptyString); cbn [negb valid]; [intros H; discriminate H|].
    change (default EmptyString (Some u)) with u.
    intros H. apply andb_prop in H as [Hp Hv]. apply String.eqb_eq in Hp.
    pose proof (slice_to_from 36 u) as Hu. rewrite Hp in Hu.
    rewrite <- Hu in Hv. rewrite Hurl in Hv.
    apply (Hseg _ (split_parts "/" _)) in Hv.
    exists (split "/" (slice_from 36 u)). repeat split.
    + pose proof (split_length "/" (slice_from 36 u)) as Hlen.
      intros E. rewrite E in Hlen. discriminate Hlen.
    + exact Hv.
    + change "/" with (String "/" EmptyString) at 2. now rewrite join_split, Hu.
  - intros (parts & Hne & Hall & ->).
    assert (truthy (Some ("https://www.ncbi.nlm.nih.gov/pubmed/" +:+ join "/" parts))
            = true) as -> by reflexivity.
    cbn [negb valid]. change (default EmptyString (Some ?x)) with x.
    pose proof (slice_to_app "https://www.ncbi.nlm.nih.gov/pubmed/" (join "/" parts))
      as Ht. cbn [String.length] in Ht. rewrite Ht, String.eqb_refl, Hurl.
    assert (Forall (fun part => no_char "/" part = true) parts) as Hno.
    { eapply Forall_impl; [exact Hall|]. now intros p (_ & H & _). }
    change "/" with (String "/" EmptyString) at 1 2 3.
    rewrite (split_join "/" parts Hne Hno). cbn [andb]. now apply Hseg.
Qed.

(** ** AuditAuthor *)

Lemma all_chars_impl (p q : ascii -> bool) s :
  (forall a, p a = true -> q a = true) ->
  all_chars p s = true -> all_chars q s = true.
Proof.
  intros Hpq. induction s as [|a s IH]; cbn [all_chars]; [reflexivity|].
  intros H. apply andb_prop in H as [Ha Hs]. now rewrite (Hpq a Ha), IH.
Qed.

Lemma initial_char a :
  char_in a "ABCDEFGHIJKLMNOPQRSTUVWXYZ-" = true ->
  char_in a ".," = false /\ char_in a lower_letters = false
  /\ Ascii.eqb a " " = false.
Proof.
  intros H.
  destruct a as [[] [] [] [] [] [] [] []]; vm_compute in H |- *;
    (discriminate H || (repeat split; reflexivity)).
Qed.

Lemma lower_char_plain a :
  char_in a lower_letters = true ->
  Ascii.eqb a "-" = false /\ Ascii.eqb a " " = false.
Proof.
  intros H.
  destruct a as [[] [] [] [] [] [] [] []]; vm_compute in H |- *;
    (discriminate H || (repeat split; reflexivity)).
Qed.

Lemma upper_char_plain a :
  char_in a upper_letters = true -> Ascii.eqb a " " = false.
Proof.
  intros H.
  destruct a as [[] [] [] [] [] [] [] []]; vm_compute in H |- *;
    (discriminate H || reflexivity).
Qed.

Lemma initials_errors_nil part :
  all_chars (fun a => char_in a "ABCDEFGHIJKLMNOPQRSTUVWXYZ-") part = true ->
  initials_errors part = [].
Proof.
  induction part as [|a part IH]; cbn [all_chars initials_errors]; [reflexivity|].
  intros H. apply andb_prop in H as [Ha Hs].
  destruct (initial_char a Ha) as (-> & -> & _). rewrite Ha. cbn [negb app].
  now apply IH.
Qed.

Lemma family_errors_lower ls t :
  all_chars (fun a => char_in a lower_letters) ls = true ->
  family_errors false (ls +:+ t) = family_errors false t.
Proof.
  induction ls as [|a ls IH]; cbn [all_chars]; [reflexivity|].
  intros H. apply andb_prop in H as [Ha Hs].
  change (String a ls +:+ t) with (String a (ls +:+ t)). cbn [family_errors].
  destruct (lower_char_plain a Ha) as [-> _]. rewrite Ha. cbn [negb app].
  now apply IH.
Qed.

Lemma family_errors_word w t :
  capitalised w = true ->
  family_errors true (w +:+ t) = family_errors false t.
Proof.
  destruct w as [|u ls]; cbn [capitalised]; [intros H; discriminate H|].
  intros H. apply andb_prop in H as [Hu Hls].
  change (String u ls +:+ t) with (String u (ls +:+ t)). cbn [family_errors].
  rewrite Hu. cbn [negb app]. now apply family_errors_lower.
Qed.

Lemma append_empty_r w : w +:+ EmptyString = w.
Proof.
  induction w as [|a w IH]; [reflexivity|].
  change (String a w +:+ EmptyString) with (String a (w +:+ EmptyString)).
  now rewrite IH.
Qed.

Lemma family_errors_nil words :
  words <> [] -> Forall (fun w => capitalised w = true) words ->
  family_errors true (join "-" words) = [].
Proof.
  induction words as [|w words IH]; intros Hne Hall; [now destruct Hne|].
  inversion Hall as [|? ? Hw Hws]; subst. destruct words as [|w' words].
  - cbn [join]. rewrite <- (append_empty_r w).
    now rewrite (family_errors_word w EmptyString Hw).
  - change (join "-" (w :: w' :: words))
      with (w +:+ String "-" (join "-" (w' :: words))).
    rewrite (family_errors_word w _ Hw). cbn [family_errors Ascii.eqb Bool.eqb].
    apply IH; [discriminate | exact Hws].
Qed.

Lemma capitalised_no_space w :
  capitalised w = true -> no_char " " w = true.
Proof.
  destruct w as [|u ls]; cbn [capitalised]; [intros H; discriminate H|].
  intros H. apply andb_prop in H as [Hu Hls]. unfold no_char. cbn [all_chars].
  rewrite (upper_char_plain u Hu). cbn [negb andb].
  eapply all_chars_impl; [|exact Hls]. intros a Ha.
  now destruct (lower_char_plain a Ha) as [_ ->].
Qed.

Lemma family_no_space words :
  Forall (fun w => capitalised w = true) words ->
  no_char " " (join "-" words) = true.
Proof.
  induction words as [|w words IH]; intros Hall; [reflexivity|].
  inversion Hall as [|? ? Hw Hws]; subst. destruct words as [|w' words].
  - cbn [join]. now apply capitalised_no_space.
  - change (join "-" (w :: w' :: words))
      with (w +:+ String "-" (join "-" (w' :: words))).
    pose proof (capitalised_no_space w Hw) as H1. pose proof (IH Hws) as H2.
    unfold no_char in *. rewrite all_chars_app. cbn [all_chars].
    rewrite H1, H2. reflexivity.
Qed.

Lemma connecting_errors_nil l : forall i,
  Forall (fun w => In w connecting_words) l ->
  author_errors (S (S i)) l = [].
Proof.
  induction l as [|w l IH]; intros i Hall; cbn [author_errors]; [reflexivity|].
  inversion Hall as [|? ? Hw Hl]; subst.
  assert (str_in_list w connecting_words = true) as ->.
  { apply existsb_exists. exists w. split; [exact Hw | apply String.eqb_refl]. }
  cbn [negb app]. now apply IH.
Qed.

(** X26: AuditAuthor.audit accepts every name written as connecting
    words from its list, then a family name of capitalised words joined
    by hyphens, then initials in capitals and hyphens, the parts
    separated by single spaces. *)
Theorem AuditAuthor_accepts (connectives : list string) (family initials : string) :
  Forall (fun w => In w connecting_words) connectives ->
  family_name family ->
  all_chars (fun a => char_in a "ABCDEFGHIJKLMNOPQRSTUVWXYZ-") initials = true ->
  au_valid (AuditAuthor_audit (Some (join " " (connectives ++ [family; initials]))))
  = true.
Proof.
  intros Hcon (words & Hne & Hwords & ->) Hini.
  set (parts := connectives ++ [join "-" words; initials]).
  assert (parts <> []) as Hparts by (subst parts; now destruct connectives).
  assert (Forall (fun part => no_char " " part = true) parts) as Hno.
  { subst parts. apply Forall_app. split.
    - eapply Forall_impl; [exact Hcon|]. intros w Hw. cbn in Hw.
      destruct Hw as [<-|[<-|[<-|[<-|[<-|[<-|[]]]]]]]; reflexivity.
    - constructor; [now apply family_no_space|]. constructor; [|constructor].
      eapply all_chars_impl; [|exact Hini]. intros a Ha.
      now destruct (initial_char a Ha) as (_ & _ & ->). }
  pose proof (split_join " " parts Hparts Hno) as Hsplit.
  change (String " " EmptyString) with " " in Hsplit.
  unfold AuditAuthor_audit.
  assert (truthy (Some (join " " parts)) = true) as ->.
  { cbn [truthy]. apply negb_true_iff, String.eqb_neq. intros E.
    rewrite E in Hsplit. subst parts. cbn [split] in Hsplit.
    destruct connectives as [|? [|? ?]]; discriminate Hsplit. }
  cbn [negb]. change (default EmptyString (Some ?x)) with x.
  destruct (String.eqb (join " " parts) "et al"); [reflexivity|].
  rewrite Hsplit. subst parts. rewrite rev_app_distr. cbn [List.rev app author_errors].
  rewrite (initials_errors_nil initials Hini), (family_errors_nil words Hne Hwords).
  rewrite connecting_errors_nil; [reflexivity|].
  apply Forall_forall. intros w Hw. rewrite Forall_forall in Hcon.
  apply Hcon. apply list_elem_of_In. apply list_elem_of_In in Hw.
  now apply in_rev.
Qed.

Lemma AuditAuthor_accepts_witness :
  au_valid (AuditAuthor_audit (Some "van der Waals-Smit JD")) = true.
Proof.
  apply (AuditAuthor_accepts ["van"; "der"] "Waals-Smit" "JD").
  - repeat constructor; simpl; tauto.
  - exists ["Waals"; "Smit"]. repeat split; [discriminate|].
    repeat constructor.
  - reflexivity.
Defined.

(** ** AuditReferences *)

(** X27: AuditReferences.audit never accepts a list that holds a
    reference with a URL: such a reference keeps the verdict of its
    construction, so the list is invalid whatever the URL and the
    other references are. *)
Theorem AuditReferences_url_rejected
    (title year journal volume issue pages : Verdict -> option string -> Verdict)
    (authors : AuthorsAudit -> list string -> AuthorsAudit)
    (refs : list Reference) (ref : Reference) :
  In ref refs -> truthy (r_url ref) = true ->
  l_valid (AuditReferences_audit title year journal volume issue pages authors
             (Some refs)) = false.
Proof.
  intros Hin Hurl. unfold AuditReferences_audit.
  change (default [] (Some refs)) with refs.
  set (new := AuditReference_of title year journal volume issue pages authors).
  assert (ar_valid (new ref) = false) as Hinvalid.
  { subst new. unfold AuditReference_of, AuditReference_new, AuditReference_audit.
    assert (Reference_bool ref = true) as ->
      by (unfold Reference_bool; now rewrite Hurl).
    rewrite Hurl. reflexivity. }
  apply not_true_is_false. intros Hv. apply audit_list_valid in Hv as [_ Hall].
  rewrite forallb_forall in Hall. specialize (Hall (new ref) (in_map new _ _ Hin)).
  congruence.
Qed.

Lemma AuditReferences_url_rejected_witness :
  l_valid (AuditReferences_audit (fun v _ => v) (fun v _ => v) (fun v _ => v)
             (fun v _ => v) (fun v _ => v) (fun v _ => v) (fun a _ => a)
             (Some [url_reference])) = false.
Proof.
  apply (AuditReferences_url_rejected (fun v _ => v) (fun v _ => v) (fun v _ => v)
           (fun v _ => v) (fun v _ => v) (fun v _ => v) (fun a _ => a)
           [url_reference] url_reference).
  - now left.
  - reflexivity.
Defined.

(** * The theorems on concrete maps and batches

    The names of the examples are ASCII text, which [ascii_lower]
    lowers as Python does. *)

Section Examples.
#[local] Existing Instance ascii_Lower.

Lemma example_batch_ok : batch_ok Source.fpbase example_batch.
Proof.
  split; [discriminate|]. split; [discriminate|].
  repeat constructor.
Qed.


Lemma example_map_wf : dict_wf (m_map example_map).
Proof.
  unfold dict_wf. simpl. apply NoDup_cons. split.
  - intros H. apply list_elem_of_In in H. destruct H as [H|[]]. discriminate H.
  - apply NoDup_cons. split; [apply not_elem_of_nil | apply NoDup_nil_2].
Qed.



Lemma case_batch_ok : batch_ok Source.fpbase case_batch.
Proof.
  split; [discriminate|]. split; [discriminate|].
  repeat constructor.
Qed.

Lemma unsorted_map_wf : dict_wf (m_map unsorted_map).
Proof.
  unfold dict_wf. simpl. repeat (apply NoDup_cons; split);
    try apply NoDup_nil_2; intros H; apply list_elem_of_In in H;
    repeat (destruct H as [H|H]; [discriminate H|]); destruct H.
Qed.

(** C1 fails as stated: the second [append] of the same same-source
    batch leaves the record without a known name unresolved again, and
    the mapped identifier the batch lacks dangled again. *)
Lemma append_twice_counterexample :
  Map_append (Some example_batch) example_map = Returned example_map_1
  /\ Map_append (Some example_batch) example_map_1 = Returned example_map_1
  /\ m_unresolved example_map_1 <> []
  /\ m_dangled example_map_1 <> [].
Proof. repeat split; try (vm_compute; reflexivity); discriminate. Qed.

Lemma append_twice_witness :
  batch_ok Source.fpbase example_batch
  /\ exists self1 self2,
       Map_append (Some example_batch) example_map = Returned self1
       /\ Map_append (Some example_batch) self1 = Returned self2
       /\ m_map self2 = m_map self1
       /\ m_unresolved self2
          = List.filter
              (fun x => negb (set_contains x
                                (build_map_identifiers Source.fpbase (m_map self1))))
              (m_unresolved self1)
       /\ (forall x, set_contains x (m_dangled self2) = set_contains x (m_dangled self1))
       /\ (m_unresolved self1 = [] -> m_unresolved self2 = [])
       /\ (m_dangled self1 = [] -> m_dangled self2 = [])
       /\ (NoDup (batch_identifiers example_batch) ->
           m_unresolved self2 = m_unresolved self1).
Proof.
  split; [exact example_batch_ok|].
  apply (append_twice Source.fpbase example_batch example_map example_batch_ok).
Defined.





(** C4 fails as stated: [append] of nothing empties the unresolved list
    and replaces the stored source. *)
Lemma append_empty_counterexample :
  Map_append None example_map = Returned (mkMap (m_map example_map) None [] [])
  /\ Map_append (Some []) example_map = Returned (mkMap (m_map example_map) None [] [])
  /\ m_unresolved example_map <> []
  /\ m_source example_map <> None.
Proof. repeat split; discriminate. Qed.

(** C5 fails as stated: the first [delete] removes the last identifier
    of Header DAPI and with it the Header; the second [delete] raises
    [KeyError]. *)
Lemma delete_twice_counterexample :
  Map_delete "DAPI" bd_dapi example_map = Returned example_map_deleted
  /\ Map_delete "DAPI" bd_dapi example_map_deleted
     = Raised (KeyError "DAPI") example_map_deleted.
Proof. split; vm_compute; reflexivity. Qed.

Lemma delete_twice_witness :
  dict_wf (m_map example_map)
  /\ exists self1,
       Map_delete "EGFP" bd_old example_map = Returned self1
       /\ (dict_get "EGFP" (m_map self1) <> None ->
           Map_delete "EGFP" bd_old self1 = Returned self1)
       /\ (dict_get "EGFP" (m_map self1) = None ->
           Map_delete "EGFP" bd_old self1 = Raised (KeyError "EGFP") self1)
       /\ (dict_get "EGFP" (m_map self1) = None
           <-> [bd_old; fpbase_gone] <> []
               /\ Forall (fun y => Identifier_eq y bd_old = true) [bd_old; fpbase_gone]).
Proof.
  split; [exact example_map_wf|].
  apply (delete_twice "EGFP" bd_old example_map example_map_wf).
Defined.

Lemma Map_new_delete_witness :
  Map_new "CFP" fpbase_new true example_map
  = Returned (set_m_map (m_map example_map
                         ++ [("CFP", mkHeader true "CFP" None [] [fpbase_new])]) example_map)
  /\ Map_delete "CFP" fpbase_new
       (set_m_map (m_map example_map
                   ++ [("CFP", mkHeader true "CFP" None [] [fpbase_new])]) example_map)
     = Returned example_map.
Proof.
  split; [reflexivity|].
  apply (Map_new_delete "CFP" fpbase_new true example_map). reflexivity.
Defined.

Lemma Map_delete_identifier_spec_witness :
  dict_wf (m_map example_map)
  /\ exists d',
       Map_delete_identifier bd_old example_map = Returned (set_m_map d' example_map)
       /\ all_ids d' = without bd_old (all_ids (m_map example_map))
       /\ (forall x, Identifier_eq x bd_old = true -> occurrences x d' = 0)
       /\ (forall y, Identifier_eq y bd_old = false ->
                     occurrences y d' = occurrences y (m_map example_map))
       /\ (forall k, In k (List.map fst d') -> In k (List.map fst (m_map example_map)))
       /\ (no_empty_header (m_map example_map) -> no_empty_header d').
Proof.
  split; [exact example_map_wf|].
  apply (Map_delete_identifier_spec bd_old example_map example_map_wf).
Defined.

Lemma Map_delete_frame_witness :
  dict_wf (m_map example_map)
  /\ dict_get "EGFP" (m_map example_map)
     = Some (mkHeader true "EGFP" None ["EGFP"; "Enhanced GFP"] [bd_old; fpbase_gone])
  /\ exists d',
       Map_delete "EGFP" bd_old example_map = Returned (set_m_map d' example_map)
       /\ (forall k, k <> "EGFP" -> dict_get k d' = dict_get k (m_map example_map))
       /\ match dict_get "EGFP" d' with
          | None => True
          | Some h' =>
              identifiers h' = without bd_old [bd_old; fpbase_gone]
              /\ names h' = ["EGFP"; "Enhanced GFP"] /\ h_valid h' = true
              /\ h_header h' = "EGFP"
              /\ h_source h'
                 = if existsb (fun y => Identifier_eq y bd_old) [bd_old; fpbase_gone]
                   then match @None Identifier with
                        | Some src => if Identifier_eq src bd_old then None else Some src
                        | None => None
                        end
                   else None
          end.
Proof.
  split; [exact example_map_wf|]. split; [reflexivity|].
  apply (Map_delete_frame "EGFP" bd_old example_map _ example_map_wf eq_refl).
Defined.

Lemma append_unresolved_spec_witness :
  batch_ok Source.fpbase case_batch
  /\ exists self1,
       Map_append (Some case_batch) example_map = Returned self1
       /\ forall x,
            In x (m_unresolved self1)
            <-> exists item,
                  In item case_batch /\ x = ident_of Source.fpbase item
                  /\ set_contains x
                       (build_map_identifiers Source.fpbase (m_map example_map)) = false
                  /\ forall name, In name (d_names item) ->
                                  ~ registered (m_map example_map) name.
Proof.
  split; [exact case_batch_ok|].
  apply (append_unresolved_spec Source.fpbase case_batch example_map case_batch_ok).
Defined.

Lemma append_links_by_name_witness :
  dict_wf (m_map example_map)
  /\ batch_ok Source.fpbase case_batch
  /\ exists self1,
       Map_append (Some case_batch) example_map = Returned self1
       /\ forall item,
            In item case_batch ->
            set_contains (ident_of Source.fpbase item)
              (build_map_identifiers Source.fpbase (m_map example_map)) = false ->
            (exists name, In name (d_names item) /\ registered (m_map example_map) name) ->
            exists k h h',
              dict_get k (m_map example_map) = Some h
              /\ dict_get k (m_map self1) = Some h'
              /\ In (ident_of Source.fpbase item) (identifiers h')
              /\ names h' = names h
              /\ exists name nm,
                   In name (d_names item) /\ In nm (names h) /\ lower nm = lower name.
Proof.
  split; [exact example_map_wf|]. split; [exact case_batch_ok|].
  apply (append_links_by_name Source.fpbase case_batch example_map
           example_map_wf case_batch_ok).
Defined.

Lemma append_dangled_spec_witness :
  batch_ok Source.fpbase example_batch
  /\ exists self1,
       Map_append (Some example_batch) example_map = Returned self1
       /\ (forall x,
             set_contains x (m_dangled self1)
             = existsb (same_in_source Source.fpbase x) (all_ids (m_map example_map))
               && negb (in_batch Source.fpbase example_batch x))
       /\ (forall x, In x (m_dangled self1) ->
                     In x (all_ids (m_map example_map)) /\ id_source x = Source.fpbase)
       /\ (forall x, count_eq x (m_dangled self1) <= 1)
       /\ (forall x, set_contains x (m_dangled self1) = true ->
                     set_contains x (m_unresolved self1) = false).
Proof.
  split; [exact example_batch_ok|].
  apply (append_dangled_spec Source.fpbase example_batch example_map example_batch_ok).
Defined.

Lemma append_other_sources_witness :
  batch_ok Source.fpbase example_batch
  /\ exists self1,
       Map_append (Some example_batch) example_map = Returned self1
       /\ forall x, id_source x <> Source.fpbase ->
            occurrences x (m_map self1) = occurrences x (m_map example_map)
            /\ set_contains x (m_unresolved self1) = false
            /\ set_contains x (m_dangled self1) = false.
Proof.
  split; [exact example_batch_ok|].
  apply (append_other_sources Source.fpbase example_batch example_map example_batch_ok).
Defined.

Lemma append_keeps_invariants_witness :
  batch_ok Source.fpbase example_batch
  /\ exists self1,
       Map_append (Some example_batch) example_map = Returned self1
       /\ (no_empty_header (m_map example_map) -> no_empty_header (m_map self1))
       /\ (NoDup (batch_identifiers example_batch) ->
           mapped_once (m_map example_map) -> mapped_once (m_map self1)).
Proof.
  split; [exact example_batch_ok|].
  apply (append_keeps_invariants Source.fpbase example_batch example_map example_batch_ok).
Defined.

Lemma resolved_stays_resolved_witness :
  batch_ok Source.fpbase example_batch
  /\ Map_append (Some example_batch) example_map = Returned example_map_1
  /\ In fpbase_new (m_unresolved example_map_1)
  /\ Map_append_to "EGFP" fpbase_new example_map_1
     = Returned (set_m_map (link_to "EGFP" fpbase_new (m_map example_map_1)) example_map_1)
  /\ exists self3,
       Map_append (Some example_batch)
         (set_m_map (link_to "EGFP" fpbase_new (m_map example_map_1)) example_map_1)
       = Returned self3
       /\ set_contains fpbase_new (m_unresolved self3) = false
       /\ set_contains fpbase_new (m_dangled self3) = false.
Proof.
  split; [exact example_batch_ok|].
  split; [vm_compute; reflexivity|]. split; [now left|]. split; [reflexivity|].
  apply (resolved_stays_resolved Source.fpbase example_batch example_map example_map_1 _
           "EGFP" fpbase_new example_batch_ok).
  - vm_compute. reflexivity.
  - now left.
  - reflexivity.
Defined.

Lemma Map_sort_spec_witness :
  dict_wf (m_map unsorted_map)
  /\ exists d',
       Map_sort unsorted_map = Returned (set_m_map d' unsorted_map)
       /\ Permutation d' (m_map unsorted_map)
       /\ (forall k, dict_get k d' = dict_get k (m_map unsorted_map))
       /\ sorted_by_lower d'
       /\ (forall s, with_lower_key s d' = with_lower_key s (m_map unsorted_map))
       /\ Map_sort (set_m_map d' unsorted_map) = Returned (set_m_map d' unsorted_map).
Proof.
  split; [exact unsorted_map_wf|].
  apply (Map_sort_spec unsorted_map unsorted_map_wf).
Defined.

End Examples.
